(** * point-extractor: the full-analysis handler

    A shallow embedding of [exports.handler] of
    [netlify/functions/extract-constraints.js] and the properties of its
    response normalisation and result reconciliation; then of the request
    it sends to the provider, of the handler of the simple mode, and of
    [getHighlightedText] and [handleSubmit] of the page [app/page.tsx].

    Conventions of the embedding:
    - a JavaScript string is the list of its UTF-16 code units ([list N]), so
      [length] is [String.prototype.length] and the bullet character U+2022
      is the single unit 8226;
    - a JSON value is a tree ([JValue]); an object is the list of its members
      in enumeration order; [undefined] is [None] in an [option JValue];
    - numbers are exact rationals: the handler only tests numbers for
      truthiness and copies them, so the rounding of IEEE doubles plays no
      role;
    - a JavaScript exception is the [Throw] completion of a small monad that
      also counts the calls made to [uuidv4];
    - what the handler gets from outside (the JSON parser of the engine, the
      uuid library, the environment, the answer of the provider) is gathered
      in the records [Engine] and [World]; the request sent to the provider
      (prompt, URL, headers, body) has no part in the response of the handler
      beyond the outcome of [fetch], and is built apart ([outgoing]). *)

From Stdlib Require Import Ascii String.
From stdpp Require Import base list option.
From Stdlib Require Import ZArith NArith QArith Lia Lqa DecimalString.

Set Warnings "-register-all".
Local Open Scope N_scope.
Local Open Scope list_scope.

(** ** JavaScript strings *)

Abbreviation jsstring := (list N).

(** The code units of an ASCII literal. *)
Definition js (s : String.string) : jsstring :=
  map N_of_ascii (list_ascii_of_string s).

(** [WhiteSpace] and [LineTerminator] code units: what [trim] removes and
    what the regular expression class [\s] matches. *)
Definition isWhiteSpace (c : N) : bool :=
  existsb (N.eqb c)
    [9; 10; 11; 12; 13; 32; 160; 5760; 8232; 8233; 8239; 8287; 12288; 65279]
  || ((8192 <=? c) && (c <=? 8202)).

Fixpoint trimStart (s : jsstring) : jsstring :=
  match s with
  | [] => []
  | c :: s' => if isWhiteSpace c then trimStart s' else s
  end.

Fixpoint trimEnd (s : jsstring) : jsstring :=
  match s with
  | [] => []
  | c :: s' =>
      match trimEnd s' with
      | [] => if isWhiteSpace c then [] else [c]
      | r => c :: r
      end
  end.

(** [s.trim()] *)
Definition trim (s : jsstring) : jsstring := trimEnd (trimStart s).

(** [sep] occurs in [s] at index 0. *)
Fixpoint starts_with (sep s : jsstring) : bool :=
  match sep, s with
  | [], _ => true
  | _ :: _, [] => false
  | a :: sep', b :: s' => (a =? b) && starts_with sep' s'
  end.

(** [s.includes(sep)] *)
Fixpoint includes (sep s : jsstring) : bool :=
  starts_with sep s ||
  match s with
  | [] => false
  | _ :: s' => includes sep s'
  end.

(** [s.split(sep)] for a non-empty separator: the segments between the
    successive non-overlapping occurrences of [sep], found left to right.
    [skip] counts the units of a separator still to be passed over. *)
Fixpoint split_from (sep : jsstring) (skip : nat) (s : jsstring) : list jsstring :=
  match s with
  | [] => [[]]
  | c :: s' =>
      match skip with
      | S k => split_from sep k s'
      | O =>
          if starts_with sep s then [] :: split_from sep (length sep - 1) s'
          else match split_from sep 0 s' with
               | seg :: segs => (c :: seg) :: segs
               | [] => [[c]]
               end
      end
  end.

Definition split (sep s : jsstring) : list jsstring := split_from sep 0 s.

(** [s.indexOf(sep)] *)
Fixpoint indexOf (sep s : jsstring) : option nat :=
  if starts_with sep s then Some 0%nat
  else match s with
       | [] => None
       | _ :: s' => S <$> indexOf sep s'
       end.

(** The text before the first occurrence of [sep] (all of [s] if none). *)
Fixpoint before (sep s : jsstring) : jsstring :=
  match s with
  | [] => []
  | c :: s' => if starts_with sep s then [] else c :: before sep s'
  end.

(** The text after the first occurrence of [sep]. *)
Fixpoint after (sep s : jsstring) : option jsstring :=
  if starts_with sep s then Some (drop (length sep) s)
  else match s with
       | [] => None
       | _ :: s' => after sep s'
       end.

(** ** Completions *)

(** What a JavaScript computation can throw inside the handler.  The text of
    an engine-raised error is the engine's business; [site] only records
    where it was raised. *)
Inductive Thrown :=
| TypeError (site : String.string)
| SyntaxError (site : String.string)
| FetchRejected (message : jsstring)
| ApiError (message : jsstring).

Inductive Completion (A : Type) :=
| Normal (a : A)
| Throw (e : Thrown).
Arguments Normal {A} a.
Arguments Throw {A} e.

(** ** Code-fence stripping (lines 191-195) *)

Definition fence : jsstring := js "```".
Definition fence_json : jsstring := js "```json".

(** [xs[i].split(sep)[0].trim()]: an index out of range is [undefined], and
    calling [split] on it is a TypeError. *)
Definition fenced_segment (xs : list jsstring) (i : nat) : Completion jsstring :=
  match xs !! i with
  | None => Throw (TypeError "split of undefined")
  | Some seg =>
      match split fence seg !! 0%nat with
      | None => Throw (TypeError "trim of undefined")
      | Some inner => Normal (trim inner)
      end
  end.

Definition stripCodeFence (aiOutput : jsstring) : Completion jsstring :=
  if includes fence_json aiOutput then
    fenced_segment (split fence_json aiOutput) 1
  else if includes fence aiOutput then
    fenced_segment (split fence aiOutput) 1
  else Normal aiOutput.

(** The stripping as the specification words it: the content between the
    first pair of fence markers, a marker being a triple backtick optionally
    followed by a language tag (a run of letters and digits). *)
Definition is_tag_char (c : N) : bool :=
  ((97 <=? c) && (c <=? 122)) || ((65 <=? c) && (c <=? 90)) ||
  ((48 <=? c) && (c <=? 57)).

Fixpoint drop_tag (s : jsstring) : jsstring :=
  match s with
  | c :: s' => if is_tag_char c then drop_tag s' else s
  | [] => []
  end.

Definition first_fenced_content (t : jsstring) : option jsstring :=
  match after fence t with
  | None => None
  | Some rest =>
      let content := drop_tag rest in
      match indexOf fence content with
      | Some n => Some (take n content)
      | None => None
      end
  end.

Definition nl : jsstring := [10].

(** ** JSON values and the JavaScript operations the handler applies to them *)

Inductive JValue :=
| JNull
| JBool (b : bool)
| JNum (q : Q)
| JStr (s : jsstring)
| JArr (items : list JValue)
| JObj (members : list (jsstring * JValue)).

Abbreviation members_t := (list (jsstring * JValue)).

(** [ToBoolean]; [None] is [undefined]. *)
Definition ToBoolean (v : option JValue) : bool :=
  match v with
  | None | Some JNull => false
  | Some (JBool b) => b
  | Some (JNum q) => negb (Qnum q =? 0)%Z
  | Some (JStr s) => match s with [] => false | _ => true end
  | Some (JArr _) | Some (JObj _) => true
  end.

(** [v || d] where [d] is defined. *)
Definition or_else (v : option JValue) (d : JValue) : JValue :=
  match v with
  | Some x => if ToBoolean v then x else d
  | None => d
  end.

Fixpoint lookup_member (k : jsstring) (ms : members_t) : option JValue :=
  match ms with
  | [] => None
  | (k', v) :: ms' => if decide (k = k') then Some v else lookup_member k ms'
  end.

(** Defining property [k] of an object under construction: an existing
    member keeps its place and takes the new value, a new one goes last. *)
Fixpoint set_member (k : jsstring) (v : JValue) (ms : members_t) : members_t :=
  match ms with
  | [] => [(k, v)]
  | (k', v') :: ms' =>
      if decide (k = k') then (k, v) :: ms' else (k', v') :: set_member k v ms'
  end.

(** [v.k] for the property names the handler reads ([providerName],
    [inputText], [constraints], [id], [error], [choices], ...): none of them
    is a member of [Object.prototype], [Array.prototype] or of the wrapper
    prototypes of primitives, so only an object can have one, and reading it
    from [null] throws. *)
Definition Get (v : JValue) (k : jsstring) : Completion (option JValue) :=
  match v with
  | JNull => Throw (TypeError "property of null")
  | JObj ms => Normal (lookup_member k ms)
  | _ => Normal None
  end.

(** Decimal rendering of an array index or of an HTTP status. *)
Definition decimal (n : nat) : jsstring :=
  js (NilEmpty.string_of_uint (Nat.to_uint n)).

(** [v[i]] *)
Definition GetIndex (v : JValue) (i : nat) : Completion (option JValue) :=
  match v with
  | JNull => Throw (TypeError "index of null")
  | JArr xs => Normal (xs !! i)
  | JStr s => Normal ((fun c => JStr [c]) <$> s !! i)
  | JObj ms => Normal (lookup_member (decimal i) ms)
  | _ => Normal None
  end.

(** The own enumerable properties copied by the spread [{...v}]. *)
Definition own_props (v : JValue) : members_t :=
  match v with
  | JObj ms => ms
  | JArr xs => imap (fun i x => (decimal i, x)) xs
  | JStr s => imap (fun i c => (decimal i, JStr [c])) s
  | _ => []
  end.

(** ** The monad of the handler: exceptions and the count of uuid calls *)

Definition M (A : Type) : Type := nat -> Completion (A * nat).

Definition ret {A} (a : A) : M A := fun n => Normal (a, n).
Definition throw {A} (e : Thrown) : M A := fun _ => Throw e.
Definition bind {A B} (m : M A) (f : A -> M B) : M B :=
  fun n => match m n with
           | Normal (a, n') => f a n'
           | Throw e => Throw e
           end.
Definition lift {A} (c : Completion A) : M A :=
  fun n => match c with
           | Normal a => Normal (a, n)
           | Throw e => Throw e
           end.

Notation "'let!' x ':=' m 'in' k" := (bind m (fun x => k))
  (at level 10, x name, m at level 100, k at level 200).

(** [xs.map(f)]: the callback runs on the elements in order. *)
Fixpoint mapM {A B} (f : A -> M B) (xs : list A) : M (list B) :=
  match xs with
  | [] => ret []
  | x :: xs' =>
      let! y := f x in
      let! ys := mapM f xs' in
      ret (y :: ys)
  end.

(** ** What the handler gets from outside *)

Record Engine := {
  JSON_parse : jsstring -> option JValue;   (* [None]: throws SyntaxError *)
  uuidv4 : nat -> jsstring;                 (* the result of the n-th call *)
  Number_toString : Q -> jsstring;          (* [Number.prototype.toString] *)
  engine_text : Thrown -> jsstring          (* message of an engine error *)
}.

(** The outcome of the one outbound [fetch]. *)
Inductive FetchOutcome :=
| NetworkFailure (message : jsstring)
| HttpResponse (status : nat) (json : option JValue).

Record World := {
  env : jsstring -> option jsstring;        (* [process.env] *)
  fetched : FetchOutcome
}.

Record Event := {
  httpMethod : jsstring;
  body : option jsstring                    (* [None]: [null] *)
}.

Record Response := {
  statusCode : Z;
  headers : list (String.string * String.string);
  payload : JValue          (* [body]: the value given to [JSON.stringify] *)
}.

Definition fresh (eng : Engine) : M jsstring :=
  fun n => Normal (uuidv4 eng n, S n).

(** [v || uuidv4()] *)
Definition or_uuid (eng : Engine) (v : option JValue) : M JValue :=
  match v with
  | Some x => if ToBoolean v then ret x else let! u := fresh eng in ret (JStr u)
  | None => let! u := fresh eng in ret (JStr u)
  end.

(** ** The provider table [AI_PROVIDERS] *)

(** One step of a response-extraction path such as
    [data.choices[0].message.content]. *)
Inductive Step :=
| Field (k : jsstring)
| Index (i : nat).

(** [endpoint], [model], [headers] and [body] of a descriptor only shape the
    outgoing request, whose outcome is [fetched]; the handler's result
    depends on [envKey] and [parseResponse]. *)
Record Provider := {
  envKey : jsstring;
  parseResponse : list Step
}.

Definition openai_path : list Step :=
  [Field (js "choices"); Index 0; Field (js "message"); Field (js "content")].

Definition xAI : Provider :=
  {| envKey := js "XAI_API_KEY"; parseResponse := openai_path |}.
Definition OpenAI : Provider :=
  {| envKey := js "OPENAI_API_KEY"; parseResponse := openai_path |}.
Definition Anthropic : Provider :=
  {| envKey := js "ANTHROPIC_API_KEY";
     parseResponse := [Field (js "content"); Index 0; Field (js "text")] |}.
Definition Gemini : Provider :=
  {| envKey := js "GOOGLE_API_KEY";
     parseResponse :=
       [Field (js "candidates"); Index 0; Field (js "content");
        Field (js "parts"); Index 0; Field (js "text")] |}.
Definition Cohere : Provider :=
  {| envKey := js "COHERE_API_KEY"; parseResponse := [Field (js "text")] |}.

(** [AI_PROVIDERS] is an object literal: besides its five own keys, the
    names it inherits from [Object.prototype] also resolve to a (truthy)
    value, one that has none of the fields of a descriptor. *)
Inductive ProviderLookup :=
| Own (p : Provider)
| Inherited
| NotFound.

Definition object_prototype_names : list jsstring :=
  map js ["constructor"; "__defineGetter__"; "__defineSetter__";
          "hasOwnProperty"; "__lookupGetter__"; "__lookupSetter__";
          "isPrototypeOf"; "propertyIsEnumerable"; "toString"; "valueOf";
          "__proto__"; "toLocaleString"]%string.

Definition AI_PROVIDERS (name : jsstring) : ProviderLookup :=
  if decide (name = js "xAI (Grok)") then Own xAI
  else if decide (name = js "OpenAI") then Own OpenAI
  else if decide (name = js "Anthropic (Claude)") then Own Anthropic
  else if decide (name = js "Google (Gemini)") then Own Gemini
  else if decide (name = js "Cohere") then Own Cohere
  else if bool_decide (name ∈ object_prototype_names) then Inherited
  else NotFound.

(** [provider.parseResponse(data)] *)
Fixpoint walk (path : list Step) (v : option JValue) : Completion (option JValue) :=
  match path with
  | [] => Normal v
  | st :: path' =>
      match v with
      | None => Throw (TypeError "property of undefined")
      | Some x =>
          match (match st with Field k => Get x k | Index i => GetIndex x i end) with
          | Normal v' => walk path' v'
          | Throw e => Throw e
          end
      end
  end.

(** [provider.parseResponse(data).trim()]: only a string has [trim]. *)
Definition extract (p : Provider) (data : JValue) : Completion jsstring :=
  match walk (parseResponse p) (Some data) with
  | Normal (Some (JStr s)) => Normal (trim s)
  | Normal _ => Throw (TypeError "trim is not a function")
  | Throw e => Throw e
  end.

(** ** Reconciliation (lines 197-248) *)

Definition number_of_nat (n : nat) : JValue := JNum (inject_Z (Z.of_nat n)).

(** The default score [0.8]. *)
Definition default_score : JValue := JNum (4 # 5).

(** [/^[-*•]/] *)
Definition is_bullet (c : N) : bool := (c =? 45) || (c =? 42) || (c =? 8226).

Definition starts_with_bullet (s : jsstring) : bool :=
  match s with
  | c :: _ => is_bullet c
  | [] => false
  end.

(** [line.replace(/^[-*•]\s/, '')] *)
Definition strip_bullet (line : jsstring) : jsstring :=
  match line with
  | c :: w :: rest => if is_bullet c && isWhiteSpace w then rest else line
  | _ => line
  end.

(** The object literal built by the [map] callback of the fallback
    (lines 207-212). *)
Definition basic_constraint (eng : Engine) (inputText line : jsstring) : M JValue :=
  let! u := fresh eng in
  ret (JObj [(js "id", JStr u);
             (js "text", JStr (trim (strip_bullet line)));
             (js "sourceStart", number_of_nat 0);
             (js "sourceEnd", number_of_nat (length inputText))]).

(** The [catch (parseError)] block (lines 204-219). *)
Definition fallback (eng : Engine) (inputText aiOutput : jsstring) : M JValue :=
  let! basicConstraints :=
    mapM (basic_constraint eng inputText)
         (List.filter (fun line => starts_with_bullet (trim line))
                      (split nl aiOutput)) in
  ret (JObj [(js "constraints", JArr basicConstraints);
             (js "redundantGroups", JArr []);
             (js "contradictions", JArr []);
             (js "originalText", JStr inputText)]).

(** The four fields of [analysisResult] once rebuilt at lines 223-228. *)
Record AnalysisResult := {
  constraints : JValue;
  redundantGroups : JValue;
  contradictions : JValue;
  originalText : JValue
}.

(** "Ensure all required properties exist" (lines 223-228). *)
Definition ensure_properties (inputText : jsstring) (a : JValue)
  : Completion AnalysisResult :=
  match Get a (js "constraints"), Get a (js "redundantGroups"),
        Get a (js "contradictions"), Get a (js "originalText") with
  | Normal c, Normal r, Normal k, Normal o =>
      Normal {| constraints := or_else c (JArr []);
                redundantGroups := or_else r (JArr []);
                contradictions := or_else k (JArr []);
                originalText := or_else o (JStr inputText) |}
  | Throw e, _, _, _ | _, Throw e, _, _ | _, _, Throw e, _ | _, _, _, Throw e =>
      Throw e
  end.

(** The callbacks of the three [map] calls (lines 231-248).  Each spreads the
    element, then defines the listed properties in order. *)
Definition fix_constraint (eng : Engine) (inputText : jsstring) (c : JValue) : M JValue :=
  let! id := lift (Get c (js "id")) in
  let! id' := or_uuid eng id in
  let! sourceStart := lift (Get c (js "sourceStart")) in
  let! sourceEnd := lift (Get c (js "sourceEnd")) in
  ret (JObj (set_member (js "sourceEnd")
               (or_else sourceEnd (number_of_nat (length inputText)))
            (set_member (js "sourceStart") (or_else sourceStart (number_of_nat 0))
            (set_member (js "id") id' (own_props c))))).

Definition fix_scored (eng : Engine) (score : jsstring) (x : JValue) : M JValue :=
  let! id := lift (Get x (js "id")) in
  let! id' := or_uuid eng id in
  let! s := lift (Get x score) in
  ret (JObj (set_member score (or_else s default_score)
            (set_member (js "id") id' (own_props x)))).

Definition fix_group (eng : Engine) : JValue -> M JValue :=
  fix_scored eng (js "similarity").

Definition fix_contradiction (eng : Engine) : JValue -> M JValue :=
  fix_scored eng (js "confidence").

(** [v.map(f)]: only an array has [map]. *)
Definition array_map (f : JValue -> M JValue) (v : JValue) : M JValue :=
  match v with
  | JArr xs => let! ys := mapM f xs in ret (JArr ys)
  | _ => throw (TypeError "map is not a function")
  end.

(** "Add IDs if missing" (lines 231-248). *)
Definition post_process (eng : Engine) (inputText : jsstring) (a : AnalysisResult)
  : M AnalysisResult :=
  let! cs := array_map (fix_constraint eng inputText) (constraints a) in
  let! gs := array_map (fix_group eng) (redundantGroups a) in
  let! ks := array_map (fix_contradiction eng) (contradictions a) in
  ret {| constraints := cs; redundantGroups := gs; contradictions := ks;
         originalText := originalText a |}.

(** Lines 197-220: strict parse, or the fallback. *)
Definition parse_or_fallback (eng : Engine) (inputText aiOutput : jsstring) : M JValue :=
  match JSON_parse eng aiOutput with
  | Some v => ret v
  | None => fallback eng inputText aiOutput
  end.

(** Lines 190-248, from the trimmed answer of the provider to the final
    [analysisResult]. *)
Definition reconcile (eng : Engine) (inputText answer : jsstring) : M AnalysisResult :=
  let! aiOutput := lift (stripCodeFence answer) in
  let! parsed := parse_or_fallback eng inputText aiOutput in
  let! a := lift (ensure_properties inputText parsed) in
  post_process eng inputText a.

(** ** The handler (lines 77-278) *)

Definition basic_headers : list (String.string * String.string) :=
  [("Content-Type", "application/json"); ("Access-Control-Allow-Origin", "*")]%string.

Definition success_headers : list (String.string * String.string) :=
  [("Content-Type", "application/json");
   ("Access-Control-Allow-Origin", "*");
   ("Access-Control-Allow-Headers", "Content-Type");
   ("Access-Control-Allow-Methods", "POST, OPTIONS")]%string.

Definition error_response (code : Z) (message : jsstring) : Response :=
  {| statusCode := code;
     headers := basic_headers;
     payload := JObj [(js "error", JStr message)] |}.

Fixpoint join_comma (xs : list jsstring) : jsstring :=
  match xs with
  | [] => []
  | [x] => x
  | x :: xs' => x ++ js "," ++ join_comma xs'
  end.

(** [ToString] of a JSON value; how a number prints is left to the engine.
    An object is converted by [OrdinaryToPrimitive], which looks up
    [toString] and then [valueOf]: an own member [toString] of the object,
    never callable since it is a JSON value, hides the method of
    [Object.prototype], [valueOf] (own, or the inherited one, which returns
    the object) gives no primitive either, and the conversion throws a
    TypeError.  An array is joined by [Array.prototype.join], which converts
    the elements one by one, [null] to the empty string. *)
Fixpoint to_string (num : Q -> jsstring) (v : JValue) : Completion jsstring :=
  match v with
  | JNull => Normal (js "null")
  | JBool true => Normal (js "true")
  | JBool false => Normal (js "false")
  | JNum q => Normal (num q)
  | JStr s => Normal s
  | JArr xs =>
      match
        (fix elements (xs : list JValue) : Completion (list jsstring) :=
           match xs with
           | [] => Normal []
           | x :: xs' =>
               match (match x with
                      | JNull => Normal []
                      | _ => to_string num x
                      end) with
               | Throw e => Throw e
               | Normal s =>
                   match elements xs' with
                   | Throw e => Throw e
                   | Normal ss => Normal (s :: ss)
                   end
               end
           end) xs
      with
      | Throw e => Throw e
      | Normal ss => Normal (join_comma ss)
      end
  | JObj ms =>
      match lookup_member (js "toString") ms with
      | Some _ => Throw (TypeError "Cannot convert object to primitive value")
      | None => Normal (js "[object Object]")
      end
  end.

(** [ToString] of a possibly undefined value: a property key, the text
    interpolated by a template literal, the message of [new Error(v)]. *)
Definition text_of (eng : Engine) (v : option JValue) : Completion jsstring :=
  match v with
  | None => Normal (js "undefined")
  | Some x => to_string (Number_toString eng) x
  end.

(** [error.message] *)
Definition message_of (eng : Engine) (e : Thrown) : jsstring :=
  match e with
  | FetchRejected m | ApiError m => m
  | _ => engine_text eng e
  end.

(** [JSON.stringify(analysisResult)] serialises this object. *)
Definition to_json (a : AnalysisResult) : JValue :=
  JObj [(js "constraints", constraints a);
        (js "redundantGroups", redundantGroups a);
        (js "contradictions", contradictions a);
        (js "originalText", originalText a)].

(** Lines 176-188: the provider's answer, trimmed. *)
Definition call_provider (eng : Engine) (w : World) (p : Provider) : Completion jsstring :=
  match fetched w with
  | NetworkFailure m => Throw (FetchRejected m)
  | HttpResponse status json =>
      if ((200 <=? status) && (status <=? 299))%nat then
        match json with
        | None => Throw (SyntaxError "response.json")
        | Some data => extract p data
        end
      else
        let errorData := default (JObj []) json in
        match Get errorData (js "error") with
        | Throw e => Throw e
        | Normal err =>
            let message :=
              match err with
              | None | Some JNull => None
              | Some e =>
                  match Get e (js "message") with
                  | Normal m => m
                  | Throw _ => None
                  end
              end in
            if ToBoolean message then
              match text_of eng message with
              | Normal m => Throw (ApiError m)
              | Throw e => Throw e
              end
            else
              Throw (ApiError (js "API request failed with status " ++ decimal status))
        end
  end.

(** Lines 90-188 of the [try] block: either an early response, or the
    request's [inputText] with the trimmed answer of the provider. *)
Definition prepare (eng : Engine) (w : World) (ev : Event)
  : Completion (Response + jsstring * jsstring) :=
  let request :=
    match body ev with
    | None => Normal JNull
    | Some b =>
        match JSON_parse eng b with
        | Some v => Normal v
        | None => Throw (SyntaxError "event.body")
        end
    end in
  match request with
  | Throw e => Throw e
  | Normal request =>
      match Get request (js "providerName"), Get request (js "inputText") with
      | Normal providerName, Normal inputText =>
          match text_of eng providerName with
          | Throw e => Throw e
          | Normal name =>
              match AI_PROVIDERS name with
              | NotFound => Normal (inl (error_response 400 (js "Invalid provider")))
              | provider =>
                  let apiKey :=
                    match provider with
                    | Own p => env w (envKey p)
                    | _ => env w (js "undefined")
                    end in
                  match apiKey with
                  | None | Some [] =>
                      Normal (inl (error_response 500
                                     (name ++ js " API key not configured")))
                  | Some _ =>
                      match inputText, provider with
                      | Some (JStr text), Own p =>
                          match call_provider eng w p with
                          | Normal answer => Normal (inr (text, answer))
                          | Throw e => Throw e
                          end
                      | Some (JStr _), _ =>
                          Throw (TypeError "provider.headers is not a function")
                      | _, _ =>
                          match text_of eng inputText with
                          | Throw e => Throw e
                          | Normal _ =>
                              Throw (TypeError "inputText.replace is not a function")
                          end
                      end
                  end
              end
          end
      | Throw e, _ | _, Throw e => Throw e
      end
  end.

(** The [try] block (lines 90-259). *)
Definition handle_post (eng : Engine) (w : World) (ev : Event) : M Response :=
  let! stage := lift (prepare eng w ev) in
  match stage with
  | inl response => ret response
  | inr (inputText, answer) =>
      let! analysisResult := reconcile eng inputText answer in
      ret {| statusCode := 200;
             headers := success_headers;
             payload := to_json analysisResult |}
  end.

(** The response of the outer [catch] (lines 261-277). *)
Definition failure_response (eng : Engine) (e : Thrown) : Response :=
  {| statusCode := 500;
     headers := basic_headers;
     payload :=
       JObj [(js "error",
              or_else (Some (JStr (message_of eng e))) (JStr (js "Internal server error")));
             (js "constraints", JArr []);
             (js "redundantGroups", JArr []);
             (js "contradictions", JArr []);
             (js "originalText", JStr [])] |}.

Definition handler (eng : Engine) (w : World) (ev : Event) : Response :=
  if decide (httpMethod ev = js "POST") then
    match handle_post eng w ev 0%nat with
    | Normal (response, _) => response
    | Throw e => failure_response eng e
    end
  else error_response 405 (js "Method not allowed").

(** ** A reference [JSON.parse]

    The theorems below hold for any parser.  The examples and
    counterexamples need one that runs: a recursive-descent parser of the
    JSON grammar (RFC 8259).  A repeated key keeps its first place and takes
    its last value, as in JavaScript; the engine's reordering of
    integer-like keys is not modelled. *)
Module RefParser.

Fixpoint skip_ws (s : jsstring) : jsstring :=
  match s with
  | c :: s' =>
      if (c =? 32) || (c =? 9) || (c =? 10) || (c =? 13) then skip_ws s' else s
  | [] => []
  end.

Definition is_digit (c : N) : bool := (48 <=? c) && (c <=? 57).

Definition hex_digit (c : N) : option N :=
  if is_digit c then Some (c - 48)
  else if (97 <=? c) && (c <=? 102) then Some (c - 87)
  else if (65 <=? c) && (c <=? 70) then Some (c - 55)
  else None.

Definition hex4 (a b c d : N) : option N :=
  match hex_digit a, hex_digit b, hex_digit c, hex_digit d with
  | Some x, Some y, Some z, Some w => Some (((x * 16 + y) * 16 + z) * 16 + w)
  | _, _, _, _ => None
  end.

Definition simple_escape (c : N) : option N :=
  if (c =? 34) || (c =? 92) || (c =? 47) then Some c
  else if c =? 98 then Some 8
  else if c =? 102 then Some 12
  else if c =? 110 then Some 10
  else if c =? 114 then Some 13
  else if c =? 116 then Some 9
  else None.

Definition consed {A} (c : N) (r : option (jsstring * A)) : option (jsstring * A) :=
  match r with
  | Some (cs, rest) => Some (c :: cs, rest)
  | None => None
  end.

(** The characters of a string literal, after its opening quote. *)
Fixpoint parse_chars (fuel : nat) (s : jsstring) : option (jsstring * jsstring) :=
  match fuel with
  | O => None
  | S fuel' =>
      match s with
      | [] => None
      | c :: r =>
          if c =? 34 then Some ([], r)
          else if c =? 92 then
            match r with
            | e :: r' =>
                if e =? 117 then
                  match r' with
                  | a :: b :: c' :: d :: r'' =>
                      match hex4 a b c' d with
                      | Some u => consed u (parse_chars fuel' r'')
                      | None => None
                      end
                  | _ => None
                  end
                else
                  match simple_escape e with
                  | Some u => consed u (parse_chars fuel' r')
                  | None => None
                  end
            | [] => None
            end
          else if c <? 32 then None
          else consed c (parse_chars fuel' r)
      end
  end.

Fixpoint take_digits (s : jsstring) : list N * jsstring :=
  match s with
  | c :: r =>
      if is_digit c then
        let (ds, r') := take_digits r in (c - 48 :: ds, r')
      else ([], s)
  | [] => ([], [])
  end.

Definition digits_value (ds : list N) : Z :=
  fold_left (fun a d => a * 10 + Z.of_N d)%Z ds 0%Z.

Definition parse_exponent (s : jsstring) : option (Z * jsstring) :=
  match s with
  | c :: r =>
      if (c =? 101) || (c =? 69) then
        let '(neg, r1) :=
          match r with
          | 45 :: r' => (true, r')
          | 43 :: r' => (false, r')
          | _ => (false, r)
          end in
        match take_digits r1 with
        | ([], _) => None
        | (ds, r2) => Some (if neg then (- digits_value ds)%Z else digits_value ds, r2)
        end
      else Some (0%Z, s)
  | [] => Some (0%Z, [])
  end.

Definition parse_number (s : jsstring) : option (Q * jsstring) :=
  let '(neg, s1) := match s with 45 :: r => (true, r) | _ => (false, s) end in
  match take_digits s1 with
  | ([], _) => None
  | (0 :: _ :: _, _) => None
  | (ip, s2) =>
      let frac :=
        match s2 with
        | 46 :: r =>
            match take_digits r with
            | ([], _) => None
            | (fd, r') => Some (fd, r')
            end
        | _ => Some ([], s2)
        end in
      match frac with
      | None => None
      | Some (fd, s3) =>
          match parse_exponent s3 with
          | None => None
          | Some (e, s4) =>
              let m := digits_value (ip ++ fd) in
              let m := if neg then (- m)%Z else m in
              let e10 := (e - Z.of_nat (length fd))%Z in
              let q := if (0 <=? e10)%Z then inject_Z (m * 10 ^ e10)
                       else Qmake m (Z.to_pos (10 ^ (- e10))) in
              Some (Qred q, s4)
          end
      end
  end.

Definition literal (word : jsstring) (v : JValue) (s : jsstring) : option (JValue * jsstring) :=
  if starts_with word s then Some (v, drop (length word) s) else None.

(** [value (, value)* ]] after the opening bracket of a non-empty array. *)
Fixpoint parse_elements (pv : jsstring -> option (JValue * jsstring))
    (fuel : nat) (s : jsstring) : option (list JValue * jsstring) :=
  match fuel with
  | O => None
  | S fuel' =>
      match pv s with
      | None => None
      | Some (v, r) =>
          match skip_ws r with
          | 44 :: r' =>
              match parse_elements pv fuel' r' with
              | Some (vs, r'') => Some (v :: vs, r'')
              | None => None
              end
          | 93 :: r' => Some ([v], r')
          | _ => None
          end
      end
  end.

(** [string : value (, string : value)* }] after the opening brace. *)
Fixpoint parse_members (pv : jsstring -> option (JValue * jsstring))
    (fuel : nat) (acc : members_t) (s : jsstring) : option (members_t * jsstring) :=
  match fuel with
  | O => None
  | S fuel' =>
      match skip_ws s with
      | 34 :: r =>
          match parse_chars (S (length r)) r with
          | None => None
          | Some (k, r1) =>
              match skip_ws r1 with
              | 58 :: r2 =>
                  match pv r2 with
                  | None => None
                  | Some (v, r3) =>
                      let acc' := set_member k v acc in
                      match skip_ws r3 with
                      | 44 :: r4 => parse_members pv fuel' acc' r4
                      | 125 :: r4 => Some (acc', r4)
                      | _ => None
                      end
                  end
              | _ => None
              end
          end
      | _ => None
      end
  end.

Fixpoint parse_value (fuel : nat) (s : jsstring) : option (JValue * jsstring) :=
  match fuel with
  | O => None
  | S fuel' =>
      match skip_ws s with
      | [] => None
      | c :: r =>
          if c =? 123 then
            match skip_ws r with
            | 125 :: r' => Some (JObj [], r')
            | _ =>
                match parse_members (parse_value fuel') (length r) [] r with
                | Some (ms, r') => Some (JObj ms, r')
                | None => None
                end
            end
          else if c =? 91 then
            match skip_ws r with
            | 93 :: r' => Some (JArr [], r')
            | _ =>
                match parse_elements (parse_value fuel') (length r) r with
                | Some (vs, r') => Some (JArr vs, r')
                | None => None
                end
            end
          else if c =? 34 then
            match parse_chars (S (length r)) r with
            | Some (str, r') => Some (JStr str, r')
            | None => None
            end
          else if c =? 116 then literal (js "true") (JBool true) (c :: r)
          else if c =? 102 then literal (js "false") (JBool false) (c :: r)
          else if c =? 110 then literal (js "null") JNull (c :: r)
          else
            match parse_number (c :: r) with
            | Some (q, r') => Some (JNum q, r')
            | None => None
            end
      end
  end.

Definition parse (s : jsstring) : option JValue :=
  match parse_value (S (length s)) s with
  | Some (v, r) => match skip_ws r with [] => Some v | _ => None end
  | None => None
  end.

End RefParser.

(** The engine of the examples: the reference parser, the uuids ["uuid-0"],
    ["uuid-1"], ...; integers print in decimal (no example prints another
    number) and every engine error reads ["TypeError"]. *)
Definition sample_engine : Engine :=
  {| JSON_parse := RefParser.parse;
     uuidv4 := fun n => js "uuid-" ++ decimal n;
     Number_toString := fun q =>
       (if (Qnum q <? 0)%Z then js "-" else []) ++ decimal (Z.abs_nat (Qnum q));
     engine_text := fun _ => js "TypeError" |}.

(** A double quote, for the JSON texts of the examples. *)
Definition dq : jsstring := [34].

(** ["k"] *)
Definition qt (s : String.string) : jsstring := dq ++ js s ++ dq.

(** The code units of a literal in which an apostrophe stands for a double
    quote: [jq "{'a': 1}"] is the JSON text of an object with member [a]. *)
Definition jq (s : String.string) : jsstring :=
  map (fun c => if c =? 39 then 34 else c) (js s).

(** ** Vocabulary of the properties *)

(** Member [k] of [v], when [v] is an object that has one. *)
Definition field (v : JValue) (k : jsstring) : option JValue :=
  match v with
  | JObj ms => lookup_member k ms
  | _ => None
  end.

(** A member the answer does not give: absent, or [null]. *)
Definition missing (v : option JValue) : Prop := v = None \/ v = Some JNull.

(** The members of an object other than those named in [touched], in order. *)
Definition kept (touched : list jsstring) (ms : members_t) : members_t :=
  List.filter (fun kv => negb (bool_decide (kv.1 ∈ touched))) ms.

(** [y] is an object whose members other than [touched] are those of [x]
    (the own properties of [x], when [x] is no object), unchanged and in the
    same order. *)
Definition passes_through (touched : list jsstring) (x y : JValue) : Prop :=
  exists ms, y = JObj ms /\ kept touched ms = kept touched (own_props x).

(** A number of the interval [[0,1]]. *)
Definition in_unit_interval (v : option JValue) : bool :=
  match v with
  | Some (JNum q) => Qle_bool 0 q && Qle_bool q 1
  | _ => false
  end.

(** The declared shape of an [AnalysisResult]: exactly the four fields, three
    sequences and a string. *)
Definition declared_shape (v : JValue) : bool :=
  match v with
  | JObj [(k1, JArr _); (k2, JArr _); (k3, JArr _); (k4, JStr _)] =>
      bool_decide (k1 = js "constraints") && bool_decide (k2 = js "redundantGroups")
      && bool_decide (k3 = js "contradictions") && bool_decide (k4 = js "originalText")
  | _ => false
  end.

Definition has_header (r : Response) (name value : String.string) : bool :=
  existsb (fun h => String.eqb h.1 name && String.eqb h.2 value) (headers r).

(** The three permissive cross-origin headers. *)
Definition carries_cors_headers (r : Response) : bool :=
  has_header r "Access-Control-Allow-Origin" "*"
  && has_header r "Access-Control-Allow-Headers" "Content-Type"
  && has_header r "Access-Control-Allow-Methods" "POST, OPTIONS".

(** A span [sourceStart <= sourceEnd] of two numbers. *)
Definition ordered_span (v : JValue) : bool :=
  match field v (js "sourceStart"), field v (js "sourceEnd") with
  | Some (JNum a), Some (JNum b) => Qle_bool a b
  | _, _ => false
  end.

Definition nonzero (q : Q) : Prop := ~ (q == 0)%Q.

(** How post-processing treats the score [k] of an element [x], by design:
    0.8 when the answer gives none, the answer's number when it is not 0. *)
Definition score_rule (k : jsstring) (x y : JValue) : Prop :=
  (missing (field x k) -> field y k = Some default_score) /\
  (forall q, field x k = Some (JNum q) -> nonzero q -> field y k = Some (JNum q)).

(** A score that is missing, or a number of [[0,1]] other than 0. *)
Definition score_missing_or_in_range (k : jsstring) (x : JValue) : Prop :=
  missing (field x k) \/
  exists q, field x k = Some (JNum q) /\ nonzero q /\ in_unit_interval (Some (JNum q)) = true.

(** How post-processing treats the offsets of a constraint [x], by design:
    0 and the length of the input text when the answer gives none, the
    answer's numbers when they are not 0. *)
Definition span_rule (inputText : jsstring) (x y : JValue) : Prop :=
  (missing (field x (js "sourceStart")) ->
   field y (js "sourceStart") = Some (number_of_nat 0)) /\
  (missing (field x (js "sourceEnd")) ->
   field y (js "sourceEnd") = Some (number_of_nat (length inputText))) /\
  (forall q, field x (js "sourceStart") = Some (JNum q) -> nonzero q ->
             field y (js "sourceStart") = Some (JNum q)) /\
  (forall q, field x (js "sourceEnd") = Some (JNum q) -> nonzero q ->
             field y (js "sourceEnd") = Some (JNum q)).

(** What [span_rule] makes of the invariant [sourceStart <= sourceEnd]: it
    holds for a constraint without offsets, and for one with two non-zero
    offsets exactly when the answer's offsets are ordered. *)
Definition span_order_rule (x y : JValue) : Prop :=
  (missing (field x (js "sourceStart")) -> missing (field x (js "sourceEnd")) ->
   ordered_span y = true) /\
  (forall a b, field x (js "sourceStart") = Some (JNum a) ->
               field x (js "sourceEnd") = Some (JNum b) ->
               nonzero a -> nonzero b -> ordered_span y = Qle_bool a b).

(** A constraint as the fallback builds it from [line]. *)
Definition basic_shape (eng : Engine) (inputText line : jsstring) (c : JValue) : Prop :=
  exists u, c = JObj [(js "id", JStr u);
                      (js "text", JStr (trim (strip_bullet line)));
                      (js "sourceStart", number_of_nat 0);
                      (js "sourceEnd", number_of_nat (length inputText))].

(** Member [k] of the [i]-th element of the collection [coll] of a value,
    and of a response body. *)
Definition element_field_of (v : JValue) (coll : jsstring) (i : nat) (k : jsstring)
  : option JValue :=
  match field v coll with
  | Some (JArr xs) =>
      match xs !! i with
      | Some x => field x k
      | None => None
      end
  | _ => None
  end.

Definition element_field (r : Response) : jsstring -> nat -> jsstring -> option JValue :=
  element_field_of (payload r).

(** An element all of whose post-processed members are given and truthy (an
    offset may also be the very default), so that post-processing has
    nothing to fill in. *)
Definition truthy_field (x : JValue) (k : jsstring) : Prop :=
  exists y, field x k = Some y /\ ToBoolean (Some y) = true.

Definition settled_constraint (inputText : jsstring) (c : JValue) : Prop :=
  (exists ms, c = JObj ms) /\
  truthy_field c (js "id") /\
  (truthy_field c (js "sourceStart") \/
   field c (js "sourceStart") = Some (number_of_nat 0)) /\
  (truthy_field c (js "sourceEnd") \/
   field c (js "sourceEnd") = Some (number_of_nat (length inputText))).

Definition settled_scored (score : jsstring) (x : JValue) : Prop :=
  (exists ms, x = JObj ms) /\ truthy_field x (js "id") /\ truthy_field x score.

(** The lines the fallback turns into constraints. *)
Definition bullet_lines (aiOutput : jsstring) : list jsstring :=
  List.filter (fun line => starts_with_bullet (trim line)) (split nl aiOutput).

(** A collection of the answer that post-processing gets through: absent or
    falsy, or a sequence none of whose elements is [null]. *)
Definition mappable (v : option JValue) : bool :=
  match v with
  | Some (JArr xs) => forallb (fun x => match x with JNull => false | _ => true end) xs
  | _ => negb (ToBoolean v)
  end.

(** A parsed answer that reconciliation gets through: not [null], and with
    its three collections mappable. *)
Definition processable (v : JValue) : bool :=
  match v with
  | JNull => false
  | _ =>
      mappable (field v (js "constraints"))
      && mappable (field v (js "redundantGroups"))
      && mappable (field v (js "contradictions"))
  end.

(** [y] is an object, and when [x] is an object with the members [ms], the
    members of [y] other than [touched] are those of [ms] other than
    [touched], with the same values and in the same order. *)
Definition rest_unchanged (touched : list jsstring) (x y : JValue) : Prop :=
  exists ms', y = JObj ms' /\
    forall ms, x = JObj ms -> kept touched ms' = kept touched ms.

(** Member [k] of [y] is what the object [x] has there, if anything. *)
Definition member_copied (k : jsstring) (x y : JValue) : Prop :=
  forall ms, x = JObj ms -> field y k = lookup_member k ms.

(** How post-processing settles the [id] of an element [x], the calls of
    [uuidv4] made for the collection being those from [n] to [n' - 1]. *)
Definition id_rule (eng : Engine) (n n' : nat) (x y : JValue) : Prop :=
  (forall i, field x (js "id") = Some i -> ToBoolean (Some i) = true ->
             field y (js "id") = Some i) /\
  (ToBoolean (field x (js "id")) = false ->
   exists k, (n <= k < n')%nat /\ field y (js "id") = Some (JStr (uuidv4 eng k))).

(** ** Worlds of the examples *)

(** A POST request for the provider Cohere with the given input text. *)
Definition post_cohere (inputText : String.string) : Event :=
  {| httpMethod := js "POST";
     body := Some (jq "{'providerName': 'Cohere', 'inputText': '"
                   ++ js inputText ++ jq "'}") |}.

(** A world where the credential of every provider is configured and the
    provider answers 200 with [{text: answer}], the envelope of Cohere. *)
Definition answering (answer : jsstring) : World :=
  {| env := fun _ => Some (js "secret");
     fetched := HttpResponse 200 (Some (JObj [(js "text", JStr answer)])) |}.

(** An answer that matches the schema, with members outside it
    ([category], [note]) and with an element of each kind of collection
    lacking its identifier, its offsets or its score. *)
Definition sample_text : jsstring := js "Books must have a title".

Definition sample_answer : jsstring :=
  jq "{'constraints': [{'id': 'c1', 'text': 'must have a title', 'sourceStart': 6, 'sourceEnd': 23, 'category': 'format'}, {'text': 'no offsets'}], 'redundantGroups': [{'id': 'g1', 'constraints': [], 'similarity': 0.5, 'note': 'n'}, {'constraints': []}], 'contradictions': [{'id': 'k1', 'explanation': 'e', 'confidence': 1}], 'originalText': 'Books must have a title'}".

Definition sample_candidate : JValue :=
  Eval vm_compute in
    match RefParser.parse sample_answer with
    | Some v => v
    | None => JNull
    end.

Definition sample_result : AnalysisResult :=
  Eval vm_compute in
    match reconcile sample_engine sample_text sample_answer 0%nat with
    | Normal (a, _) => a
    | Throw _ =>
        {| constraints := JNull; redundantGroups := JNull;
           contradictions := JNull; originalText := JNull |}
    end.

(** A schema-conforming answer whose one contradiction has confidence 0. *)
Definition zero_confidence_answer : jsstring :=
  jq "{'constraints': [{'id': 'c1', 'text': 'a', 'sourceStart': 0, 'sourceEnd': 1}, {'id': 'c2', 'text': 'b', 'sourceStart': 1, 'sourceEnd': 2}], 'redundantGroups': [], 'contradictions': [{'id': 'k1', 'constraint1': {'id': 'c1', 'text': 'a', 'sourceStart': 0, 'sourceEnd': 1}, 'constraint2': {'id': 'c2', 'text': 'b', 'sourceStart': 1, 'sourceEnd': 2}, 'explanation': 'e', 'confidence': 0}], 'originalText': 'ab'}".

(** An unparsable answer of two bullet lines, the second without a space
    after its marker. *)
Definition bullets_answer : jsstring := js "- first" ++ nl ++ js "-second".

(** ** Further vocabulary: the request on its way to the provider *)

(** The request passes the method check, its body parses to a value with a
    known provider whose credential is configured, and its [inputText] is a
    string: the handler goes on to call the provider [p]. *)
Definition reaches_provider (eng : Engine) (w : World) (ev : Event)
    (name : jsstring) (p : Provider) (text : jsstring) : Prop :=
  httpMethod ev = js "POST" /\
  exists b request key,
    body ev = Some b /\ JSON_parse eng b = Some request /\ request <> JNull /\
    text_of eng (field request (js "providerName")) = Normal name /\
    AI_PROVIDERS name = Own p /\
    env w (envKey p) = Some key /\ key <> [] /\
    field request (js "inputText") = Some (JStr text).

(** The top-level member of the provider's response that [parseResponse]
    reads first ([choices], [content], [candidates] or [text]). *)
Definition envelope_member (p : Provider) : option jsstring :=
  match parseResponse p with
  | Field k :: _ => Some k
  | _ => None
  end.

(** An element whose [id] post-processing replaces by a generated one. *)
Definition needs_id (x : JValue) : bool := negb (ToBoolean (field x (js "id"))).

(** The [id]s of the post-processed elements [ys] at the places where the
    element of [xs] needed one, in order. *)
Fixpoint generated (xs ys : list JValue) : list (option JValue) :=
  match xs, ys with
  | x :: xs', y :: ys' =>
      (if needs_id x then [field y (js "id")] else []) ++ generated xs' ys'
  | _, _ => []
  end.

(** The constraint that the fallback builds from the bullet line [line],
    [uuidv4] being at its [i]-th call. *)
Definition generated_constraint (eng : Engine) (inputText : jsstring) (i : nat)
    (line : jsstring) : JValue :=
  JObj [(js "id", JStr (uuidv4 eng i));
        (js "text", JStr (trim (strip_bullet line)));
        (js "sourceStart", number_of_nat 0);
        (js "sourceEnd", number_of_nat (length inputText))].

(** One element costs one call of [uuidv4] when it needs an [id], and none
    otherwise. *)
Definition id_step (eng : Engine) (f : JValue -> M JValue) : Prop :=
  forall x n y n', f x n = Normal (y, n') ->
    (needs_id x = true /\ n' = S n /\ field y (js "id") = Some (JStr (uuidv4 eng n))) \/
    (needs_id x = false /\ n' = n).

(** ** The simple mode: the handler of bullet extraction

    The second handler of the repository asks the provider for a bulleted
    list and returns [{constraints: [{text}]}].  Its provider table has the
    keys, credentials and extraction paths of [AI_PROVIDERS], and its call of
    the provider is that of [call_provider]. *)

(** [/^[-*•]\s/] as a test. *)
Definition starts_with_bullet_space (s : jsstring) : bool :=
  match s with
  | c :: w :: _ => is_bullet c && isWhiteSpace w
  | _ => false
  end.

(** [output.split('\n').filter(line => line.trim().match(/^[-*•]\s/))] *)
Definition simple_lines (output : jsstring) : list jsstring :=
  List.filter (fun line => starts_with_bullet_space (trim line)) (split nl output).

(** [lines.map(line => ({ text: line.replace(/^[-*•]\s/, '').trim() }))] *)
Definition simple_constraints (output : jsstring) : list JValue :=
  map (fun line => JObj [(js "text", JStr (trim (strip_bullet line)))])
      (simple_lines output).

(** The rejections of the simple handler: a body, and no [headers]. *)
Definition plain_response (code : Z) (message : jsstring) : Response :=
  {| statusCode := code; headers := []; payload := JObj [(js "error", JStr message)] |}.

(** The [try] block of the simple handler.  [inputText] is only interpolated
    in the prompt, so any value of it that converts to a string goes
    through. *)
Definition simple_try (eng : Engine) (w : World) (ev : Event) : Completion Response :=
  let request :=
    match body ev with
    | None => Normal JNull
    | Some b =>
        match JSON_parse eng b with
        | Some v => Normal v
        | None => Throw (SyntaxError "event.body")
        end
    end in
  match request with
  | Throw e => Throw e
  | Normal request =>
      match Get request (js "providerName"), Get request (js "inputText") with
      | Normal providerName, Normal inputText =>
          match text_of eng providerName with
          | Throw e => Throw e
          | Normal name =>
              match AI_PROVIDERS name with
              | NotFound => Normal (plain_response 400 (js "Invalid provider"))
              | provider =>
                  let apiKey :=
                    match provider with
                    | Own p => env w (envKey p)
                    | _ => env w (js "undefined")
                    end in
                  match apiKey with
                  | None | Some [] =>
                      Normal (plain_response 500 (name ++ js " API key not configured"))
                  | Some _ =>
                      match text_of eng inputText with
                      | Throw e => Throw e
                      | Normal _ =>
                          match provider with
                          | Own p =>
                              match call_provider eng w p with
                              | Normal output =>
                                  Normal {| statusCode := 200;
                                            headers := success_headers;
                                            payload :=
                                              JObj [(js "constraints",
                                                     JArr (simple_constraints output))] |}
                              | Throw e => Throw e
                              end
                          | _ => Throw (TypeError "provider.headers is not a function")
                          end
                      end
                  end
              end
          end
      | Throw e, _ | _, Throw e => Throw e
      end
  end.

Definition simple_handler (eng : Engine) (w : World) (ev : Event) : Response :=
  if decide (httpMethod ev = js "POST") then
    match simple_try eng w ev with
    | Normal response => response
    | Throw e =>
        {| statusCode := 500;
           headers := basic_headers;
           payload := JObj [(js "error", JStr (message_of eng e))] |}
    end
  else plain_response 405 (js "Method not allowed").

(** A text made of whitespace only. *)
Definition all_ws (s : jsstring) : bool := forallb isWhiteSpace s.

(** The members named [text] of an element. *)
Definition text_only (c : JValue) : JValue :=
  JObj (List.filter (fun kv => bool_decide (kv.1 = js "text")) (own_props c)).

(** ** The request sent to the provider (lines 4-75 and 116-180)

    The descriptors of the table carry, besides [envKey] and
    [parseResponse], what shapes the outgoing request: [endpoint], [model],
    [headers] and [body]. *)

(** An element of [messages]. *)
Record Message := {
  role : jsstring;
  content : jsstring
}.

Definition message_json (m : Message) : JValue :=
  JObj [(js "role", JStr (role m)); (js "content", JStr (content m))].

(** [xs.join(sep)] *)
Fixpoint join (sep : jsstring) (xs : list jsstring) : jsstring :=
  match xs with
  | [] => []
  | [x] => x
  | x :: xs' => x ++ sep ++ join sep xs'
  end.

(** The text of a template literal given line by line, an apostrophe
    standing for a double quote. *)
Definition text_lines (ls : list String.string) : jsstring := join nl (map jq ls).

(** [messages.find(m => m.role === 'system')?.content || ''] *)
Definition system_of (messages : list Message) : jsstring :=
  match List.find (fun m => bool_decide (role m = js "system")) messages with
  | Some m => content m
  | None => []
  end.

Module Outbound.

Record Descriptor := {
  endpoint : jsstring;
  model : jsstring;
  headers : jsstring -> list (String.string * jsstring);
  body : jsstring -> list Message -> Completion JValue
}.

Definition content_type : String.string * jsstring :=
  ("Content-Type"%string, js "application/json").

(** [{ 'Content-Type': ..., 'Authorization': `Bearer ${apiKey}` }] *)
Definition bearer (apiKey : jsstring) : list (String.string * jsstring) :=
  [content_type; ("Authorization"%string, js "Bearer " ++ apiKey)].

(** [(model, messages) => ({ model, messages })] *)
Definition chat (model : jsstring) (messages : list Message) : Completion JValue :=
  Normal (JObj [(js "model", JStr model);
                (js "messages", JArr (map message_json messages))]).

Definition xAI : Descriptor :=
  {| endpoint := js "https://api.x.ai/v1/chat/completions";
     model := js "grok-3";
     headers := bearer;
     body := chat |}.

Definition OpenAI : Descriptor :=
  {| endpoint := js "https://api.openai.com/v1/chat/completions";
     model := js "gpt-4o-mini";
     headers := bearer;
     body := chat |}.

Definition Anthropic : Descriptor :=
  {| endpoint := js "https://api.anthropic.com/v1/messages";
     model := js "claude-3-haiku-20240307";
     headers := fun apiKey =>
       [content_type; ("x-api-key"%string, apiKey);
        ("anthropic-version"%string, js "2023-06-01")];
     body := fun model messages =>
       Normal (JObj [(js "model", JStr model);
                     (js "max_tokens", number_of_nat 2000);
                     (js "messages",
                      JArr (map message_json
                              (List.filter
                                 (fun m => negb (bool_decide (role m = js "system")))
                                 messages)));
                     (js "system", JStr (system_of messages))]) |}.

Definition Gemini : Descriptor :=
  {| endpoint :=
       js "https://generativelanguage.googleapis.com/v1beta/models/gemini-1.5-flash:generateContent";
     model := js "gemini-1.5-flash";
     headers := fun _ => [content_type];
     body := fun _ messages =>
       Normal (JObj [(js "contents",
                      JArr [JObj [(js "parts",
                                   JArr [JObj [(js "text",
                                                JStr (join (nl ++ nl)
                                                        (map (fun m => role m ++ js ": " ++ content m)
                                                             messages)))]])]])]) |}.

(** [messages[messages.length - 1].content]: of an empty array the element
    is [undefined], and reading its [content] throws. *)
Definition Cohere : Descriptor :=
  {| endpoint := js "https://api.cohere.ai/v1/chat";
     model := js "command-r-plus";
     headers := bearer;
     body := fun model messages =>
       match list.last messages with
       | None => Throw (TypeError "content of undefined")
       | Some m =>
           Normal (JObj [(js "model", JStr model);
                         (js "message", JStr (content m));
                         (js "preamble", JStr (system_of messages))])
       end |}.

(** The request side of the own keys of the table. *)
Definition AI_PROVIDERS (name : jsstring) : option Descriptor :=
  if decide (name = js "xAI (Grok)") then Some xAI
  else if decide (name = js "OpenAI") then Some OpenAI
  else if decide (name = js "Anthropic (Claude)") then Some Anthropic
  else if decide (name = js "Google (Gemini)") then Some Gemini
  else if decide (name = js "Cohere") then Some Cohere
  else None.

End Outbound.

(** Lines 117-119, up to the interpolated text. *)
Definition prompt_head : jsstring :=
  text_lines
    ["Analyze the following text and provide a comprehensive constraint analysis.";
     "";
     "Text: '"]%string.

(** Lines 119-147, between the two interpolations. *)
Definition prompt_schema : jsstring :=
  text_lines
    ["'";
     "";
     "Please return ONLY a valid JSON response with this exact structure:";
     "{";
     "  'constraints': [";
     "    {";
     "      'id': 'unique-id',";
     "      'text': 'constraint text',";
     "      'sourceStart': 0,";
     "      'sourceEnd': 10";
     "    }";
     "  ],";
     "  'redundantGroups': [";
     "    {";
     "      'id': 'group-id',";
     "      'constraints': [constraint objects from above],";
     "      'similarity': 0.85";
     "    }";
     "  ],";
     "  'contradictions': [";
     "    {";
     "      'id': 'contradiction-id',";
     "      'constraint1': constraint object,";
     "      'constraint2': constraint object,";
     "      'explanation': 'why they contradict',";
     "      'confidence': 0.9";
     "    }";
     "  ],";
     "  'originalText': '"]%string.

(** Lines 147-158. *)
Definition prompt_rules : jsstring :=
  text_lines
    ["'";
     "}";
     "";
     "Rules:";
     "1. Extract all constraints/requirements/rules from the text";
     "2. Identify groups of constraints that say essentially the same thing (redundant)";
     "3. Find constraints that directly contradict each other";
     "4. Provide source positions (character indices) for highlighting in original text";
     "5. Include confidence scores for contradictions (0-1)";
     "6. Include similarity scores for redundant groups (0-1)";
     "7. Generate unique IDs for all objects";
     "8. Return ONLY valid JSON, no additional text or formatting"]%string.

(** [inputText.replace(/"/g, '\\"')]: a backslash before every double
    quote. *)
Definition escape_quotes (s : jsstring) : jsstring :=
  flat_map (fun c => if c =? 34 then [92; 34] else [c]) s.

(** Lines 117-158. *)
Definition enhancedPrompt (inputText : jsstring) : jsstring :=
  prompt_head ++ inputText ++ prompt_schema ++ escape_quotes inputText ++ prompt_rules.

Definition system_instruction : jsstring :=
  js "You are a helpful assistant that analyzes text for constraints, redundancies, and contradictions. Always respond with valid JSON only.".

(** Lines 160-169. *)
Definition messages (inputText : jsstring) : list Message :=
  [{| role := js "system"; content := system_instruction |};
   {| role := js "user"; content := enhancedPrompt inputText |}].

(** The arguments of [fetch] ([method] is always POST); [request_body] is
    the value given to [JSON.stringify]. *)
Record Request := {
  url : jsstring;
  request_headers : list (String.string * jsstring);
  request_body : JValue
}.

(** [v === s] for a string literal [s]. *)
Definition strict_equal (v : option JValue) (s : jsstring) : bool :=
  match v with
  | Some (JStr t) => bool_decide (t = s)
  | _ => false
  end.

(** Lines 171-180. *)
Definition build_request (providerName : option JValue) (provider : Outbound.Descriptor)
    (apiKey inputText : jsstring) : Completion Request :=
  let url :=
    if strict_equal providerName (js "Google (Gemini)")
    then Outbound.endpoint provider ++ js "?key=" ++ apiKey
    else Outbound.endpoint provider in
  match Outbound.body provider (Outbound.model provider) (messages inputText) with
  | Normal b =>
      Normal {| url := url;
                request_headers := Outbound.headers provider apiKey;
                request_body := b |}
  | Throw e => Throw e
  end.

(** The request given to [fetch], for an event that takes the handler as far
    as line 176. *)
Definition outgoing (eng : Engine) (w : World) (ev : Event) : option Request :=
  if decide (httpMethod ev = js "POST") then
    match body ev with
    | None => None
    | Some b =>
        match JSON_parse eng b with
        | None => None
        | Some request =>
            match Get request (js "providerName"), Get request (js "inputText") with
            | Normal providerName, Normal (Some (JStr inputText)) =>
                match text_of eng providerName with
                | Throw _ => None
                | Normal name =>
                    match AI_PROVIDERS name, Outbound.AI_PROVIDERS name with
                    | Own p, Some provider =>
                        match env w (envKey p) with
                        | Some (c :: key) =>
                            match build_request providerName provider (c :: key)
                                    inputText with
                            | Normal r => Some r
                            | Throw _ => None
                            end
                        | _ => None
                        end
                    | _, _ => None
                    end
                end
            | _, _ => None
            end
        end
    end
  else None.

(** The strings held anywhere in a value. *)
Fixpoint strings_of (v : JValue) : list jsstring :=
  match v with
  | JStr s => [s]
  | JArr xs => flat_map strings_of xs
  | JObj ms =>
      (fix members (ms : members_t) : list jsstring :=
         match ms with
         | [] => []
         | (_, x) :: ms' => strings_of x ++ members ms'
         end) ms
  | _ => []
  end.

(** Some string of the value contains [t]. *)
Definition mentions (t : jsstring) (v : JValue) : bool :=
  existsb (includes t) (strings_of v).

(** The credential as the query of the URL, and as the value of a header. *)
Definition key_in_url (key : jsstring) (r : Request) : Prop :=
  exists e, url r = e ++ js "?key=" ++ key.

Definition key_in_header (key : jsstring) (r : Request) : Prop :=
  In ("Authorization"%string, js "Bearer " ++ key) (request_headers r) \/
  In ("x-api-key"%string, key) (request_headers r).

(** A request whose [providerName] is the value [v]. *)
Definition named (eng : Engine) (ev : Event) (v : JValue) : Prop :=
  exists b request,
    body ev = Some b /\ JSON_parse eng b = Some request /\
    field request (js "providerName") = Some v.

(** ** The page (app/page.tsx)

    The page reads the body of the handler's response through the
    interfaces of lines 8-34; [getHighlightedText] is modelled on a result of
    those types.  Offsets are numbers of a JSON text, so exact rationals. *)

Module Page.

Module Constraint.
Record t := {
  id : jsstring;
  text : jsstring;
  sourceStart : Q;
  sourceEnd : Q
}.
End Constraint.

Module RedundantGroup.
Record t := {
  id : jsstring;
  constraints : list Constraint.t;
  similarity : Q
}.
End RedundantGroup.

Module Contradiction.
Record t := {
  id : jsstring;
  constraint1 : Constraint.t;
  constraint2 : Constraint.t;
  explanation : jsstring;
  confidence : Q
}.
End Contradiction.

Module AnalysisResult.
Record t := {
  constraints : list Constraint.t;
  redundantGroups : list RedundantGroup.t;
  contradictions : list Contradiction.t;
  originalText : jsstring
}.
End AnalysisResult.

(** The provider names of the dropdown (lines 36-42). *)
Definition AI_PROVIDERS : list jsstring :=
  map js ["xAI (Grok)"; "OpenAI"; "Anthropic (Claude)"; "Google (Gemini)"; "Cohere"]%string.

(** ['constraint' | 'redundant'] *)
Inductive HighlightType :=
| constraint
| redundant.

Module Highlight.
Record t := {
  start : Q;
  end' : Q;
  type : HighlightType;
  id : jsstring
}.
End Highlight.

(** Lines 98-105. *)
Definition constraint_highlights (constraints : list Constraint.t) : list Highlight.t :=
  map (fun c => {| Highlight.start := Constraint.sourceStart c;
                   Highlight.end' := Constraint.sourceEnd c;
                   Highlight.type := constraint;
                   Highlight.id := Constraint.id c |}) constraints.

(** Lines 110-113: [findIndex] gives the first highlight of that [id], whose
    [type] is then overwritten. *)
Fixpoint mark_redundant (i : jsstring) (highlights : list Highlight.t) : list Highlight.t :=
  match highlights with
  | [] => []
  | h :: rest =>
      if decide (Highlight.id h = i)
      then {| Highlight.start := Highlight.start h;
              Highlight.end' := Highlight.end' h;
              Highlight.type := redundant;
              Highlight.id := Highlight.id h |} :: rest
      else h :: mark_redundant i rest
  end.

(** Lines 108-115. *)
Definition mark_group (highlights : list Highlight.t) (group : RedundantGroup.t)
  : list Highlight.t :=
  fold_left (fun hs c => mark_redundant (Constraint.id c) hs)
            (RedundantGroup.constraints group) highlights.

(** The array [highlights] as it stands before line 118. *)
Definition highlights (r : AnalysisResult.t) : list Highlight.t :=
  fold_left mark_group (AnalysisResult.redundantGroups r)
            (constraint_highlights (AnalysisResult.constraints r)).

(** [highlights.sort((a, b) => b.start - a.start)]: the comparator orders by
    [start], greatest first, and the sort is stable; inserting the elements
    from the last to the first, each before the elements that do not exceed
    it, yields that arrangement. *)
Fixpoint insert (h : Highlight.t) (sorted : list Highlight.t) : list Highlight.t :=
  match sorted with
  | [] => [h]
  | x :: rest =>
      match (Highlight.start h ?= Highlight.start x)%Q with
      | Lt => x :: insert h rest
      | _ => h :: x :: rest
      end
  end.

Definition sort (hs : list Highlight.t) : list Highlight.t := foldr insert [] hs.

(** [ToIntegerOrInfinity] of a finite number: its fraction is dropped. *)
Definition ToIntegerOrInfinity (q : Q) : Z := Qnum q ÷ Zpos (Qden q).

(** An argument of [substring]: truncated to an integer, then clamped to
    the range from 0 to the length. *)
Definition clamp (s : jsstring) (q : Q) : nat :=
  Nat.min (Z.to_nat (ToIntegerOrInfinity q)) (length s).

(** [s.substring(a, b)]: the arguments are swapped when out of order. *)
Definition substring (s : jsstring) (a b : Q) : jsstring :=
  let i := clamp s a in
  let j := clamp s b in
  take (Nat.max i j - Nat.min i j) (drop (Nat.min i j) s).

(** [s.substring(a)] *)
Definition substring_from (s : jsstring) (a : Q) : jsstring := drop (clamp s a) s.

Definition className (t : HighlightType) : jsstring :=
  match t with
  | redundant => js "bg-yellow-400/30 border-b-2 border-yellow-400"
  | constraint => js "bg-green-400/30 border-b-2 border-green-400"
  end.

Definition title (t : HighlightType) : jsstring :=
  match t with
  | redundant => js "Redundant constraint"
  | constraint => js "Extracted constraint"
  end.

Definition span_open (t : HighlightType) : jsstring :=
  js "<span class=" ++ dq ++ className t ++ dq ++ js " title=" ++ dq ++ title t ++ dq
  ++ js ">".

Definition span_close : jsstring := js "</span>".

(** Lines 121-131: one round of the loop. *)
Definition apply_highlight (highlightedText : jsstring) (highlight : Highlight.t) : jsstring :=
  let before := substring highlightedText 0 (Highlight.start highlight) in
  let text :=
    substring highlightedText (Highlight.start highlight) (Highlight.end' highlight) in
  let after := substring_from highlightedText (Highlight.end' highlight) in
  before ++ span_open (Highlight.type highlight) ++ text ++ span_close ++ after.

(** Lines 91-134; [None] is the [null] state of [analysisResult]. *)
Definition getHighlightedText (inputText : jsstring) (analysisResult : option AnalysisResult.t)
  : jsstring :=
  match analysisResult with
  | None => inputText
  | Some r => fold_left apply_highlight (sort (highlights r)) (AnalysisResult.originalText r)
  end.

(** What [handleSubmit] leaves in the state of the component: the data shown
    ([JNull]: none) and the error shown. *)
Record State := {
  analysisResult : JValue;
  error : option jsstring
}.

(** Lines 53-89, [reply] being the outcome of the [fetch] of line 66. *)
Definition handleSubmit (eng : Engine) (inputText : jsstring) (reply : FetchOutcome)
    (st : State) : State :=
  match trim inputText with
  | [] => st
  | _ =>
      let outcome : Completion JValue :=
        match reply with
        | NetworkFailure m => Throw (FetchRejected m)
        | HttpResponse _ None => Throw (SyntaxError "response.json")
        | HttpResponse status (Some data) =>
            if ((200 <=? status) && (status <=? 299))%nat then Normal data
            else
              match Get data (js "error") with
              | Throw e => Throw e
              | Normal v =>
                  match to_string (Number_toString eng)
                          (or_else v (JStr (js "Request failed with status "
                                            ++ decimal status))) with
                  | Normal m => Throw (ApiError m)
                  | Throw e => Throw e
                  end
              end
        end in
      match outcome with
      | Normal data => {| analysisResult := data; error := None |}
      | Throw e => {| analysisResult := JNull; error := Some (message_of eng e) |}
      end
  end.

(** The body of the request of line 71, before [JSON.stringify]. *)
Definition request (selectedProvider inputText : jsstring) : JValue :=
  JObj [(js "providerName", JStr selectedProvider); (js "inputText", JStr inputText)].

(** The outcome of [fetch] when the function answers with [r]: the platform
    passes on the status and the serialised body, which [response.json()]
    reads back. *)
Definition served (r : Response) : FetchOutcome :=
  HttpResponse (Z.to_nat (statusCode r)) (Some (payload r)).

(** The markup that the highlights add, in code units. *)
Definition markup (hs : list Highlight.t) : nat :=
  sum_list (map (fun h => length (span_open (Highlight.type h)) + length span_close)%nat hs).

(** The two offsets of a highlight. *)
Definition span (h : Highlight.t) : Q * Q := (Highlight.start h, Highlight.end' h).




(** The spans of the constraints of a result. *)
Definition spans (r : AnalysisResult.t) : list (Q * Q) :=
  map (fun c => (Constraint.sourceStart c, Constraint.sourceEnd c))
      (AnalysisResult.constraints r).

(** The [id]s of the members of the redundant groups. *)
Definition redundant_ids (r : AnalysisResult.t) : list jsstring :=
  flat_map (fun g => map Constraint.id (RedundantGroup.constraints g))
           (AnalysisResult.redundantGroups r).

(** A result whose two constraints are listed in the reverse of their order
    in the text, the second being the one member of a redundant group. *)
Definition sample : AnalysisResult.t :=
  let c1 := {| Constraint.id := js "c1"; Constraint.text := js "must have a title";
               Constraint.sourceStart := 6; Constraint.sourceEnd := 23 |} in
  let c2 := {| Constraint.id := js "c2"; Constraint.text := js "Books";
               Constraint.sourceStart := 0; Constraint.sourceEnd := 5 |} in
  {| AnalysisResult.constraints := [c1; c2];
     AnalysisResult.redundantGroups :=
       [{| RedundantGroup.id := js "g1"; RedundantGroup.constraints := [c2];
           RedundantGroup.similarity := 9 # 10 |}];
     AnalysisResult.contradictions := [];
     AnalysisResult.originalText := js "Books must have a title" |}.

End Page.

(** * Checks of the embedding on concrete inputs *)

Example split_lines :
  split nl (js "- a" ++ nl ++ js "b" ++ nl) = [js "- a"; js "b"; []].
Proof. reflexivity. Qed.

Example split_fence_overlap :
  split fence (js "a````b```") = [js "a"; js "`b"; []].
Proof. reflexivity. Qed.

Example strip_json_fence :
  stripCodeFence (js "Here: ```json {} ``` done") = Normal (js "{}").
Proof. reflexivity. Qed.

Example strip_other_tag :
  stripCodeFence (js "```js x ```") = Normal (js "js x").
Proof. reflexivity. Qed.

Example strip_second_fence :
  stripCodeFence (js "``` A ``` ```json B ```") = Normal (js "B").
Proof. reflexivity. Qed.

Example strip_overlap :
  stripCodeFence (js "```json`````json") = Normal (js "``").
Proof. reflexivity. Qed.

Example parse_nested :
  RefParser.parse (jq "{'a': [1, -0.5, 1e2, true, null], 'b': {'c': 'x'}}") =
  Some (JObj [(js "a", JArr [JNum 1; JNum (-1 # 2); JNum 100; JBool true; JNull]);
              (js "b", JObj [(js "c", JStr (js "x"))])]).
Proof. reflexivity. Qed.

Example parse_rejects_prose : RefParser.parse (js "- not json") = None.
Proof. reflexivity. Qed.

Example bullet_line_unicode :
  strip_bullet (8226 :: js " a title") = js "a title" /\
  starts_with_bullet (trim (js "  * x")) = true /\
  strip_bullet (js "  * x") = js "  * x".
Proof. repeat split. Qed.

(** The scenarios of the handler's interface. *)
Example unknown_provider :
  handler sample_engine (answering [])
    {| httpMethod := js "POST";
       body := Some (jq "{'providerName': 'FooAI', 'inputText': 'abc'}") |} =
  error_response 400 (js "Invalid provider").
Proof. reflexivity. Qed.

Example missing_credential :
  handler sample_engine {| env := fun _ => None; fetched := NetworkFailure [] |}
    (post_cohere "abc") =
  error_response 500 (js "Cohere API key not configured").
Proof. reflexivity. Qed.

Example inherited_name_is_a_provider :
  handler sample_engine {| env := fun _ => None; fetched := NetworkFailure [] |}
    {| httpMethod := js "POST";
       body := Some (jq "{'providerName': 'toString', 'inputText': 'abc'}") |} =
  error_response 500 (js "toString API key not configured").
Proof. reflexivity. Qed.

Example provider_error_message :
  payload (handler sample_engine
             {| env := fun _ => Some (js "secret");
                fetched := HttpResponse 429
                  (Some (JObj [(js "error", JObj [(js "message", JStr (js "slow down"))])])) |}
             (post_cohere "abc")) =
  JObj [(js "error", JStr (js "slow down")); (js "constraints", JArr []);
        (js "redundantGroups", JArr []); (js "contradictions", JArr []);
        (js "originalText", JStr [])].
Proof. reflexivity. Qed.

Example prose_without_bullets :
  payload (handler sample_engine (answering (js "I could not find any."))
             (post_cohere "abc")) =
  JObj [(js "constraints", JArr []); (js "redundantGroups", JArr []);
        (js "contradictions", JArr []); (js "originalText", JStr (js "abc"))].
Proof. reflexivity. Qed.

Example fenced_answer :
  payload (handler sample_engine
             (answering (jq "Sure: ```json {'constraints': [{'text': 't'}]} ``` Done."))
             (post_cohere "abc")) =
  JObj [(js "constraints",
         JArr [JObj [(js "text", JStr (js "t")); (js "id", JStr (js "uuid-0"));
                     (js "sourceStart", JNum 0); (js "sourceEnd", JNum 3)]]);
        (js "redundantGroups", JArr []); (js "contradictions", JArr []);
        (js "originalText", JStr (js "abc"))].
Proof. reflexivity. Qed.

Example null_answer_fails :
  statusCode (handler sample_engine (answering (js "null")) (post_cohere "abc")) = 500%Z.
Proof. reflexivity. Qed.

(** * Properties *)

(** ** Occurrences of a separator *)

Lemma starts_with_app sep p q :
  starts_with sep p = true -> starts_with sep (p ++ q) = true.
Proof.
  revert p. induction sep as [|a sep IH]; intros [|b p]; simpl; try done.
  destruct (a =? b); simpl; [apply IH | done].
Qed.

Lemma starts_with_sep_prefix p q s :
  starts_with (p ++ q) s = true -> starts_with p s = true.
Proof.
  revert s. induction p as [|a p IH]; intros [|b s]; simpl; try done.
  destruct (a =? b); simpl; [apply IH | done].
Qed.

Lemma includes_app_l sep p q :
  includes sep p = true -> includes sep (p ++ q) = true.
Proof.
  induction p as [|c p IH].
  - destruct sep; simpl; [|done]. intros _. by destruct q.
  - change (includes sep (c :: p)) with (starts_with sep (c :: p) || includes sep p).
    change (includes sep ((c :: p) ++ q))
      with (starts_with sep ((c :: p) ++ q) || includes sep (p ++ q)).
    intros [H|H]%orb_prop.
    + by rewrite (starts_with_app _ _ _ H).
    + rewrite (IH H). apply orb_true_r.
Qed.

Lemma includes_cons sep c s :
  includes sep s = true -> includes sep (c :: s) = true.
Proof.
  intros H. change (starts_with sep (c :: s) || includes sep s = true).
  rewrite H. apply orb_true_r.
Qed.


Lemma includes_indexOf sep s : includes sep s = bool_decide (is_Some (indexOf sep s)).
Proof.
  induction s as [|c s IH].
  - simpl. by destruct (starts_with sep []).
  - change (includes sep (c :: s)) with (starts_with sep (c :: s) || includes sep s).
    change (indexOf sep (c :: s))
      with (if starts_with sep (c :: s) then Some 0%nat else S <$> indexOf sep s).
    destruct (starts_with sep (c :: s)); simpl.
    + done.
    + rewrite IH. apply bool_decide_ext. rewrite fmap_is_Some. done.
Qed.

Lemma indexOf_before sep s i : indexOf sep s = Some i -> before sep s = take i s.
Proof.
  revert i. induction s as [|c s IH]; intros i.
  - simpl. by destruct (starts_with sep []), i.
  - change (indexOf sep (c :: s))
      with (if starts_with sep (c :: s) then Some 0%nat else S <$> indexOf sep s).
    change (before sep (c :: s))
      with (if starts_with sep (c :: s) then [] else c :: before sep s).
    destruct (starts_with sep (c :: s)).
    + by intros [= <-].
    + destruct (indexOf sep s) as [j|] eqn:E; simpl; [|done].
      intros [= <-]. simpl. f_equal. by apply IH.
Qed.

Lemma indexOf_after sep s i :
  indexOf sep s = Some i -> after sep s = Some (drop (i + length sep) s).
Proof.
  revert i. induction s as [|c s IH]; intros i.
  - simpl. destruct (starts_with sep []); [|done]. intros [= <-]. done.
  - change (indexOf sep (c :: s))
      with (if starts_with sep (c :: s) then Some 0%nat else S <$> indexOf sep s).
    change (after sep (c :: s))
      with (if starts_with sep (c :: s) then Some (drop (length sep) (c :: s))
            else after sep s).
    destruct (starts_with sep (c :: s)).
    + by intros [= <-].
    + destruct (indexOf sep s) as [j|] eqn:E; simpl; [|done].
      intros [= <-]. by apply IH.
Qed.

Lemma before_prefix sep s : exists rest, s = before sep s ++ rest.
Proof.
  induction s as [|c s [rest IH]]; [by exists []|].
  change (before sep (c :: s))
    with (if starts_with sep (c :: s) then [] else c :: before sep s).
  destruct (starts_with sep (c :: s)); [by exists (c :: s)|].
  exists rest. simpl. by rewrite <- IH.
Qed.

Lemma before_no_sep sep s : sep <> [] -> includes sep (before sep s) = false.
Proof.
  intros Hsep. induction s as [|c s IH].
  - by destruct sep.
  - change (before sep (c :: s))
      with (if starts_with sep (c :: s) then [] else c :: before sep s).
    destruct (starts_with sep (c :: s)) eqn:E; [by destruct sep|].
    change (starts_with sep (c :: before sep s) || includes sep (before sep s) = false).
    rewrite IH, orb_false_r.
    destruct (starts_with sep (c :: before sep s)) eqn:E'; [|done].
    destruct (before_prefix sep s) as [rest Hrest].
    apply (starts_with_app _ _ rest) in E'. simpl in E'.
    rewrite <- Hrest in E'. congruence.
Qed.

Lemma before_id sep s : includes sep s = false -> before sep s = s.
Proof.
  induction s as [|c s IH]; [done|].
  change (includes sep (c :: s)) with (starts_with sep (c :: s) || includes sep s).
  change (before sep (c :: s))
    with (if starts_with sep (c :: s) then [] else c :: before sep s).
  intros [-> H]%orb_false_elim. by rewrite IH.
Qed.

Lemma split_from_skip sep k s : split_from sep k s = split_from sep 0 (drop k s).
Proof.
  revert k. induction s as [|c s IH]; intros [|k]; try done.
  simpl. apply IH.
Qed.

Lemma split_unfold sep s :
  sep <> [] ->
  split sep s =
  before sep s :: match after sep s with
                  | Some rest => split sep rest
                  | None => []
                  end.
Proof.
  intros Hsep. unfold split. induction s as [|c s IH].
  - by destruct sep.
  - change (split_from sep 0 (c :: s))
      with (if starts_with sep (c :: s)
            then [] :: split_from sep (length sep - 1) s
            else match split_from sep 0 s with
                 | seg :: segs => (c :: seg) :: segs
                 | [] => [[c]]
                 end).
    change (before sep (c :: s))
      with (if starts_with sep (c :: s) then [] else c :: before sep s).
    change (after sep (c :: s))
      with (if starts_with sep (c :: s) then Some (drop (length sep) (c :: s))
            else after sep s).
    destruct (starts_with sep (c :: s)).
    + rewrite split_from_skip. destruct sep; [done|]. simpl.
      by rewrite Nat.sub_0_r.
    + by rewrite IH.
Qed.

Lemma includes_after sep s :
  includes sep s = true -> exists rest, after sep s = Some rest.
Proof.
  rewrite includes_indexOf. intros [i Hi]%bool_decide_eq_true.
  rewrite (indexOf_after _ _ _ Hi). eauto.
Qed.

Lemma split_second sep s rest :
  sep <> [] -> after sep s = Some rest -> split sep s !! 1%nat = Some (before sep rest).
Proof.
  intros Hsep Hafter. rewrite (split_unfold sep s Hsep), Hafter. simpl.
  by rewrite (split_unfold sep rest Hsep).
Qed.

Lemma split_first sep s : sep <> [] -> split sep s !! 0%nat = Some (before sep s).
Proof. intros Hsep. by rewrite (split_unfold sep s Hsep). Qed.

(** ** Trimming keeps a text free of a separator *)

Lemma trimStart_suffix sep s :
  includes sep (trimStart s) = true -> includes sep s = true.
Proof.
  induction s as [|c s IH]; [done|]. simpl.
  destruct (isWhiteSpace c); [|done].
  intros H%IH. by apply includes_cons.
Qed.

Lemma trimEnd_prefix s : exists ws, s = trimEnd s ++ ws.
Proof.
  induction s as [|c s [ws IH]]; [by exists []|]. simpl.
  destruct (trimEnd s) as [|d r].
  - destruct (isWhiteSpace c); [by exists (c :: s)|].
    exists s. done.
  - exists ws. simpl. by rewrite IH at 1.
Qed.

Lemma trim_includes sep s : includes sep (trim s) = true -> includes sep s = true.
Proof.
  unfold trim. intros H. apply trimStart_suffix.
  destruct (trimEnd_prefix (trimStart s)) as [ws Hws].
  rewrite Hws. by apply includes_app_l.
Qed.

(** ** Code-fence stripping *)

Lemma fence_json_fence : fence_json = fence ++ js "json".
Proof. reflexivity. Qed.


Lemma fenced_segment_second sep t rest :
  sep <> [] -> after sep t = Some rest ->
  fenced_segment (split sep t) 1 = Normal (trim (before fence (before sep rest))).
Proof.
  intros Hsep Hafter. unfold fenced_segment.
  rewrite (split_second sep t rest Hsep Hafter).
  by rewrite split_first.
Qed.

(** The three cases of the stripping, in terms of the first occurrences. *)
Lemma stripCodeFence_cases t :
  (includes fence t = false /\ stripCodeFence t = Normal t) \/
  (exists rest, after fence_json t = Some rest /\
     stripCodeFence t = Normal (trim (before fence (before fence_json rest)))) \/
  (includes fence_json t = false /\ exists rest, after fence t = Some rest /\
     stripCodeFence t = Normal (trim (before fence rest))).
Proof.
  unfold stripCodeFence.
  destruct (includes fence_json t) eqn:Ej.
  - right; left. destruct (includes_after _ _ Ej) as [rest Hrest].
    exists rest. split; [done|]. by apply fenced_segment_second.
  - destruct (includes fence t) eqn:Ef.
    + right; right. split; [done|].
      destruct (includes_after _ _ Ef) as [rest Hrest].
      exists rest. split; [done|].
      rewrite (fenced_segment_second fence t rest); [|done|done].
      by rewrite (before_id fence (before fence rest)) by by apply before_no_sep.
    + by left.
Qed.

Lemma stripped_has_no_fence seg : includes fence (trim (before fence seg)) = false.
Proof.
  destruct (includes fence (trim (before fence seg))) eqn:E; [|done].
  apply trim_includes in E. by rewrite before_no_sep in E.
Qed.


(** The stripping never throws: the segment it indexes always exists. *)
Lemma stripCodeFence_total t :
  exists t', stripCodeFence t = Normal t' /\ includes fence t' = false.
Proof.
  destruct (stripCodeFence_cases t) as [[H ->]|[(rest & _ & ->)|(_ & rest & _ & ->)]].
  - eauto.
  - eexists. split; [done|]. apply stripped_has_no_fence.
  - eexists. split; [done|]. apply stripped_has_no_fence.
Qed.




Lemma before_json_then_fence mid post :
  indexOf fence (mid ++ fence ++ post) = Some (length mid) ->
  starts_with [96] post = false ->
  before fence (before fence_json (mid ++ fence ++ post)) = mid.
Proof.
  intros Hidx Hpost. induction mid as [|c mid IH].
  - clear Hidx. change ([] ++ fence ++ post) with (96 :: 96 :: 96 :: post).
    destruct post as [|d post]; [reflexivity|].
    assert ((96 =? d) = false) as Hd.
    { simpl in Hpost. by rewrite andb_true_r in Hpost. }
    cbn [before].
    destruct (starts_with fence_json (96 :: 96 :: 96 :: d :: post)); [reflexivity|].
    change (starts_with fence_json (96 :: 96 :: d :: post))
      with ((96 =? d) && starts_with (js "json") post).
    change (starts_with fence_json (96 :: d :: post))
      with ((96 =? d) && starts_with (js "`json") post).
    rewrite Hd. reflexivity.
  - change (indexOf fence ((c :: mid) ++ fence ++ post))
      with (if starts_with fence (c :: mid ++ fence ++ post) then Some 0%nat
            else S <$> indexOf fence (mid ++ fence ++ post)) in Hidx.
    destruct (starts_with fence (c :: mid ++ fence ++ post)) eqn:E; [done|].
    destruct (indexOf fence (mid ++ fence ++ post)) as [i|] eqn:Ei; [|done].
    injection Hidx as ->.
    change (before fence_json ((c :: mid) ++ fence ++ post))
      with (if starts_with fence_json (c :: mid ++ fence ++ post) then []
            else c :: before fence_json (mid ++ fence ++ post)).
    destruct (starts_with fence_json (c :: mid ++ fence ++ post)) eqn:Ej.
    { rewrite fence_json_fence in Ej. apply starts_with_sep_prefix in Ej. congruence. }
    change (before fence (c :: before fence_json (mid ++ fence ++ post)))
      with (if starts_with fence (c :: before fence_json (mid ++ fence ++ post))
            then []
            else c :: before fence (before fence_json (mid ++ fence ++ post))).
    destruct (starts_with fence (c :: before fence_json (mid ++ fence ++ post))) eqn:E'.
    { destruct (before_prefix fence_json (mid ++ fence ++ post)) as [rest Hrest].
      apply (starts_with_app _ _ rest) in E'.
      rewrite <- app_comm_cons, <- Hrest in E'. congruence. }
    by rewrite IH.
Qed.

(** C6 (amended). When the text contains the marker [```json], the stripping
    returns the trimmed content between the first [```json] and the first
    [```] after it (a closing marker not directly followed by a further
    backtick), wherever that tagged fence stands; otherwise, when it
    contains [```], the trimmed content between the first two [```], a
    language tag other than [json] being part of that content.  What lies
    outside is discarded. *)
Theorem stripCodeFence_between_markers (pre mid post : jsstring) :
  (indexOf fence_json (pre ++ fence_json ++ mid ++ fence ++ post) = Some (length pre) ->
   indexOf fence (mid ++ fence ++ post) = Some (length mid) ->
   starts_with [96] post = false ->
   stripCodeFence (pre ++ fence_json ++ mid ++ fence ++ post) = Normal (trim mid)) /\
  (includes fence_json (pre ++ fence ++ mid ++ fence ++ post) = false ->
   indexOf fence (pre ++ fence ++ mid ++ fence ++ post) = Some (length pre) ->
   indexOf fence (mid ++ fence ++ post) = Some (length mid) ->
   stripCodeFence (pre ++ fence ++ mid ++ fence ++ post) = Normal (trim mid)).
Proof.
  split.
  - intros Hj Hf Hpost.
    pose proof (indexOf_after _ _ _ Hj) as Hafter.
    rewrite drop_app_add, drop_app_length in Hafter.
    unfold stripCodeFence.
    assert (includes fence_json (pre ++ fence_json ++ mid ++ fence ++ post) = true) as ->.
    { rewrite includes_indexOf, Hj. done. }
    rewrite (fenced_segment_second fence_json _ _ ltac:(done) Hafter).
    by rewrite before_json_then_fence.
  - intros Hnj Hf1 Hf2.
    pose proof (indexOf_after _ _ _ Hf1) as Hafter.
    rewrite drop_app_add, drop_app_length in Hafter.
    unfold stripCodeFence. rewrite Hnj.
    assert (includes fence (pre ++ fence ++ mid ++ fence ++ post) = true) as ->.
    { rewrite includes_indexOf, Hf1. done. }
    rewrite (fenced_segment_second fence _ _ ltac:(done) Hafter).
    rewrite (before_id fence (before fence _)) by by apply before_no_sep.
    rewrite (indexOf_before _ _ _ Hf2). by rewrite take_app_length.
Qed.

Lemma stripCodeFence_between_markers_witness :
  stripCodeFence (js "Here: ```json {} ``` done") = Normal (js "{}") /\
  stripCodeFence (js "```js x ``` y") = Normal (js "js x").
Proof.
  split.
  - apply (proj1 (stripCodeFence_between_markers (js "Here: ") (js " {} ") (js " done")));
      reflexivity.
  - apply (proj2 (stripCodeFence_between_markers [] (js "js x ") (js " y")));
      reflexivity.
Defined.

(** C6 (as stated) fails.  In the first text the first pair of markers
    encloses [A], yet the stripping returns the content of the later fence
    tagged [json]; in the second the language tag [js] stays in the result. *)
Lemma stripCodeFence_not_first_pair :
  first_fenced_content (js "``` A ``` ```json B ```") = Some (js " A ") /\
  stripCodeFence (js "``` A ``` ```json B ```") = Normal (js "B") /\
  stripCodeFence (js "``` A ``` ```json B ```") <> Normal (trim (js " A ")) /\
  first_fenced_content (js "```js x ```") = Some (js " x ") /\
  stripCodeFence (js "```js x ```") = Normal (js "js x") /\
  stripCodeFence (js "```js x ```") <> Normal (trim (js " x ")).
Proof. repeat split; (reflexivity || (intros H; vm_compute in H; discriminate H)). Qed.

(** ** Members of an object *)

Lemma lookup_set_eq k v ms : lookup_member k (set_member k v ms) = Some v.
Proof.
  induction ms as [|[k' v'] ms IH]; simpl.
  - by rewrite decide_True.
  - destruct (decide (k = k')) as [->|Hne]; simpl.
    + by rewrite decide_True.
    + by rewrite decide_False.
Qed.

Lemma lookup_set_ne k k' v ms :
  k <> k' -> lookup_member k' (set_member k v ms) = lookup_member k' ms.
Proof.
  intros Hne. induction ms as [|[k0 v0] ms IH]; simpl.
  - by rewrite decide_False.
  - destruct (decide (k = k0)) as [->|Hne0]; simpl.
    + by rewrite !decide_False.
    + by rewrite IH.
Qed.

Lemma set_member_id k v ms : lookup_member k ms = Some v -> set_member k v ms = ms.
Proof.
  induction ms as [|[k' v'] ms IH]; simpl; [done|].
  destruct (decide (k = k')) as [->|Hne].
  - by intros [= ->].
  - intros H. by rewrite IH.
Qed.

Lemma kept_set touched k v ms :
  k ∈ touched -> kept touched (set_member k v ms) = kept touched ms.
Proof.
  intros Hk. unfold kept. induction ms as [|[k' v'] ms IH]; simpl.
  - by rewrite bool_decide_eq_true_2.
  - destruct (decide (k = k')) as [<-|Hne]; simpl.
    + by rewrite !bool_decide_eq_true_2.
    + by rewrite IH.
Qed.

(** Objects that agree on [kept] agree on every member outside [touched]. *)
Lemma kept_lookup touched k ms ms' :
  k ∉ touched -> kept touched ms = kept touched ms' ->
  lookup_member k ms = lookup_member k ms'.
Proof.
  intros Hk.
  assert (forall l, lookup_member k (kept touched l) = lookup_member k l) as Hkept.
  { induction l as [|[k' v'] l IH]; [done|]. unfold kept in *. simpl.
    destruct (decide (k = k')) as [<-|Hne].
    - rewrite bool_decide_eq_false_2 by done. simpl. by rewrite decide_True.
    - destruct (bool_decide (k' ∈ touched)); simpl; [done|].
      by rewrite decide_False. }
  intros H. by rewrite <- (Hkept ms), H, Hkept.
Qed.

Lemma field_obj ms k : field (JObj ms) k = lookup_member k ms.
Proof. done. Qed.

Lemma Get_field v k : v <> JNull -> Get v k = Normal (field v k).
Proof. by destruct v. Qed.

(** ** The monad *)

Lemma bind_Normal {A B} (m : M A) (f : A -> M B) n b n' :
  bind m f n = Normal (b, n') ->
  exists a n1, m n = Normal (a, n1) /\ f a n1 = Normal (b, n').
Proof.
  unfold bind. destruct (m n) as [[a n1]|e]; [|done]. eauto.
Qed.

Lemma lift_Normal {A} (c : Completion A) n a n' :
  lift c n = Normal (a, n') -> c = Normal a /\ n' = n.
Proof. unfold lift. destruct c; [|done]. by intros [= -> ->]. Qed.

Lemma ret_Normal {A} (x : A) n a n' : ret x n = Normal (a, n') -> a = x /\ n' = n.
Proof. by intros [= -> ->]. Qed.

Lemma mapM_Forall2 {A B} (f : A -> M B) (P : A -> B -> Prop) :
  (forall x n y n', f x n = Normal (y, n') -> P x y) ->
  forall xs n ys n', mapM f xs n = Normal (ys, n') -> Forall2 P xs ys.
Proof.
  intros Hf. induction xs as [|x xs IH]; intros n ys n' H.
  - apply ret_Normal in H as [-> _]. constructor.
  - simpl in H. apply bind_Normal in H as (y & n1 & Hy & H).
    apply bind_Normal in H as (ys' & n2 & Hys & H).
    apply ret_Normal in H as [-> _].
    constructor; eauto.
Qed.

Lemma mapM_total {A B} (f : A -> M B) (xs : list A) :
  Forall (fun x => forall n, exists y n', f x n = Normal (y, n')) xs ->
  forall n, exists ys n', mapM f xs n = Normal (ys, n').
Proof.
  induction 1 as [|x xs Hx _ IH]; intros n.
  - by exists [], n.
  - destruct (Hx n) as (y & n1 & Hy). destruct (IH n1) as (ys & n2 & Hys).
    exists (y :: ys), n2. simpl. unfold bind. by rewrite Hy, Hys.
Qed.

Lemma array_map_Normal f v n v' n' :
  array_map f v n = Normal (v', n') ->
  exists xs ys, v = JArr xs /\ v' = JArr ys /\ mapM f xs n = Normal (ys, n').
Proof.
  destruct v; try done. simpl. intros H.
  apply bind_Normal in H as (ys & n1 & Hys & H).
  apply ret_Normal in H as [-> ->]. eauto.
Qed.

Lemma or_uuid_Normal eng v n x n' :
  or_uuid eng v n = Normal (x, n') -> x = or_else v (JStr (uuidv4 eng n)).
Proof.
  unfold or_uuid, or_else.
  destruct v as [y|]; [destruct (ToBoolean (Some y))|]; by intros [= <- <-].
Qed.

(** ** The [map] callbacks *)

Lemma fix_constraint_Normal eng text c n c' n' :
  fix_constraint eng text c n = Normal (c', n') ->
  c <> JNull /\
  exists id,
    c' = JObj (set_member (js "sourceEnd")
                 (or_else (field c (js "sourceEnd")) (number_of_nat (length text)))
              (set_member (js "sourceStart")
                 (or_else (field c (js "sourceStart")) (number_of_nat 0))
              (set_member (js "id") id (own_props c)))) /\
    id = or_else (field c (js "id")) (JStr (uuidv4 eng n)).
Proof.
  intros H. assert (c <> JNull) as Hc by (by intros ->). split; [done|].
  unfold fix_constraint in H. rewrite !(Get_field c) in H by done.
  apply bind_Normal in H as (? & ? & [[= <-] ->]%lift_Normal & H).
  apply bind_Normal in H as (id & n1 & Hid%or_uuid_Normal & H).
  apply bind_Normal in H as (? & ? & [[= <-] ->]%lift_Normal & H).
  apply bind_Normal in H as (? & ? & [[= <-] ->]%lift_Normal & H).
  apply ret_Normal in H as [-> ->]. eauto.
Qed.

Lemma fix_scored_Normal eng score x n x' n' :
  fix_scored eng score x n = Normal (x', n') ->
  x <> JNull /\
  exists id,
    x' = JObj (set_member score (or_else (field x score) default_score)
              (set_member (js "id") id (own_props x))) /\
    id = or_else (field x (js "id")) (JStr (uuidv4 eng n)).
Proof.
  intros H. assert (x <> JNull) as Hx by (by intros ->). split; [done|].
  unfold fix_scored in H. rewrite !(Get_field x) in H by done.
  apply bind_Normal in H as (? & ? & [[= <-] ->]%lift_Normal & H).
  apply bind_Normal in H as (id & n1 & Hid%or_uuid_Normal & H).
  apply bind_Normal in H as (? & ? & [[= <-] ->]%lift_Normal & H).
  apply ret_Normal in H as [-> ->]. eauto.
Qed.

Lemma post_process_Normal eng text a n a' n' :
  post_process eng text a n = Normal (a', n') ->
  exists cs gs ks cs' gs' ks' n1 n2,
    constraints a = JArr cs /\ redundantGroups a = JArr gs /\
    contradictions a = JArr ks /\
    a' = {| constraints := JArr cs'; redundantGroups := JArr gs';
            contradictions := JArr ks'; originalText := originalText a |} /\
    mapM (fix_constraint eng text) cs n = Normal (cs', n1) /\
    mapM (fix_group eng) gs n1 = Normal (gs', n2) /\
    mapM (fix_contradiction eng) ks n2 = Normal (ks', n').
Proof.
  intros H. unfold post_process in H.
  apply bind_Normal in H as (c' & n1 & (cs & cs' & Hc & -> & Hcs)%array_map_Normal & H).
  apply bind_Normal in H as (g' & n2 & (gs & gs' & Hg & -> & Hgs)%array_map_Normal & H).
  apply bind_Normal in H as (k' & n3 & (ks & ks' & Hk & -> & Hks)%array_map_Normal & H).
  apply ret_Normal in H as [-> ->].
  exists cs, gs, ks, cs', gs', ks', n1, n2. done.
Qed.

Lemma reconcile_Normal eng text answer n a' n' :
  reconcile eng text answer n = Normal (a', n') ->
  exists aiOutput parsed a n1,
    stripCodeFence answer = Normal aiOutput /\
    parse_or_fallback eng text aiOutput n = Normal (parsed, n1) /\
    ensure_properties text parsed = Normal a /\
    post_process eng text a n1 = Normal (a', n').
Proof.
  intros H. unfold reconcile in H.
  apply bind_Normal in H as (aiOutput & ? & [Hs ->]%lift_Normal & H).
  apply bind_Normal in H as (parsed & n1 & Hp & H).
  apply bind_Normal in H as (a & ? & [He ->]%lift_Normal & H).
  exists aiOutput, parsed, a, n1. done.
Qed.

Lemma ensure_properties_Normal text v a :
  ensure_properties text v = Normal a ->
  v <> JNull /\
  a = {| constraints := or_else (field v (js "constraints")) (JArr []);
         redundantGroups := or_else (field v (js "redundantGroups")) (JArr []);
         contradictions := or_else (field v (js "contradictions")) (JArr []);
         originalText := or_else (field v (js "originalText")) (JStr text) |}.
Proof.
  intros H. assert (v <> JNull) as Hv by (by intros ->). split; [done|].
  unfold ensure_properties in H. rewrite !(Get_field v) in H by done.
  by injection H as <-.
Qed.

Lemma or_else_missing v d : missing v -> or_else v d = d.
Proof. by intros [-> | ->]. Qed.

Lemma or_else_nonzero q d : nonzero q -> or_else (Some (JNum q)) d = JNum q.
Proof.
  intros Hq. unfold or_else. simpl.
  destruct (Z.eqb_spec (Qnum q) 0) as [E|E]; [|done].
  destruct Hq. unfold Qeq. simpl. lia.
Qed.

Lemma fix_constraint_passes eng text c n c' n' :
  fix_constraint eng text c n = Normal (c', n') ->
  passes_through [js "id"; js "sourceStart"; js "sourceEnd"] c c'.
Proof.
  intros (_ & id & -> & _)%fix_constraint_Normal.
  eexists. split; [done|].
  rewrite !kept_set; [done|by repeat constructor..].
Qed.

Lemma fix_scored_passes eng score x n x' n' :
  fix_scored eng score x n = Normal (x', n') ->
  passes_through [js "id"; score] x x'.
Proof.
  intros (_ & id & -> & _)%fix_scored_Normal.
  eexists. split; [done|].
  rewrite !kept_set; [done|by repeat constructor..].
Qed.

Lemma fix_scored_rule eng score x n x' n' :
  fix_scored eng score x n = Normal (x', n') -> score_rule score x x'.
Proof.
  intros (_ & id & -> & _)%fix_scored_Normal. unfold score_rule.
  rewrite !field_obj, lookup_set_eq. split.
  - intros H. by rewrite or_else_missing.
  - intros q -> Hq. by rewrite or_else_nonzero.
Qed.

Lemma fix_constraint_span eng text c n c' n' :
  fix_constraint eng text c n = Normal (c', n') -> span_rule text c c'.
Proof.
  intros (_ & id & -> & _)%fix_constraint_Normal. unfold span_rule.
  rewrite !field_obj, lookup_set_eq, lookup_set_ne, lookup_set_eq by done.
  repeat split.
  - intros H. by rewrite or_else_missing.
  - intros H. by rewrite or_else_missing.
  - intros q -> Hq. by rewrite or_else_nonzero.
  - intros q -> Hq. by rewrite or_else_nonzero.
Qed.

Lemma span_rule_order text x y : span_rule text x y -> span_order_rule x y.
Proof.
  intros (Hs & He & Hs' & He'). split.
  - intros H1 H2. unfold ordered_span. rewrite (Hs H1), (He H2). simpl.
    unfold Qle_bool. simpl. apply Z.leb_le. lia.
  - intros a b Ha Hb Hna Hnb. unfold ordered_span.
    by rewrite (Hs' a Ha Hna), (He' b Hb Hnb).
Qed.

Lemma or_else_same v : or_else (Some v) v = v.
Proof. unfold or_else. by destruct (ToBoolean (Some v)). Qed.

Lemma score_rule_range k x y :
  score_rule k x y -> score_missing_or_in_range k x ->
  in_unit_interval (field y k) = true.
Proof.
  intros [Hm Hq] [H | (q & E & Hnz & Hr)].
  - by rewrite (Hm H).
  - by rewrite (Hq q E Hnz).
Qed.

Lemma Forall2_transfer {A B} (P : A -> B -> Prop) (Q : A -> Prop) (R : B -> Prop) xs ys :
  (forall x y, P x y -> Q x -> R y) ->
  Forall2 P xs ys -> Forall Q xs -> Forall R ys.
Proof.
  intros HPQ H. induction H as [|x y xs ys Hxy _ IH]; [constructor|].
  intros Hall. inversion Hall; subst. constructor; eauto.
Qed.

Lemma Forall2_chain {A B C} (P : A -> B -> Prop) (Q : B -> C -> Prop) (R : C -> Prop)
    xs ys zs :
  Forall2 P xs ys -> Forall2 Q ys zs ->
  (forall x y z, P x y -> Q y z -> R z) -> Forall R zs.
Proof.
  intros HP. revert zs. induction HP as [|x y xs ys Hxy _ IH]; intros zs HQ HR.
  - apply Forall2_nil_inv_l in HQ as ->. constructor.
  - apply Forall2_cons_inv_l in HQ as (z & zs' & Hyz & HQ & ->).
    constructor; eauto.
Qed.

Lemma Forall2_weaken {A B} (P Q : A -> B -> Prop) xs ys :
  (forall x y, P x y -> Q x y) -> Forall2 P xs ys -> Forall2 Q xs ys.
Proof. intros HPQ. induction 1; constructor; auto. Qed.

Lemma fallback_Normal eng text aiOutput n cand n1 :
  fallback eng text aiOutput n = Normal (cand, n1) ->
  exists basics,
    cand = JObj [(js "constraints", JArr basics);
                 (js "redundantGroups", JArr []);
                 (js "contradictions", JArr []);
                 (js "originalText", JStr text)] /\
    Forall2 (basic_shape eng text)
      (List.filter (fun line => starts_with_bullet (trim line)) (split nl aiOutput))
      basics.
Proof.
  intros H. unfold fallback in H.
  apply bind_Normal in H as (basics & m & Hb & H).
  apply ret_Normal in H as [-> ->].
  exists basics. split; [done|].
  eapply mapM_Forall2; [|exact Hb].
  intros line k c k' Hc. unfold basic_constraint in Hc.
  apply bind_Normal in Hc as (u & ? & _ & Hc).
  apply ret_Normal in Hc as [-> _]. by exists u.
Qed.

Lemma fix_constraint_default_span eng text b n c' n' :
  field b (js "sourceStart") = Some (number_of_nat 0) ->
  field b (js "sourceEnd") = Some (number_of_nat (length text)) ->
  fix_constraint eng text b n = Normal (c', n') ->
  field c' (js "sourceStart") = Some (number_of_nat 0) /\
  field c' (js "sourceEnd") = Some (number_of_nat (length text)) /\
  ordered_span c' = true.
Proof.
  intros Hs He (_ & id & -> & _)%fix_constraint_Normal.
  rewrite Hs, He, !or_else_same. unfold ordered_span.
  rewrite !field_obj, lookup_set_eq, lookup_set_ne, lookup_set_eq by done.
  repeat split. unfold Qle_bool. simpl. apply Z.leb_le. lia.
Qed.

Lemma fix_basic_span eng text line b n c' n' :
  basic_shape eng text line b ->
  fix_constraint eng text b n = Normal (c', n') ->
  field c' (js "sourceStart") = Some (number_of_nat 0) /\
  field c' (js "sourceEnd") = Some (number_of_nat (length text)) /\
  ordered_span c' = true.
Proof. intros [u ->]. by apply fix_constraint_default_span. Qed.

Lemma fix_scored_copied eng score k x n y n' :
  k <> js "id" -> k <> score ->
  fix_scored eng score x n = Normal (y, n') -> member_copied k x y.
Proof.
  intros Hid Hscore (_ & id & -> & _)%fix_scored_Normal ms ->.
  rewrite field_obj, !lookup_set_ne by done. done.
Qed.

(** ** Reconciliation of a candidate answer *)

Section Reconciled.

Variables (eng : Engine) (inputText answer aiOutput : jsstring).
Variables (candidate : JValue) (result : AnalysisResult) (n n1 n' : nat).

(** [candidate] is what the strict parse, or the fallback, made of the
    stripped answer, and reconciliation returned [result]. *)
Hypothesis Hstrip : stripCodeFence answer = Normal aiOutput.
Hypothesis Hcandidate :
  parse_or_fallback eng inputText aiOutput n = Normal (candidate, n1).
Hypothesis Hresult : reconcile eng inputText answer n = Normal (result, n').

Lemma reconciled_candidate :
  exists cs gs ks cs' gs' ks' m1 m2,
    or_else (field candidate (js "constraints")) (JArr []) = JArr cs /\
    or_else (field candidate (js "redundantGroups")) (JArr []) = JArr gs /\
    or_else (field candidate (js "contradictions")) (JArr []) = JArr ks /\
    result = {| constraints := JArr cs'; redundantGroups := JArr gs';
                contradictions := JArr ks';
                originalText :=
                  or_else (field candidate (js "originalText")) (JStr inputText) |} /\
    mapM (fix_constraint eng inputText) cs n1 = Normal (cs', m1) /\
    mapM (fix_group eng) gs m1 = Normal (gs', m2) /\
    mapM (fix_contradiction eng) ks m2 = Normal (ks', n').
Proof.
  destruct (reconcile_Normal _ _ _ _ _ _ Hresult)
    as (aiOutput' & parsed & a & k & Hs & Hp & He & Hpost).
  rewrite Hstrip in Hs. injection Hs as <-.
  rewrite Hcandidate in Hp. injection Hp as <- <-.
  apply ensure_properties_Normal in He as [_ ->].
  apply post_process_Normal in Hpost
    as (cs & gs & ks & cs' & gs' & ks' & m1 & m2 & Hc & Hg & Hk & -> & H1 & H2 & H3).
  simpl in *. exists cs, gs, ks, cs', gs', ks', m1, m2. done.
Qed.

(** Post-processing in terms of the spread: every element of the candidate
    answer comes out as an object whose members other than those defined
    after the spread are the own properties of the element. *)
Lemma reconcile_passes_through :
  exists cs' gs' ks',
    constraints result = JArr cs' /\
    redundantGroups result = JArr gs' /\
    contradictions result = JArr ks' /\
    (forall cs, field candidate (js "constraints") = Some (JArr cs) ->
       Forall2 (passes_through [js "id"; js "sourceStart"; js "sourceEnd"]) cs cs') /\
    (forall gs, field candidate (js "redundantGroups") = Some (JArr gs) ->
       Forall2 (passes_through [js "id"; js "similarity"]) gs gs') /\
    (forall ks, field candidate (js "contradictions") = Some (JArr ks) ->
       Forall2 (passes_through [js "id"; js "confidence"]) ks ks').
Proof.
  destruct reconciled_candidate
    as (cs & gs & ks & cs' & gs' & ks' & m1 & m2 & Hc & Hg & Hk & -> & H1 & H2 & H3).
  exists cs', gs', ks'. repeat split.
  - intros cs0 E. rewrite E in Hc. injection Hc as <-.
    eapply mapM_Forall2; [|exact H1]. apply fix_constraint_passes.
  - intros gs0 E. rewrite E in Hg. injection Hg as <-.
    eapply mapM_Forall2; [|exact H2]. intros *. apply fix_scored_passes.
  - intros ks0 E. rewrite E in Hk. injection Hk as <-.
    eapply mapM_Forall2; [|exact H3]. intros *. apply fix_scored_passes.
Qed.

(** C2 (amended). In a reconciled result the similarity of a redundant
    group and the confidence of a contradiction are 0.8 when the answer
    gives none (absent or null), and the answer's own number when that is
    not 0, whether or not it lies in [[0,1]]; so the scores of the result
    lie in [[0,1]] whenever each score of the answer is missing or a
    non-zero number of [[0,1]].  Without groups or contradictions in the
    answer the result has none. *)
Theorem reconcile_scores :
  exists gs' ks',
    redundantGroups result = JArr gs' /\
    contradictions result = JArr ks' /\
    (forall gs, field candidate (js "redundantGroups") = Some (JArr gs) ->
       Forall2 (score_rule (js "similarity")) gs gs' /\
       (Forall (score_missing_or_in_range (js "similarity")) gs ->
        Forall (fun g => in_unit_interval (field g (js "similarity")) = true) gs')) /\
    (forall ks, field candidate (js "contradictions") = Some (JArr ks) ->
       Forall2 (score_rule (js "confidence")) ks ks' /\
       (Forall (score_missing_or_in_range (js "confidence")) ks ->
        Forall (fun k => in_unit_interval (field k (js "confidence")) = true) ks')) /\
    (missing (field candidate (js "redundantGroups")) -> gs' = []) /\
    (missing (field candidate (js "contradictions")) -> ks' = []).
Proof.
  destruct reconciled_candidate
    as (cs & gs & ks & cs' & gs' & ks' & m1 & m2 & Hc & Hg & Hk & -> & H1 & H2 & H3).
  exists gs', ks'. split; [done|]. split; [done|].
  assert (Forall2 (score_rule (js "similarity")) gs gs') as Rg.
  { eapply mapM_Forall2; [|exact H2]. intros *. apply fix_scored_rule. }
  assert (Forall2 (score_rule (js "confidence")) ks ks') as Rk.
  { eapply mapM_Forall2; [|exact H3]. intros *. apply fix_scored_rule. }
  repeat split.
  - rewrite H in Hg. by injection Hg as <-.
  - rewrite H in Hg. injection Hg as <-.
    eapply Forall2_transfer; [|exact Rg]. apply score_rule_range.
  - rewrite H in Hk. by injection Hk as <-.
  - rewrite H in Hk. injection Hk as <-.
    eapply Forall2_transfer; [|exact Rk]. apply score_rule_range.
  - intros Hm. rewrite (or_else_missing _ _ Hm) in Hg. injection Hg as <-.
    by apply Forall2_nil_inv_l in Rg.
  - intros Hm. rewrite (or_else_missing _ _ Hm) in Hk. injection Hk as <-.
    by apply Forall2_nil_inv_l in Rk.
Qed.

(** C8 (amended). An element of the collection [constraints] of a
    reconciled result has [sourceStart] 0 when the answer gives none and
    [sourceEnd] the length of the input text when the answer gives none, and
    keeps the non-zero offsets the answer gives.  So [sourceStart <=
    sourceEnd] holds for such a constraint without offsets, holds for every
    constraint of the fallback extraction (span from 0 to the length of the
    input), and for offsets supplied by the model holds exactly when the
    model ordered them.  The constraints nested in a redundant group
    ([constraints]) or in a contradiction ([constraint1], [constraint2])
    get no default at all: those members come back as the answer has
    them. *)
Theorem reconcile_spans :
  exists cs' gs' ks',
    constraints result = JArr cs' /\
    redundantGroups result = JArr gs' /\
    contradictions result = JArr ks' /\
    (forall cs, field candidate (js "constraints") = Some (JArr cs) ->
       Forall2 (span_rule inputText) cs cs' /\ Forall2 span_order_rule cs cs') /\
    (JSON_parse eng aiOutput = None ->
       Forall (fun c => field c (js "sourceStart") = Some (number_of_nat 0) /\
                        field c (js "sourceEnd") =
                          Some (number_of_nat (length inputText)) /\
                        ordered_span c = true) cs') /\
    (forall gs, field candidate (js "redundantGroups") = Some (JArr gs) ->
       Forall2 (member_copied (js "constraints")) gs gs') /\
    (forall ks, field candidate (js "contradictions") = Some (JArr ks) ->
       Forall2 (fun k k' => member_copied (js "constraint1") k k' /\
                            member_copied (js "constraint2") k k') ks ks').
Proof.
  destruct reconciled_candidate
    as (cs & gs & ks & cs' & gs' & ks' & m1 & m2 & Hc & Hg & Hk & -> & H1 & H2 & H3).
  exists cs', gs', ks'. split; [done|]. split; [done|]. split; [done|].
  split; [|split; [|split]]; cycle 2.
  - intros gs0 E. rewrite E in Hg. injection Hg as <-.
    eapply mapM_Forall2; [|exact H2]. intros *. by apply fix_scored_copied.
  - intros ks0 E. rewrite E in Hk. injection Hk as <-.
    eapply mapM_Forall2; [|exact H3]. intros * H.
    split; (eapply fix_scored_copied; [| |exact H]; done).
  - intros cs0 E. rewrite E in Hc. injection Hc as <-.
    assert (Forall2 (span_rule inputText) cs0 cs') as R.
    { eapply mapM_Forall2; [|exact H1]. apply fix_constraint_span. }
    split; [done|]. eapply Forall2_weaken; [|exact R]. apply span_rule_order.
  - intros Hparse. unfold parse_or_fallback in Hcandidate.
    rewrite Hparse in Hcandidate.
    apply fallback_Normal in Hcandidate as (basics & -> & Hb).
    injection Hc as <-.
    assert (Forall2 (fun b c => exists k k',
              fix_constraint eng inputText b k = Normal (c, k')) basics cs') as R.
    { eapply mapM_Forall2; [|exact H1]. eauto. }
    eapply Forall2_chain; [exact Hb|exact R|].
    intros line b c Hline (k & k' & Hfix). by eapply fix_basic_span.
Qed.

End Reconciled.

(** ** The reconciliation never fails on an unparsable answer *)

Lemma fix_constraint_total eng text c n :
  c <> JNull -> exists c' n', fix_constraint eng text c n = Normal (c', n').
Proof.
  intros Hc. unfold fix_constraint. rewrite !(Get_field c) by done.
  unfold bind, lift, or_uuid, fresh, ret.
  destruct (field c (js "id")) as [x|]; [destruct (ToBoolean (Some x))|]; eauto.
Qed.

Lemma basic_constraint_total eng text line n :
  exists c n', basic_constraint eng text line n = Normal (c, n').
Proof. unfold basic_constraint, bind, fresh, ret. eauto. Qed.

Lemma fallback_total eng text aiOutput n :
  exists cand n1, fallback eng text aiOutput n = Normal (cand, n1).
Proof.
  unfold fallback.
  destruct (mapM_total (basic_constraint eng text)
              (List.filter (fun line => starts_with_bullet (trim line))
                           (split nl aiOutput))) with (n := n) as (bs & n1 & Hbs).
  { apply Forall_forall. intros line _ k. apply basic_constraint_total. }
  unfold bind. rewrite Hbs. unfold ret. eauto.
Qed.

Lemma reconcile_fallback_total eng text answer aiOutput n :
  stripCodeFence answer = Normal aiOutput ->
  JSON_parse eng aiOutput = None ->
  exists a n', reconcile eng text answer n = Normal (a, n').
Proof.
  intros Hstrip Hparse. unfold reconcile.
  unfold bind at 1. rewrite Hstrip. unfold lift at 1.
  unfold bind at 1. unfold parse_or_fallback. rewrite Hparse.
  destruct (fallback_total eng text aiOutput n) as (cand & n1 & Hcand).
  rewrite Hcand.
  apply fallback_Normal in Hcand as (basics & -> & Hb).
  unfold bind at 1. unfold lift at 1.
  change (ensure_properties text _)
    with (Normal {| constraints := JArr basics; redundantGroups := JArr [];
                    contradictions := JArr [];
                    originalText := or_else (Some (JStr text)) (JStr text) |}).
  unfold post_process. cbn [constraints redundantGroups contradictions originalText].
  destruct (mapM_total (fix_constraint eng text) basics) with (n := n1) as (cs & n2 & Hcs).
  { eapply Forall2_chain with (Q := fun (b c : JValue) => b = c);
      [exact Hb| |].
    - clear. induction basics; by constructor.
    - intros line b c [u ->] <- k. by apply fix_constraint_total. }
  unfold array_map at 1. unfold bind. rewrite Hcs. unfold ret. simpl. eauto.
Qed.

(** ** When reconciliation gets through *)

Lemma fix_scored_total eng score x n :
  x <> JNull -> exists x' n', fix_scored eng score x n = Normal (x', n').
Proof.
  intros Hx. unfold fix_scored. rewrite !(Get_field x) by done.
  unfold bind, lift, or_uuid, fresh, ret.
  destruct (field x (js "id")) as [i|]; [destruct (ToBoolean (Some i))|]; eauto.
Qed.

Lemma mapM_throws {A B} (f : A -> M B) (xs : list A) :
  Exists (fun x => forall n, exists e, f x n = Throw e) xs ->
  forall n, exists e, mapM f xs n = Throw e.
Proof.
  induction 1 as [x xs Hx|x xs _ IH]; intros n; simpl; unfold bind.
  - destruct (Hx n) as [e ->]. eauto.
  - destruct (f x n) as [[y n1]|e]; [|eauto].
    destruct (IH n1) as [e ->]. eauto.
Qed.

(** A mappable collection is mapped, an unmappable one ends the request. *)
Lemma array_map_mappable (f : JValue -> M JValue) o n :
  (forall x k, x <> JNull -> exists y k', f x k = Normal (y, k')) ->
  mappable o = true ->
  exists ys n', array_map f (or_else o (JArr [])) n = Normal (JArr ys, n').
Proof.
  intros Hf Ho.
  assert (forall xs, forallb (fun x => match x with JNull => false | _ => true end) xs = true ->
            exists ys n', array_map f (JArr xs) n = Normal (JArr ys, n')) as Harr.
  { intros xs Hxs. destruct (mapM_total f xs) with (n := n) as (ys & n' & Hys).
    - rewrite forallb_forall in Hxs. apply Forall_forall. intros x Hx k.
      apply Hf. intros ->. by apply Hxs in Hx.
    - exists ys, n'. simpl. unfold bind. by rewrite Hys. }
  unfold mappable in Ho. unfold or_else.
  destruct o as [[| | | |xs|]|]; simpl in *; try done;
    try (by apply negb_true_iff in Ho as ->; apply (Harr []));
    try (by apply (Harr [])).
  by apply Harr.
Qed.

Lemma array_map_unmappable (f : JValue -> M JValue) o n :
  (forall k, exists e, f JNull k = Throw e) ->
  mappable o = false ->
  exists e, array_map f (or_else o (JArr [])) n = Throw e.
Proof.
  intros Hf Ho. unfold mappable in Ho. unfold or_else.
  destruct o as [[| | | |xs|]|]; simpl in *;
    try (apply negb_false_iff in Ho; rewrite Ho); try done; try (by eexists).
  unfold bind.
  destruct (mapM_throws f xs) with (n := n) as [e ->]; [|eauto].
  induction xs as [|x xs IH]; [done|]. simpl in Ho.
  destruct x; try (by apply Exists_cons_tl, IH). by apply Exists_cons_hd.
Qed.

Lemma fix_constraint_null eng text k : exists e, fix_constraint eng text JNull k = Throw e.
Proof. by eexists. Qed.

Lemma fix_scored_null eng score k : exists e, fix_scored eng score JNull k = Throw e.
Proof. by eexists. Qed.

Lemma reconcile_parsed eng text answer aiOutput v n :
  stripCodeFence answer = Normal aiOutput ->
  JSON_parse eng aiOutput = Some v ->
  v <> JNull ->
  reconcile eng text answer n =
    post_process eng text
      {| constraints := or_else (field v (js "constraints")) (JArr []);
         redundantGroups := or_else (field v (js "redundantGroups")) (JArr []);
         contradictions := or_else (field v (js "contradictions")) (JArr []);
         originalText := or_else (field v (js "originalText")) (JStr text) |} n.
Proof.
  intros Hstrip Hparse Hv. unfold reconcile.
  unfold bind at 1. rewrite Hstrip. unfold lift at 1.
  unfold bind at 1. unfold parse_or_fallback. rewrite Hparse. unfold ret at 1.
  unfold bind at 1. unfold lift at 1. unfold ensure_properties.
  by rewrite !(Get_field v) by done.
Qed.

Lemma reconcile_null eng text answer aiOutput n :
  stripCodeFence answer = Normal aiOutput ->
  JSON_parse eng aiOutput = Some JNull ->
  exists e, reconcile eng text answer n = Throw e.
Proof.
  intros Hstrip Hparse. unfold reconcile.
  unfold bind at 1. rewrite Hstrip. unfold lift at 1.
  unfold bind at 1. unfold parse_or_fallback. rewrite Hparse. by eexists.
Qed.

(** Reconciliation of a parsed answer returns exactly when the answer is
    processable. *)
Lemma reconcile_processable eng text answer aiOutput v n :
  stripCodeFence answer = Normal aiOutput ->
  JSON_parse eng aiOutput = Some v ->
  if processable v
  then exists result n', reconcile eng text answer n = Normal (result, n')
  else exists e, reconcile eng text answer n = Throw e.
Proof.
  intros Hstrip Hparse.
  assert (v = JNull \/ v <> JNull) as [->|Hv] by (destruct v; auto).
  { by apply (reconcile_null eng text answer aiOutput). }
  rewrite (reconcile_parsed eng text answer aiOutput v n) by done.
  replace (processable v)
    with (mappable (field v (js "constraints"))
          && mappable (field v (js "redundantGroups"))
          && mappable (field v (js "contradictions"))) by (by destruct v).
  unfold post_process, bind.
  cbn [constraints redundantGroups contradictions originalText].
  destruct (mappable (field v (js "constraints"))) eqn:Hc.
  - destruct (array_map_mappable (fix_constraint eng text) _ n
                (fun x k Hx => fix_constraint_total eng text x k Hx) Hc)
      as (cs & n1 & ->).
    destruct (mappable (field v (js "redundantGroups"))) eqn:Hg.
    + destruct (array_map_mappable (fix_group eng) _ n1
                  (fun x k Hx => fix_scored_total eng _ x k Hx) Hg)
        as (gs & n2 & ->).
      destruct (mappable (field v (js "contradictions"))) eqn:Hk.
      * destruct (array_map_mappable (fix_contradiction eng) _ n2
                    (fun x k Hx => fix_scored_total eng _ x k Hx) Hk)
          as (ks & n3 & ->).
        simpl. unfold ret. eauto.
      * destruct (array_map_unmappable (fix_contradiction eng) _ n2
                    (fix_scored_null eng _) Hk) as (e & ->).
        simpl. eauto.
    + destruct (array_map_unmappable (fix_group eng) _ n1
                  (fix_scored_null eng _) Hg) as (e & ->).
      simpl. eauto.
  - destruct (array_map_unmappable (fix_constraint eng text) _ n
                (fix_constraint_null eng text) Hc) as (e & ->).
    simpl. eauto.
Qed.

(** ** The responses of the handler *)

Lemma prepare_early eng w ev r :
  prepare eng w ev = Normal (inl r) ->
  exists code message,
    r = error_response code message /\ (code = 400 \/ code = 500)%Z.
Proof.
  unfold prepare. intros H.
  repeat case_match; simplify_eq; eauto.
Qed.

Lemma handler_after_prepare eng w ev text answer :
  httpMethod ev = js "POST" ->
  prepare eng w ev = Normal (inr (text, answer)) ->
  handler eng w ev =
    match reconcile eng text answer 0%nat with
    | Normal (a, _) =>
        {| statusCode := 200; headers := success_headers; payload := to_json a |}
    | Throw e => failure_response eng e
    end.
Proof.
  intros Hpost Hprep. unfold handler, handle_post.
  rewrite decide_True by done.
  unfold bind at 1. unfold lift. rewrite Hprep.
  unfold bind. by destruct (reconcile eng text answer 0%nat) as [[a k]|e].
Qed.

(** Every response is one of the five the source writes out. *)
Lemma handler_cases eng w ev :
  (exists code message,
      handler eng w ev = error_response code message /\
      (code = 405 \/ code = 400 \/ code = 500)%Z) \/
  (exists e, handler eng w ev = failure_response eng e) \/
  (exists a, handler eng w ev =
             {| statusCode := 200; headers := success_headers; payload := to_json a |}).
Proof.
  unfold handler. destruct (decide (httpMethod ev = js "POST")) as [Hpost|_].
  - unfold handle_post, bind, lift.
    destruct (prepare eng w ev) as [[r|[text answer]]|e] eqn:Hprep.
    + left. apply prepare_early in Hprep as (code & msg & -> & Hcode).
      exists code, msg. unfold ret. split; [done|]. destruct Hcode; auto.
    + destruct (reconcile eng text answer 0%nat) as [[a k]|e]; [|by right; left; eauto].
      right; right. by exists a.
    + right; left. eauto.
  - left. exists 405%Z, (js "Method not allowed"). auto.
Qed.

(** C9 (amended). Every response of the handler carries
    [Access-Control-Allow-Origin: *] (and [Content-Type: application/json]);
    the 200 response also carries [Access-Control-Allow-Headers: Content-Type]
    and [Access-Control-Allow-Methods: POST, OPTIONS], while the 405, 400
    and 500 responses carry no other header than the first two. *)
Theorem handler_cors_headers (eng : Engine) (w : World) (ev : Event) :
  let r := handler eng w ev in
  has_header r "Access-Control-Allow-Origin" "*" = true /\
  has_header r "Content-Type" "application/json" = true /\
  (statusCode r = 200 \/ statusCode r = 400 \/ statusCode r = 405 \/ statusCode r = 500)%Z /\
  (statusCode r = 200%Z -> headers r = success_headers /\ carries_cors_headers r = true) /\
  (statusCode r <> 200%Z -> headers r = basic_headers /\ carries_cors_headers r = false).
Proof.
  intros r. subst r.
  destruct (handler_cases eng w ev)
    as [(code & msg & Hr & Hcode)|[(e & Hr)|(a & Hr)]]; rewrite Hr; simpl.
  - destruct Hcode as [-> | [-> | ->]]; repeat split; try done; auto.
  - repeat split; try done; auto.
  - repeat split; try done; auto.
Qed.

Lemma handler_cors_headers_witness :
  carries_cors_headers
    (handler sample_engine (answering (jq "{'constraints': []}")) (post_cohere "abc")) = true.
Proof.
  apply (handler_cors_headers sample_engine (answering (jq "{'constraints': []}"))
           (post_cohere "abc")).
  reflexivity.
Defined.

(** C9 (as stated) fails: a GET request is answered 405, a request for an
    unknown provider 400, a request whose provider has no credential 500,
    and none of these responses carries [Access-Control-Allow-Headers] or
    [Access-Control-Allow-Methods]. *)
Lemma error_responses_lack_cors_headers :
  let get := {| httpMethod := js "GET"; body := None |} in
  let unknown :=
    {| httpMethod := js "POST";
       body := Some (jq "{'providerName': 'FooAI', 'inputText': 'abc'}") |} in
  let no_key := {| env := fun _ => None; fetched := NetworkFailure [] |} in
  (statusCode (handler sample_engine (answering []) get) = 405%Z /\
   carries_cors_headers (handler sample_engine (answering []) get) = false) /\
  (statusCode (handler sample_engine (answering []) unknown) = 400%Z /\
   carries_cors_headers (handler sample_engine (answering []) unknown) = false) /\
  (statusCode (handler sample_engine no_key (post_cohere "abc")) = 500%Z /\
   carries_cors_headers (handler sample_engine no_key (post_cohere "abc")) = false).
Proof. vm_compute. repeat split. Qed.

(** ** The handler on a request that reaches reconciliation *)

Lemma parse_or_fallback_parsed eng text aiOutput v n :
  JSON_parse eng aiOutput = Some v ->
  parse_or_fallback eng text aiOutput n = Normal (v, n).
Proof. unfold parse_or_fallback. by intros ->. Qed.

Lemma handler_reconciled eng w ev text answer :
  httpMethod ev = js "POST" ->
  prepare eng w ev = Normal (inr (text, answer)) ->
  (exists aiOutput cand n1 result n',
      stripCodeFence answer = Normal aiOutput /\
      parse_or_fallback eng text aiOutput 0%nat = Normal (cand, n1) /\
      reconcile eng text answer 0%nat = Normal (result, n') /\
      handler eng w ev =
        {| statusCode := 200; headers := success_headers; payload := to_json result |}) \/
  (exists aiOutput v e,
      stripCodeFence answer = Normal aiOutput /\
      JSON_parse eng aiOutput = Some v /\
      reconcile eng text answer 0%nat = Throw e /\
      handler eng w ev = failure_response eng e).
Proof.
  intros Hpost Hprep. rewrite (handler_after_prepare _ _ _ _ _ Hpost Hprep).
  destruct (reconcile eng text answer 0%nat) as [[result n']|e] eqn:Hrec.
  - left. destruct (reconcile_Normal _ _ _ _ _ _ Hrec)
      as (aiOutput & cand & a & n1 & Hs & Hp & _ & _).
    exists aiOutput, cand, n1, result, n'. done.
  - right. destruct (stripCodeFence_total answer) as (aiOutput & Hs & _).
    destruct (JSON_parse eng aiOutput) as [v|] eqn:Hparse.
    + exists aiOutput, v, e. done.
    + destruct (reconcile_fallback_total eng text answer aiOutput 0%nat Hs Hparse)
        as (a & n' & Ha). congruence.
Qed.

Lemma fix_constraint_rest eng text x n y n' :
  fix_constraint eng text x n = Normal (y, n') ->
  rest_unchanged [js "id"; js "sourceStart"; js "sourceEnd"] x y.
Proof.
  intros (_ & id & -> & _)%fix_constraint_Normal.
  eexists. split; [done|]. intros ms ->.
  rewrite !kept_set; [done|by repeat constructor..].
Qed.

Lemma fix_scored_rest eng score x n y n' :
  fix_scored eng score x n = Normal (y, n') ->
  rest_unchanged [js "id"; score] x y.
Proof.
  intros (_ & id & -> & _)%fix_scored_Normal.
  eexists. split; [done|]. intros ms ->.
  rewrite !kept_set; [done|by repeat constructor..].
Qed.

(** C10. Post-processing is field-local, up to the API response.  When the
    provider's answer parses, the handler answers 200 exactly when
    post-processing gets through the answer, and then each collection of
    the response body holds one object for each element of that collection
    in the answer, in the same order; where the element of the answer is an
    object, the members of the object of the response other than [id],
    [sourceStart], [sourceEnd] (constraints), [id], [similarity] (groups),
    [id], [confidence] (contradictions) are those of the answer, with the
    same values and in the same order, whether or not the schema declares
    them. *)
Theorem handler_field_local (eng : Engine) (w : World) (ev : Event)
    (text answer aiOutput : jsstring) (v : JValue) :
  httpMethod ev = js "POST" ->
  prepare eng w ev = Normal (inr (text, answer)) ->
  stripCodeFence answer = Normal aiOutput ->
  JSON_parse eng aiOutput = Some v ->
  (statusCode (handler eng w ev) = 200%Z <-> processable v = true) /\
  (statusCode (handler eng w ev) = 200%Z ->
   forall coll touched xs,
     In (coll, touched)
        [(js "constraints", [js "id"; js "sourceStart"; js "sourceEnd"]);
         (js "redundantGroups", [js "id"; js "similarity"]);
         (js "contradictions", [js "id"; js "confidence"])] ->
     field v coll = Some (JArr xs) ->
     exists ys,
       field (payload (handler eng w ev)) coll = Some (JArr ys) /\
       Forall2 (rest_unchanged touched) xs ys).
Proof.
  intros Hpost Hprep Hs Hparse.
  rewrite (handler_after_prepare _ _ _ _ _ Hpost Hprep).
  pose proof (reconcile_processable eng text answer aiOutput v 0%nat Hs Hparse) as Hrec.
  destruct (processable v); [|by destruct Hrec as (e & ->)].
  destruct Hrec as (result & n' & Hrec). rewrite Hrec.
  split; [done|]. intros _.
  destruct (reconciled_candidate eng text answer aiOutput v result 0%nat 0%nat n' Hs
              (parse_or_fallback_parsed _ _ _ _ _ Hparse) Hrec)
    as (cs & gs & ks & cs' & gs' & ks' & m1 & m2 & Hc & Hg & Hk & -> & H1 & H2 & H3).
  intros coll touched xs [[= <- <-]|[[= <- <-]|[[= <- <-]|[]]]] Hxs;
    rewrite Hxs in *.
  - injection Hc as <-. exists cs'. split; [done|].
    eapply mapM_Forall2; [|exact H1]. apply fix_constraint_rest.
  - injection Hg as <-. exists gs'. split; [done|].
    eapply mapM_Forall2; [|exact H2]. intros *. apply fix_scored_rest.
  - injection Hk as <-. exists ks'. split; [done|].
    eapply mapM_Forall2; [|exact H3]. intros *. apply fix_scored_rest.
Qed.

Lemma handler_field_local_witness :
  let r := handler sample_engine (answering sample_answer)
             (post_cohere "Books must have a title") in
  statusCode r = 200%Z /\
  element_field r (js "constraints") 0 (js "category") = Some (JStr (js "format")) /\
  element_field r (js "redundantGroups") 0 (js "note") = Some (JStr (js "n")).
Proof.
  intros r.
  destruct (handler_field_local sample_engine (answering sample_answer)
              (post_cohere "Books must have a title") sample_text sample_answer
              sample_answer sample_candidate) as [Hstatus Hrest]; [reflexivity..|].
  apply proj2 in Hstatus. specialize (Hstatus eq_refl). specialize (Hrest Hstatus).
  split; [exact Hstatus|]. subst r. unfold element_field, element_field_of.
  split.
  - destruct (Hrest (js "constraints") [js "id"; js "sourceStart"; js "sourceEnd"] _
                (or_introl eq_refl) eq_refl) as (ys & -> & Hys).
    apply Forall2_cons_inv_l in Hys as (y & ys' & (ms' & -> & Hy) & _ & ->).
    cbn [lookup list_lookup field].
    rewrite (kept_lookup [js "id"; js "sourceStart"; js "sourceEnd"] (js "category") _ _
               ltac:(vm_compute; intros H; repeat (apply elem_of_cons in H as [H|H];
                       [discriminate H|]); by apply elem_of_nil in H)
               (Hy _ eq_refl)).
    reflexivity.
  - destruct (Hrest (js "redundantGroups") [js "id"; js "similarity"] _
                (or_intror (or_introl eq_refl)) eq_refl) as (ys & -> & Hys).
    apply Forall2_cons_inv_l in Hys as (y & ys' & (ms' & -> & Hy) & _ & ->).
    cbn [lookup list_lookup field].
    rewrite (kept_lookup [js "id"; js "similarity"] (js "note") _ _
               ltac:(vm_compute; intros H; repeat (apply elem_of_cons in H as [H|H];
                       [discriminate H|]); by apply elem_of_nil in H)
               (Hy _ eq_refl)).
    reflexivity.
Defined.

(** C5 (amended). When the handler answers 200, [originalText] is the input
    text of the request whenever the provider's answer fails to parse, or
    parses to a value without a truthy [originalText]; a truthy
    [originalText] of the parsed answer is returned in its place. *)
Theorem handler_originalText (eng : Engine) (w : World) (ev : Event)
    (text answer aiOutput : jsstring) :
  httpMethod ev = js "POST" ->
  prepare eng w ev = Normal (inr (text, answer)) ->
  stripCodeFence answer = Normal aiOutput ->
  statusCode (handler eng w ev) = 200%Z ->
  (JSON_parse eng aiOutput = None ->
   field (payload (handler eng w ev)) (js "originalText") = Some (JStr text)) /\
  (forall v, JSON_parse eng aiOutput = Some v ->
     ToBoolean (field v (js "originalText")) = false ->
     field (payload (handler eng w ev)) (js "originalText") = Some (JStr text)) /\
  (forall v x, JSON_parse eng aiOutput = Some v ->
     field v (js "originalText") = Some x -> ToBoolean (Some x) = true ->
     field (payload (handler eng w ev)) (js "originalText") = Some x).
Proof.
  intros Hpost Hprep Hstrip Hstatus.
  destruct (handler_reconciled _ _ _ _ _ Hpost Hprep)
    as [(ai & cand & n1 & result & n' & Hs & Hp & Hrec & Hh)
       |(ai & v & e & _ & _ & _ & Hh)];
    rewrite Hh in *; [|done].
  rewrite Hstrip in Hs. injection Hs as <-.
  destruct (reconciled_candidate _ _ _ _ _ _ _ _ _ Hstrip Hp Hrec)
    as (cs & gs & ks & cs' & gs' & ks' & m1 & m2 & _ & _ & _ & -> & _).
  change (field (payload _) (js "originalText"))
    with (Some (or_else (field cand (js "originalText")) (JStr text))).
  repeat split.
  - intros Hparse. unfold parse_or_fallback in Hp. rewrite Hparse in Hp.
    apply fallback_Normal in Hp as (basics & -> & _).
    change (field _ (js "originalText")) with (Some (JStr text)).
    by rewrite or_else_same.
  - intros v Hparse Hfalsy.
    rewrite (parse_or_fallback_parsed _ _ _ _ _ Hparse) in Hp. injection Hp as <- <-.
    unfold or_else. destruct (field v (js "originalText")); [|done]. by rewrite Hfalsy.
  - intros v x Hparse Hx Htruthy.
    rewrite (parse_or_fallback_parsed _ _ _ _ _ Hparse) in Hp. injection Hp as <- <-.
    unfold or_else. by rewrite Hx, Htruthy.
Qed.

Lemma handler_originalText_witness :
  field (payload (handler sample_engine (answering (js "no json here")) (post_cohere "abc")))
        (js "originalText") = Some (JStr (js "abc")).
Proof.
  apply (handler_originalText sample_engine (answering (js "no json here"))
           (post_cohere "abc") (js "abc") (js "no json here") (js "no json here"));
    reflexivity.
Defined.

(** C5 (as stated) fails: the answer's own [originalText] is returned, not
    the input text of the request. *)
Lemma originalText_not_echoed :
  let r := handler sample_engine (answering (jq "{'originalText': 'other'}"))
                   (post_cohere "abc") in
  statusCode r = 200%Z /\
  field (payload r) (js "originalText") = Some (JStr (js "other")) /\
  field (payload r) (js "originalText") <> Some (JStr (js "abc")).
Proof. vm_compute. repeat split. discriminate. Qed.

Lemma failure_response_payload eng e :
  exists message,
    message <> [] /\
    payload (failure_response eng e) =
      JObj [(js "error", JStr message); (js "constraints", JArr []);
            (js "redundantGroups", JArr []); (js "contradictions", JArr []);
            (js "originalText", JStr [])].
Proof.
  unfold failure_response, or_else. cbn [payload].
  destruct (message_of eng e) as [|c m]; simpl;
    (eexists; split; [|reflexivity]; done).
Qed.

Lemma mapM_length {A B} (f : A -> M B) xs n ys n' :
  mapM f xs n = Normal (ys, n') -> length ys = length xs.
Proof.
  intros H. symmetry. eapply Forall2_length.
  apply (mapM_Forall2 f (fun _ _ => True)) in H; [exact H|done].
Qed.

Lemma or_else_falsy o d : ToBoolean o = false -> or_else o d = d.
Proof. unfold or_else. destruct o; [|done]. by intros ->. Qed.

(** C1 (amended). For a request that reaches reconciliation, whatever the
    provider's text, the handler answers 200 with a body of exactly the four
    fields, the three collections being sequences, or 500 with a body that
    has a non-empty error message besides the four fields at their empty
    defaults; which of the two is settled by the text alone.  It answers
    200 when the text fails to parse: the groups and contradictions are
    then empty and [originalText] is the input text.  It answers 200 when
    the text parses to a value other than [null] each of whose three
    collections is absent, falsy, or a sequence without a [null] element:
    a collection that is absent or falsy in the answer is then the empty
    sequence, a sequence of the answer comes back with as many elements,
    and [originalText] is the answer's own when that is truthy (of whatever
    type), the input text otherwise.  It answers 500 for every other parsed
    answer: a wrong-shaped collection is not replaced. *)
Theorem handler_result_shape (eng : Engine) (w : World) (ev : Event)
    (text answer : jsstring) :
  httpMethod ev = js "POST" ->
  prepare eng w ev = Normal (inr (text, answer)) ->
  exists aiOutput,
    stripCodeFence answer = Normal aiOutput /\
    match JSON_parse eng aiOutput with
    | None =>
        statusCode (handler eng w ev) = 200%Z /\
        exists cs,
          payload (handler eng w ev) =
            JObj [(js "constraints", JArr cs); (js "redundantGroups", JArr []);
                  (js "contradictions", JArr []); (js "originalText", JStr text)]
    | Some v =>
        if processable v then
          statusCode (handler eng w ev) = 200%Z /\
          exists cs gs ks o,
            payload (handler eng w ev) =
              JObj [(js "constraints", JArr cs); (js "redundantGroups", JArr gs);
                    (js "contradictions", JArr ks); (js "originalText", o)] /\
            (forall k ys,
               In (k, ys) [(js "constraints", cs); (js "redundantGroups", gs);
                           (js "contradictions", ks)] ->
               (ToBoolean (field v k) = false -> ys = []) /\
               (forall xs, field v k = Some (JArr xs) -> length ys = length xs)) /\
            (ToBoolean (field v (js "originalText")) = false -> o = JStr text) /\
            (forall x, field v (js "originalText") = Some x ->
                       ToBoolean (Some x) = true -> o = x)
        else
          statusCode (handler eng w ev) = 500%Z /\
          exists message,
            message <> [] /\
            payload (handler eng w ev) =
              JObj [(js "error", JStr message); (js "constraints", JArr []);
                    (js "redundantGroups", JArr []); (js "contradictions", JArr []);
                    (js "originalText", JStr [])]
    end.
Proof.
  intros Hpost Hprep.
  destruct (stripCodeFence_total answer) as (ai & Hs & _).
  exists ai. split; [done|].
  rewrite (handler_after_prepare _ _ _ _ _ Hpost Hprep).
  destruct (JSON_parse eng ai) as [v|] eqn:Hparse.
  - pose proof (reconcile_processable eng text answer ai v 0%nat Hs Hparse) as Hrec.
    destruct (processable v).
    + destruct Hrec as (result & n' & Hrec). rewrite Hrec. split; [done|].
      destruct (reconciled_candidate eng text answer ai v result 0%nat 0%nat n' Hs
                  (parse_or_fallback_parsed _ _ _ _ _ Hparse) Hrec)
        as (cs & gs & ks & cs' & gs' & ks' & m1 & m2 & Hc & Hg & Hk & -> & H1 & H2 & H3).
      exists cs', gs', ks', (or_else (field v (js "originalText")) (JStr text)).
      split; [reflexivity|].
      assert (forall (f : JValue -> M JValue) o xs ys k k',
                or_else o (JArr []) = JArr xs -> mapM f xs k = Normal (ys, k') ->
                (ToBoolean o = false -> ys = []) /\
                (forall xs0, o = Some (JArr xs0) -> length ys = length xs0)) as Hcoll.
      { intros f o xs ys k k' Ho Hm. split.
        - intros Hf. rewrite (or_else_falsy _ _ Hf) in Ho. injection Ho as <-.
          by apply ret_Normal in Hm as [-> _].
        - intros xs0 ->. injection Ho as <-. by eapply mapM_length. }
      split; [|split].
      * intros k ys [[= <- <-]|[[= <- <-]|[[= <- <-]|[]]]]; eauto.
      * intros Hf. by apply or_else_falsy.
      * intros x Hx Ht. unfold or_else. by rewrite Hx, Ht.
    + destruct Hrec as (e & ->). split; [done|]. apply failure_response_payload.
  - destruct (reconcile_fallback_total eng text answer ai 0%nat Hs Hparse)
      as (result & n' & Hrec).
    rewrite Hrec. split; [done|].
    assert (parse_or_fallback eng text ai 0%nat = fallback eng text ai 0%nat) as Hpf.
    { unfold parse_or_fallback. by rewrite Hparse. }
    destruct (fallback_total eng text ai 0%nat) as (cand & n1 & Hcand).
    rewrite <- Hpf in Hcand.
    destruct (reconciled_candidate eng text answer ai cand result 0%nat n1 n' Hs Hcand Hrec)
      as (cs & gs & ks & cs' & gs' & ks' & m1 & m2 & Hc & Hg & Hk & -> & H1 & H2 & H3).
    rewrite Hpf in Hcand.
    apply fallback_Normal in Hcand as (basics & -> & _).
    injection Hg as <-. injection Hk as <-.
    apply ret_Normal in H2 as [-> ->]. apply ret_Normal in H3 as [-> ->].
    exists cs'. unfold to_json. cbn [payload constraints redundantGroups contradictions
                                     originalText].
    change (field _ (js "originalText")) with (Some (JStr text)).
    by rewrite or_else_same.
Qed.

Lemma handler_result_shape_witness :
  let r := handler sample_engine (answering sample_answer)
             (post_cohere "Books must have a title") in
  statusCode r = 200%Z /\
  exists cs gs ks,
    payload r =
      JObj [(js "constraints", JArr cs); (js "redundantGroups", JArr gs);
            (js "contradictions", JArr ks);
            (js "originalText", JStr (js "Books must have a title"))] /\
    length cs = 2%nat /\ length gs = 2%nat /\ length ks = 1%nat.
Proof.
  intros r.
  destruct (handler_result_shape sample_engine (answering sample_answer)
              (post_cohere "Books must have a title") sample_text sample_answer)
    as (ai & Hs & H); [reflexivity..|].
  vm_compute in Hs. injection Hs as <-.
  change (JSON_parse sample_engine _) with (Some sample_candidate) in H.
  change (processable sample_candidate) with true in H. cbv iota in H.
  destruct H as (Hstatus & cs & gs & ks & o & Hpayload & Hcoll & _ & Ho).
  split; [exact Hstatus|].
  assert (o = JStr (js "Books must have a title")) as -> by (apply Ho; reflexivity).
  exists cs, gs, ks. split; [|split; [|split]].
  - exact Hpayload.
  - by rewrite (proj2 (Hcoll _ _ (or_introl eq_refl)) _ eq_refl).
  - by rewrite (proj2 (Hcoll _ _ (or_intror (or_introl eq_refl))) _ eq_refl).
  - by rewrite (proj2 (Hcoll _ _ (or_intror (or_intror (or_introl eq_refl)))) _ eq_refl).
Defined.

(** C1 (as stated) fails.  An [originalText] of the wrong shape in the
    answer is returned as it is, a number where a string is declared; a
    [constraints] of the wrong shape is not replaced by the empty sequence
    but ends the request with a 500 whose body has a fifth field. *)
Lemma wrong_shape_not_substituted :
  let number := handler sample_engine (answering (jq "{'originalText': 5}"))
                        (post_cohere "abc") in
  let text := handler sample_engine (answering (jq "{'constraints': 'none'}"))
                      (post_cohere "abc") in
  (statusCode number = 200%Z /\
   field (payload number) (js "originalText") = Some (JNum 5) /\
   declared_shape (payload number) = false) /\
  (statusCode text = 500%Z /\
   field (payload text) (js "error") = Some (JStr (js "TypeError")) /\
   declared_shape (payload text) = false).
Proof. vm_compute. repeat split. Qed.

Lemma reconcile_scores_witness :
  exists gs' ks',
    redundantGroups sample_result = JArr gs' /\
    contradictions sample_result = JArr ks' /\
    (forall gs, field sample_candidate (js "redundantGroups") = Some (JArr gs) ->
       Forall2 (score_rule (js "similarity")) gs gs' /\
       (Forall (score_missing_or_in_range (js "similarity")) gs ->
        Forall (fun g => in_unit_interval (field g (js "similarity")) = true) gs')) /\
    (forall ks, field sample_candidate (js "contradictions") = Some (JArr ks) ->
       Forall2 (score_rule (js "confidence")) ks ks' /\
       (Forall (score_missing_or_in_range (js "confidence")) ks ->
        Forall (fun k => in_unit_interval (field k (js "confidence")) = true) ks')) /\
    (missing (field sample_candidate (js "redundantGroups")) -> gs' = []) /\
    (missing (field sample_candidate (js "contradictions")) -> ks' = []).
Proof.
  apply (reconcile_scores sample_engine sample_text sample_answer sample_answer
           sample_candidate sample_result 0 0 2); vm_compute; reflexivity.
Defined.

(** C2 (as stated) fails: a similarity of 1.5 and a confidence of -3 are
    out of [[0,1]] and are returned as they are. *)
Lemma score_out_of_range_kept :
  let r := handler sample_engine
             (answering (jq "{'redundantGroups': [{'id': 'g1', 'constraints': [], 'similarity': 1.5}], 'contradictions': [{'id': 'k1', 'confidence': -3}]}"))
             (post_cohere "abc") in
  statusCode r = 200%Z /\
  element_field r (js "redundantGroups") 0 (js "similarity") = Some (JNum (3 # 2)) /\
  in_unit_interval (element_field r (js "redundantGroups") 0 (js "similarity")) = false /\
  element_field r (js "contradictions") 0 (js "confidence") = Some (JNum (-3)) /\
  in_unit_interval (element_field r (js "contradictions") 0 (js "confidence")) = false.
Proof. vm_compute. repeat split. Qed.

Lemma reconcile_spans_witness :
  exists cs' gs' ks',
    constraints sample_result = JArr cs' /\
    redundantGroups sample_result = JArr gs' /\
    contradictions sample_result = JArr ks' /\
    (forall cs, field sample_candidate (js "constraints") = Some (JArr cs) ->
       Forall2 (span_rule sample_text) cs cs' /\ Forall2 span_order_rule cs cs') /\
    (JSON_parse sample_engine sample_answer = None ->
       Forall (fun c => field c (js "sourceStart") = Some (number_of_nat 0) /\
                        field c (js "sourceEnd") =
                          Some (number_of_nat (length sample_text)) /\
                        ordered_span c = true) cs') /\
    (forall gs, field sample_candidate (js "redundantGroups") = Some (JArr gs) ->
       Forall2 (member_copied (js "constraints")) gs gs') /\
    (forall ks, field sample_candidate (js "contradictions") = Some (JArr ks) ->
       Forall2 (fun k k' => member_copied (js "constraint1") k k' /\
                            member_copied (js "constraint2") k k') ks ks').
Proof.
  apply (reconcile_spans sample_engine sample_text sample_answer sample_answer
           sample_candidate sample_result 0 0 2); vm_compute; reflexivity.
Defined.

(** C8 (as stated) fails: offsets 7 and 2 supplied by the model are returned
    as they are, with [sourceStart] above [sourceEnd]; and a constraint
    nested in a redundant group that has no offsets comes back without
    them, so it has no span at all. *)
Lemma span_disorder_kept :
  let r := handler sample_engine
             (answering (jq "{'constraints': [{'id': 'c1', 'text': 't', 'sourceStart': 7, 'sourceEnd': 2}], 'redundantGroups': [{'id': 'g1', 'constraints': [{'id': 'c2', 'text': 'u'}], 'similarity': 0.5}]}"))
             (post_cohere "abc") in
  statusCode r = 200%Z /\
  element_field r (js "constraints") 0 (js "sourceStart") = Some (JNum 7) /\
  element_field r (js "constraints") 0 (js "sourceEnd") = Some (JNum 2) /\
  Qle_bool 7 2 = false /\
  element_field r (js "redundantGroups") 0 (js "constraints") =
    Some (JArr [JObj [(js "id", JStr (js "c2")); (js "text", JStr (js "u"))]]) /\
  ordered_span (JObj [(js "id", JStr (js "c2")); (js "text", JStr (js "u"))]) = false.
Proof. vm_compute. repeat split. Qed.

(** C3: the code at a failing input.  The answer matches the schema and its
    contradiction has confidence 0; the response has 0.8 in its place, so it
    is not the parsed document. *)
Theorem zero_confidence_replaced :
  let r := handler sample_engine (answering zero_confidence_answer) (post_cohere "ab") in
  statusCode r = 200%Z /\
  (exists v, JSON_parse sample_engine zero_confidence_answer = Some v /\
     element_field_of v (js "contradictions") 0 (js "confidence") = Some (JNum 0) /\
     payload r <> v) /\
  element_field r (js "contradictions") 0 (js "confidence") = Some (JNum (4 # 5)).
Proof.
  split; [reflexivity|]. split; [|reflexivity].
  eexists. split; [vm_compute; reflexivity|]. split; [reflexivity|].
  vm_compute. discriminate.
Qed.

(** C4: the code at a failing input.  Both lines of the unparsable answer
    begin with the marker [-]; the first loses it, the second, whose marker
    no whitespace follows, keeps it in the text of its constraint. *)
Theorem bullet_marker_kept :
  let r := handler sample_engine (answering bullets_answer) (post_cohere "abc") in
  JSON_parse sample_engine bullets_answer = None /\
  statusCode r = 200%Z /\
  element_field r (js "constraints") 0 (js "text") = Some (JStr (js "first")) /\
  element_field r (js "constraints") 1 (js "text") = Some (JStr (js "-second")).
Proof. vm_compute. repeat split. Qed.

(** ** What does hold of the round trip and of the fallback *)

Lemma or_else_truthy x d : ToBoolean (Some x) = true -> or_else (Some x) d = x.
Proof. unfold or_else. by intros ->. Qed.

Lemma or_else_settled v d :
  (exists y, v = Some y /\ ToBoolean (Some y) = true) \/ v = Some d ->
  exists y, v = Some y /\ or_else v d = y.
Proof.
  intros [(y & -> & Hy)| ->].
  - exists y. by rewrite or_else_truthy.
  - exists d. by rewrite or_else_same.
Qed.

Lemma fix_constraint_settled eng text c n :
  settled_constraint text c -> fix_constraint eng text c n = Normal (c, n).
Proof.
  intros ([ms ->] & (id & Hid & Tid) & Hs & He).
  apply or_else_settled in Hs as (s & Hs & Hs').
  apply or_else_settled in He as (e & He & He').
  unfold fix_constraint. rewrite !Get_field by done.
  unfold bind, lift, or_uuid, ret. rewrite Hid, Tid, Hs', He'.
  rewrite field_obj in Hid, Hs, He. cbn [own_props].
  by rewrite (set_member_id _ _ _ Hid), (set_member_id _ _ _ Hs), (set_member_id _ _ _ He).
Qed.

Lemma fix_scored_settled eng score x n :
  settled_scored score x -> fix_scored eng score x n = Normal (x, n).
Proof.
  intros ([ms ->] & (id & Hid & Tid) & (s & Hs & Ts)).
  unfold fix_scored. rewrite !Get_field by done.
  unfold bind, lift, or_uuid, ret. rewrite Hid, Tid, Hs, (or_else_truthy _ _ Ts).
  rewrite field_obj in Hid, Hs. cbn [own_props].
  by rewrite (set_member_id _ _ _ Hid), (set_member_id _ _ _ Hs).
Qed.

Lemma mapM_fixed {A} (f : A -> M A) xs n :
  Forall (fun x => forall k, f x k = Normal (x, k)) xs -> mapM f xs n = Normal (xs, n).
Proof.
  induction 1 as [|x xs Hx _ IH]; [done|].
  simpl. unfold bind. by rewrite Hx, IH.
Qed.

(** The round trip of C3 where no default applies: an answer that has the
    four fields, a truthy [originalText], and elements whose identifiers,
    offsets and scores are all given and truthy (or the default itself) is
    returned as it was parsed, and no identifier is generated. *)
Lemma reconcile_roundtrip eng text answer aiOutput cs gs ks o n :
  stripCodeFence answer = Normal aiOutput ->
  JSON_parse eng aiOutput =
    Some (JObj [(js "constraints", JArr cs); (js "redundantGroups", JArr gs);
                (js "contradictions", JArr ks); (js "originalText", o)]) ->
  ToBoolean (Some o) = true ->
  Forall (settled_constraint text) cs ->
  Forall (settled_scored (js "similarity")) gs ->
  Forall (settled_scored (js "confidence")) ks ->
  exists result,
    reconcile eng text answer n = Normal (result, n) /\
    JSON_parse eng aiOutput = Some (to_json result).
Proof.
  intros Hstrip Hparse Ho Hcs Hgs Hks.
  exists {| constraints := JArr cs; redundantGroups := JArr gs;
            contradictions := JArr ks; originalText := o |}.
  split; [|done].
  unfold reconcile, parse_or_fallback.
  unfold bind at 1. rewrite Hstrip. unfold lift at 1.
  unfold bind at 1. rewrite Hparse. unfold ret at 1.
  unfold bind at 1. unfold lift at 1.
  change (ensure_properties text _)
    with (Normal {| constraints := JArr cs; redundantGroups := JArr gs;
                    contradictions := JArr ks;
                    originalText := or_else (Some o) (JStr text) |}).
  rewrite (or_else_truthy _ _ Ho).
  unfold post_process, array_map. cbn [constraints redundantGroups contradictions originalText].
  unfold bind.
  rewrite (mapM_fixed (fix_constraint eng text) cs n).
  2: { eapply Forall_impl; [|exact Hcs]. intros c Hc k. by apply fix_constraint_settled. }
  unfold ret at 1.
  rewrite (mapM_fixed (fix_group eng) gs n).
  2: { eapply Forall_impl; [|exact Hgs]. intros g Hg k. by apply fix_scored_settled. }
  unfold ret at 1.
  rewrite (mapM_fixed (fix_contradiction eng) ks n).
  2: { eapply Forall_impl; [|exact Hks]. intros g Hg k. by apply fix_scored_settled. }
  done.
Qed.

Lemma Forall2_compose {A B C} (P : A -> B -> Prop) (Q : B -> C -> Prop)
    (R : A -> C -> Prop) xs ys zs :
  (forall x y z, P x y -> Q y z -> R x z) ->
  Forall2 P xs ys -> Forall2 Q ys zs -> Forall2 R xs zs.
Proof.
  intros HR HP. revert zs. induction HP as [|x y xs ys Hxy _ IH]; intros zs HQ.
  - apply Forall2_nil_inv_l in HQ as ->. constructor.
  - apply Forall2_cons_inv_l in HQ as (z & zs' & Hyz & HQ & ->).
    constructor; eauto.
Qed.

Lemma fix_basic_shape eng text line b n c n' :
  basic_shape eng text line b ->
  fix_constraint eng text b n = Normal (c, n') ->
  basic_shape eng text line c.
Proof.
  intros [u ->] (_ & id & -> & ->)%fix_constraint_Normal.
  change (field (JObj _) (js "id")) with (Some (JStr u)).
  change (field (JObj _) (js "sourceEnd")) with (Some (number_of_nat (length text))).
  change (field (JObj _) (js "sourceStart")) with (Some (number_of_nat 0)).
  rewrite !or_else_same.
  destruct u as [|d u].
  - by exists (uuidv4 eng n).
  - by exists (d :: u).
Qed.

(** The fallback of C4 in general: when the stripped answer fails to parse,
    the handler answers 200; its constraints are, in order, one per line
    whose trimmed text begins with a marker, with a generated identifier, the
    span from 0 to the length of the input text and, as text, the line
    trimmed after the removal of a leading marker followed by whitespace;
    the two other collections are empty and [originalText] is the input. *)
Lemma handler_fallback_extraction eng w ev text answer aiOutput :
  httpMethod ev = js "POST" ->
  prepare eng w ev = Normal (inr (text, answer)) ->
  stripCodeFence answer = Normal aiOutput ->
  JSON_parse eng aiOutput = None ->
  exists cs,
    handler eng w ev =
      {| statusCode := 200; headers := success_headers;
         payload := JObj [(js "constraints", JArr cs);
                          (js "redundantGroups", JArr []);
                          (js "contradictions", JArr []);
                          (js "originalText", JStr text)] |} /\
    Forall2 (basic_shape eng text) (bullet_lines aiOutput) cs.
Proof.
  intros Hpost Hprep Hstrip Hparse.
  destruct (handler_reconciled _ _ _ _ _ Hpost Hprep)
    as [(ai & cand & n1 & result & n' & Hs & Hp & Hrec & Hh)
       |(ai & v & e & Hs & Hparse' & _ & _)];
    rewrite Hstrip in Hs; injection Hs as <-; [|congruence].
  destruct (reconciled_candidate _ _ _ _ _ _ _ _ _ Hstrip Hp Hrec)
    as (cs & gs & ks & cs' & gs' & ks' & m1 & m2 & Hc & Hg & Hk & -> & H1 & H2 & H3).
  unfold parse_or_fallback in Hp. rewrite Hparse in Hp.
  apply fallback_Normal in Hp as (basics & -> & Hb).
  injection Hc as <-. injection Hg as <-. injection Hk as <-.
  apply ret_Normal in H2 as [-> ->]. apply ret_Normal in H3 as [-> _].
  exists cs'. split.
  - rewrite Hh. unfold to_json. cbn [constraints redundantGroups contradictions originalText].
    change (field _ (js "originalText")) with (Some (JStr text)).
    by rewrite or_else_same.
  - eapply Forall2_compose; [|exact Hb|].
    2: { eapply mapM_Forall2; [|exact H1].
         intros b k c k' Hfix. exact (ex_intro _ k (ex_intro _ k' Hfix)). }
    intros line b c Hline (k & k' & Hfix). by eapply fix_basic_shape.
Qed.

Lemma strip_bullet_marker m ws rest :
  is_bullet m = true -> isWhiteSpace ws = true -> strip_bullet (m :: ws :: rest) = rest.
Proof. intros Hm Hws. simpl. by rewrite Hm, Hws. Qed.

(** * Further properties of the code *)

(** ** Trimming *)

Lemma trimEnd_idempotent s : trimEnd (trimEnd s) = trimEnd s.
Proof.
  induction s as [|c s IH]; [done|]. simpl.
  destruct (trimEnd s) as [|d r] eqn:E.
  - destruct (isWhiteSpace c) eqn:Ec; [done|]. simpl. by rewrite Ec.
  - change (trimEnd (c :: d :: r))
      with (match trimEnd (d :: r) with
            | [] => if isWhiteSpace c then [] else [c]
            | x :: r' => c :: x :: r'
            end).
    by rewrite IH.
Qed.

Lemma trimStart_head s :
  match trimStart s with
  | [] => True
  | c :: _ => isWhiteSpace c = false
  end.
Proof.
  induction s as [|c s IH]; [done|]. simpl.
  by destruct (isWhiteSpace c) eqn:E; [|simpl].
Qed.

Lemma trimEnd_head c s :
  isWhiteSpace c = false -> exists r, trimEnd (c :: s) = c :: r.
Proof. intros Hc. simpl. destruct (trimEnd s); rewrite ?Hc; eauto. Qed.

Lemma trimStart_trimmed s : trimStart (trim s) = trim s.
Proof.
  unfold trim. pose proof (trimStart_head s) as H.
  destruct (trimStart s) as [|c t]; [done|].
  destruct (trimEnd_head c t H) as [r ->]. simpl. by rewrite H.
Qed.

Lemma trim_idempotent s : trim (trim s) = trim s.
Proof.
  unfold trim at 1. rewrite trimStart_trimmed. unfold trim. apply trimEnd_idempotent.
Qed.

(** ** The answer of the provider *)

Lemma prepare_reaches eng w ev name p text :
  reaches_provider eng w ev name p text ->
  prepare eng w ev =
    match call_provider eng w p with
    | Normal answer => Normal (inr (text, answer))
    | Throw e => Throw e
    end.
Proof.
  intros (_ & b & request & key & Hb & Hparse & Hreq & Hname & Hp & Hkey & Hne & Htext).
  unfold prepare. rewrite Hb, Hparse, !(Get_field request) by done.
  rewrite Hname, Hp, Hkey, Htext. by destruct key.
Qed.

Lemma handler_provider_failure eng w ev name p text e :
  reaches_provider eng w ev name p text ->
  call_provider eng w p = Throw e ->
  handler eng w ev = failure_response eng e.
Proof.
  intros Hreach Hcall. pose proof (prepare_reaches _ _ _ _ _ _ Hreach) as Hprep.
  destruct Hreach as [Hpost _]. rewrite Hcall in Hprep.
  unfold handler, handle_post. rewrite decide_True by done.
  unfold bind, lift. by rewrite Hprep.
Qed.

Lemma extract_trimmed p data s : extract p data = Normal s -> trim s = s.
Proof.
  unfold extract. intros H. repeat case_match; simplify_eq.
  apply trim_idempotent.
Qed.

Lemma prepare_answer_trimmed eng w ev text answer :
  prepare eng w ev = Normal (inr (text, answer)) -> trim answer = answer.
Proof.
  unfold prepare, call_provider. intros H.
  repeat case_match; simplify_eq; by eapply extract_trimmed.
Qed.

(** X1. Code-fence stripping never fails: whenever the text contains a
    marker, the segment [split(...)[1]] it indexes exists; and what it
    returns contains no triple backtick. *)
Theorem stripCodeFence_never_fails (t : jsstring) :
  exists t', stripCodeFence t = Normal t' /\ includes fence t' = false.
Proof. apply stripCodeFence_total. Qed.

(** X2. The text the handler gives to [JSON.parse] has no leading and no
    trailing whitespace: the answer of the provider is trimmed when it is
    extracted, and a fenced part of it is trimmed again. *)
Theorem parsed_text_is_trimmed (eng : Engine) (w : World) (ev : Event)
    (text answer aiOutput : jsstring) :
  prepare eng w ev = Normal (inr (text, answer)) ->
  stripCodeFence answer = Normal aiOutput ->
  trim aiOutput = aiOutput.
Proof.
  intros Hprep%prepare_answer_trimmed Hstrip.
  destruct (stripCodeFence_cases answer)
    as [[_ H]|[(rest & _ & H)|(_ & rest & _ & H)]];
    rewrite H in Hstrip; injection Hstrip as <-;
    [done|apply trim_idempotent..].
Qed.

Lemma parsed_text_is_trimmed_witness :
  trim (jq "{'constraints': []}") = jq "{'constraints': []}".
Proof.
  apply (parsed_text_is_trimmed sample_engine
           (answering (jq "  Result: ```json {'constraints': []} ```  "))
           (post_cohere "abc") (js "abc")
           (jq "Result: ```json {'constraints': []} ```"));
    reflexivity.
Defined.

(** ** Which requests are rejected *)

Lemma prepare_invalid_provider eng w ev :
  (exists r, prepare eng w ev = Normal (inl r) /\ statusCode r = 400%Z) <->
  (exists b request name,
      body ev = Some b /\ JSON_parse eng b = Some request /\ request <> JNull /\
      text_of eng (field request (js "providerName")) = Normal name /\
      AI_PROVIDERS name = NotFound).
Proof.
  split.
  - intros (r & H & Hr). unfold prepare in H.
    destruct (body ev) as [b|] eqn:Hb; [|done].
    destruct (JSON_parse eng b) as [request|] eqn:Hparse; [|done].
    assert (request <> JNull) as Hreq.
    { intros ->. simpl in H. discriminate. }
    rewrite !(Get_field request) in H by done.
    destruct (text_of eng (field request (js "providerName"))) as [name|] eqn:Hname;
      [|done].
    exists b, request, name. repeat split; try done.
    repeat case_match; simplify_eq; done.
  - intros (b & request & name & Hb & Hparse & Hreq & Hname & Hp).
    eexists. unfold prepare.
    rewrite Hb, Hparse, !(Get_field request), Hname, Hp by done.
    done.
Qed.

Lemma prepare_unconvertible eng w ev b request e :
  body ev = Some b -> JSON_parse eng b = Some request -> request <> JNull ->
  text_of eng (field request (js "providerName")) = Throw e ->
  prepare eng w ev = Throw e.
Proof.
  intros Hb Hparse Hreq Hname. unfold prepare.
  by rewrite Hb, Hparse, !(Get_field request), Hname by done.
Qed.

(** X3. The handler answers 405 exactly when the method is not POST, and 400
    exactly when a POST body parses to a value, other than null, whose
    [providerName] converts to a property key that names no provider of the
    table (the names inherited from [Object.prototype] count as providers).
    A [providerName] that does not convert, an object with an own member
    [toString], makes the lookup itself throw: the answer is the 500 of the
    [catch]. *)
Theorem handler_rejections (eng : Engine) (w : World) (ev : Event) :
  (statusCode (handler eng w ev) = 405%Z <-> httpMethod ev <> js "POST") /\
  (statusCode (handler eng w ev) = 400%Z <->
   httpMethod ev = js "POST" /\
   exists b request name,
     body ev = Some b /\ JSON_parse eng b = Some request /\ request <> JNull /\
     text_of eng (field request (js "providerName")) = Normal name /\
     AI_PROVIDERS name = NotFound) /\
  (forall b request ms,
     httpMethod ev = js "POST" ->
     body ev = Some b -> JSON_parse eng b = Some request ->
     field request (js "providerName") = Some (JObj ms) ->
     is_Some (lookup_member (js "toString") ms) ->
     exists e, handler eng w ev = failure_response eng e).
Proof.
  unfold handler. destruct (decide (httpMethod ev = js "POST")) as [Hpost|Hpost].
  - assert (forall code,
      statusCode match handle_post eng w ev 0%nat with
                 | Normal (response, _) => response
                 | Throw e => failure_response eng e
                 end = code ->
      code <> 200%Z -> code <> 500%Z ->
      exists r, prepare eng w ev = Normal (inl r) /\ statusCode r = code) as Hinv.
    { intros code. unfold handle_post, bind, lift.
      destruct (prepare eng w ev) as [[r|[text answer]]|e]; simpl.
      - eauto.
      - destruct (reconcile eng text answer 0%nat) as [[a k]|e]; simpl; congruence.
      - congruence. }
    split; [|split]; [split|split|].
    + intros H. apply Hinv in H as (r & Hr & Hc); [|done..].
      apply prepare_early in Hr as (code & msg & -> & [-> | ->]); done.
    + done.
    + intros H. split; [done|]. apply (proj1 (prepare_invalid_provider eng w ev)).
      by apply Hinv.
    + intros [_ Hrhs]. apply (proj2 (prepare_invalid_provider eng w ev)) in Hrhs
        as (r & Hr & Hc).
      unfold handle_post, bind, lift. by rewrite Hr.
    + intros b request ms _ Hb Hparse Hname [x Hx].
      exists (TypeError "Cannot convert object to primitive value").
      assert (request <> JNull) as Hreq by (intros ->; discriminate Hname).
      unfold handle_post, bind, lift.
      rewrite (prepare_unconvertible eng w ev b request
                 (TypeError "Cannot convert object to primitive value")); try done.
      rewrite Hname. simpl. by rewrite Hx.
  - split; [|split]; [split; try done|split; try done|].
    + by intros [? _].
    + intros b request ms Hp. done.
Qed.

Lemma handler_rejections_witness :
  let ev := {| httpMethod := js "POST";
               body := Some (jq "{'providerName': {'toString': 1}, 'inputText': 'abc'}") |} in
  exists e, handler sample_engine (answering []) ev = failure_response sample_engine e.
Proof.
  intros ev.
  apply (proj2 (proj2 (handler_rejections sample_engine (answering []) ev))
           (jq "{'providerName': {'toString': 1}, 'inputText': 'abc'}")
           (JObj [(js "providerName", JObj [(js "toString", JNum 1)]);
                  (js "inputText", JStr (js "abc"))])
           [(js "toString", JNum 1)]); try reflexivity.
  by eexists.
Defined.

(** ** Error bodies *)

Lemma failure_response_message eng e :
  field (payload (failure_response eng e)) (js "error") =
  Some (or_else (Some (JStr (message_of eng e))) (JStr (js "Internal server error"))).
Proof. reflexivity. Qed.

Lemma failure_response_error eng e :
  exists m, field (payload (failure_response eng e)) (js "error") = Some (JStr m) /\ m <> [].
Proof.
  unfold failure_response, or_else. cbn [payload].
  destruct (message_of eng e) as [|c m] eqn:E.
  - by eexists.
  - exists (c :: m). done.
Qed.

(** X4. Every response other than 200 has a non-empty [error] string in its
    body, and the 200 response has no [error] member: a consumer can tell
    failure from success by that member alone. *)
Theorem handler_error_member (eng : Engine) (w : World) (ev : Event) :
  (statusCode (handler eng w ev) <> 200%Z ->
   exists m, field (payload (handler eng w ev)) (js "error") = Some (JStr m) /\ m <> []) /\
  (statusCode (handler eng w ev) = 200%Z ->
   field (payload (handler eng w ev)) (js "error") = None).
Proof.
  unfold handler. destruct (decide (httpMethod ev = js "POST")) as [Hpost|Hpost].
  - unfold handle_post, bind, lift.
    destruct (prepare eng w ev) as [[r|[text answer]]|e] eqn:Hprep.
    + assert (exists m, r = error_response (statusCode r) m /\ m <> []
                        /\ statusCode r <> 200%Z) as (m & Hr & Hm & Hs).
      { unfold prepare in Hprep. repeat case_match; simplify_eq;
          (eexists; split; [reflexivity|]; split; [|done]);
          try done; intros [_ Hnil]%app_eq_nil; discriminate Hnil. }
      unfold ret. split; [|done]. intros _. exists m. by rewrite Hr.
    + destruct (reconcile eng text answer 0%nat) as [[a k]|e]; cbn [ret].
      * split; [done|]. done.
      * split; [|done]. intros _. apply failure_response_error.
    + split; [|done]. intros _. apply failure_response_error.
  - split; [|done]. intros _. by eexists.
Qed.

Lemma handler_error_member_witness :
  exists m,
    field (payload (handler sample_engine (answering (js "null")) (post_cohere "abc")))
          (js "error") = Some (JStr m) /\ m <> [].
Proof.
  apply (handler_error_member sample_engine (answering (js "null")) (post_cohere "abc")).
  vm_compute. discriminate.
Defined.

(** X5. A POST request for a provider of the table whose credential is not
    configured (absent from the environment, or empty) is answered 500 with
    the message "<providerName> API key not configured", whatever the
    provider would have answered: the outcome of [fetch] plays no part. *)
Theorem missing_credential_response (eng : Engine) (w : World) (ev : Event)
    (b : jsstring) (request : JValue) (name : jsstring) (p : Provider) :
  httpMethod ev = js "POST" ->
  body ev = Some b -> JSON_parse eng b = Some request -> request <> JNull ->
  text_of eng (field request (js "providerName")) = Normal name ->
  AI_PROVIDERS name = Own p ->
  env w (envKey p) = None \/ env w (envKey p) = Some [] ->
  handler eng w ev = error_response 500 (name ++ js " API key not configured").
Proof.
  intros Hpost Hb Hparse Hreq Hname Hp Hkey.
  unfold handler, handle_post, bind, lift, prepare.
  rewrite decide_True, Hb, Hparse, !(Get_field request), Hname, Hp by done.
  by destruct Hkey as [-> | ->].
Qed.

Lemma missing_credential_response_witness :
  handler sample_engine {| env := fun _ => Some []; fetched := NetworkFailure [] |}
    (post_cohere "abc") =
  error_response 500 (js "Cohere API key not configured").
Proof.
  apply (missing_credential_response sample_engine
           {| env := fun _ => Some []; fetched := NetworkFailure [] |}
           (post_cohere "abc")
           (jq "{'providerName': 'Cohere', 'inputText': 'abc'}")
           (JObj [(js "providerName", JStr (js "Cohere"));
                  (js "inputText", JStr (js "abc"))])
           (js "Cohere") Cohere); try reflexivity; try done.
  by right.
Defined.

(** X6. When the provider answers with a status outside 200-299, the handler
    answers 500 and its [error] is the provider's own [error.message] when
    the provider's body has a non-empty string there, and "API request
    failed with status <status>" when the body is not JSON or has no
    [error] member. *)
Theorem provider_error_surfaced (eng : Engine) (w : World) (ev : Event)
    (name : jsstring) (p : Provider) (text : jsstring) (status : nat)
    (json : option JValue) :
  reaches_provider eng w ev name p text ->
  fetched w = HttpResponse status json ->
  (status < 200 \/ 299 < status)%nat ->
  statusCode (handler eng w ev) = 500%Z /\
  (forall d e m,
     json = Some d -> field d (js "error") = Some e ->
     field e (js "message") = Some (JStr m) -> m <> [] ->
     field (payload (handler eng w ev)) (js "error") = Some (JStr m)) /\
  (json = None \/ (exists d, json = Some d /\ d <> JNull /\ field d (js "error") = None) ->
   field (payload (handler eng w ev)) (js "error") =
     Some (JStr (js "API request failed with status " ++ decimal status))).
Proof.
  intros Hreach Hfetch Hstatus.
  assert ((200 <=? status)%nat && (status <=? 299)%nat = false) as Hok.
  { apply andb_false_iff. rewrite !Nat.leb_gt. lia. }
  assert (forall m, m <> [] ->
            or_else (Some (JStr m)) (JStr (js "Internal server error")) = JStr m) as Hmsg.
  { intros [|c m] Hm; done. }
  split; [|split].
  - unfold call_provider in *.
    destruct (call_provider eng w p) as [answer|e] eqn:Hcall.
    + unfold call_provider in Hcall. rewrite Hfetch, Hok in Hcall.
      repeat case_match; simplify_eq.
    + by rewrite (handler_provider_failure _ _ _ _ _ _ _ Hreach Hcall).
  - intros d e m -> He Hm Hne.
    assert (d <> JNull) as Hd by (by intros ->).
    assert (e <> JNull) as He' by (by intros ->).
    rewrite (handler_provider_failure _ _ _ _ _ _ (ApiError m) Hreach).
    + rewrite failure_response_message. cbn [message_of]. by rewrite Hmsg.
    + unfold call_provider. rewrite Hfetch, Hok. cbn [default].
      rewrite (Get_field d), He by done.
      destruct e; try done; rewrite Get_field, Hm by done;
        simpl; by destruct m.
  - intros Hjson.
    rewrite (handler_provider_failure _ _ _ _ _ _
               (ApiError (js "API request failed with status " ++ decimal status)) Hreach).
    + rewrite failure_response_message. cbn [message_of]. by rewrite Hmsg.
    + unfold call_provider. rewrite Hfetch, Hok.
      destruct Hjson as [-> | (d & -> & Hd & He)]; cbn [default].
      * done.
      * by rewrite (Get_field d), He.
Qed.

Lemma provider_error_surfaced_witness :
  let w := {| env := fun _ => Some (js "secret");
              fetched := HttpResponse 429
                (Some (JObj [(js "error", JObj [(js "message", JStr (js "slow down"))])])) |} in
  statusCode (handler sample_engine w (post_cohere "abc")) = 500%Z /\
  field (payload (handler sample_engine w (post_cohere "abc"))) (js "error") =
    Some (JStr (js "slow down")).
Proof.
  intros w.
  assert (reaches_provider sample_engine w (post_cohere "abc") (js "Cohere") Cohere (js "abc"))
    as Hreach.
  { split; [reflexivity|].
    exists (jq "{'providerName': 'Cohere', 'inputText': 'abc'}"),
           (JObj [(js "providerName", JStr (js "Cohere")); (js "inputText", JStr (js "abc"))]),
           (js "secret").
    repeat split; try reflexivity; done. }
  destruct (provider_error_surfaced sample_engine w (post_cohere "abc") (js "Cohere")
              Cohere (js "abc") 429
              (Some (JObj [(js "error", JObj [(js "message", JStr (js "slow down"))])]))
              Hreach eq_refl) as (Hs & Hm & _).
  { right. vm_compute. lia. }
  split; [exact Hs|].
  apply (Hm (JObj [(js "error", JObj [(js "message", JStr (js "slow down"))])])
            (JObj [(js "message", JStr (js "slow down"))]) (js "slow down"));
    try reflexivity. done.
Defined.

Lemma walk_missing_member k path data :
  field data k = None ->
  match walk (Field k :: path) (Some data) with
  | Normal v => v = None
  | Throw _ => True
  end.
Proof.
  intros Hk. simpl. destruct data; try done; simpl in *.
  all: try (destruct path; done).
  rewrite Hk. by destruct path.
Qed.

(** X7. When the provider answers 2xx but its body is not JSON, or lacks the
    top-level member the provider's [parseResponse] reads ([choices],
    [content], [candidates], [text]; so also when it is not an object), the
    handler answers 500 with the four empty defaults: such an answer never
    reaches reconciliation. *)
Theorem malformed_envelope_rejected (eng : Engine) (w : World) (ev : Event)
    (name : jsstring) (p : Provider) (text : jsstring) (status : nat)
    (json : option JValue) (k : jsstring) :
  reaches_provider eng w ev name p text ->
  fetched w = HttpResponse status json ->
  (200 <= status <= 299)%nat ->
  envelope_member p = Some k ->
  json = None \/ (exists data, json = Some data /\ field data k = None) ->
  statusCode (handler eng w ev) = 500%Z /\
  exists m,
    payload (handler eng w ev) =
      JObj [(js "error", JStr m); (js "constraints", JArr []);
            (js "redundantGroups", JArr []); (js "contradictions", JArr []);
            (js "originalText", JStr [])].
Proof.
  intros Hreach Hfetch Hstatus Hk Hjson.
  assert (exists e, call_provider eng w p = Throw e) as [e Hcall].
  { unfold call_provider. rewrite Hfetch.
    assert ((200 <=? status)%nat && (status <=? 299)%nat = true) as ->.
    { apply andb_true_iff. rewrite !Nat.leb_le. lia. }
    destruct Hjson as [-> | (data & -> & Hdata)]; [eauto|].
    unfold extract, envelope_member in *.
    destruct (parseResponse p) as [|[k'|i] path]; try done.
    injection Hk as ->.
    pose proof (walk_missing_member k path data Hdata) as Hwalk.
    destruct (walk (Field k :: path) (Some data)) as [v|e']; [|eauto].
    subst v. eauto. }
  rewrite (handler_provider_failure _ _ _ _ _ _ _ Hreach Hcall).
  split; [done|]. unfold failure_response, or_else. cbn [payload].
  destruct (ToBoolean (Some (JStr (message_of eng e)))); eauto.
Qed.

Lemma malformed_envelope_rejected_witness :
  statusCode (handler sample_engine
                {| env := fun _ => Some (js "secret");
                   fetched := HttpResponse 200 (Some (JObj [])) |}
                (post_cohere "abc")) = 500%Z.
Proof.
  assert (reaches_provider sample_engine
            {| env := fun _ => Some (js "secret");
               fetched := HttpResponse 200 (Some (JObj [])) |}
            (post_cohere "abc") (js "Cohere") Cohere (js "abc")) as Hreach.
  { split; [reflexivity|].
    exists (jq "{'providerName': 'Cohere', 'inputText': 'abc'}"),
           (JObj [(js "providerName", JStr (js "Cohere")); (js "inputText", JStr (js "abc"))]),
           (js "secret").
    repeat split; try reflexivity; done. }
  apply (malformed_envelope_rejected sample_engine _ _ _ _ _ 200 (Some (JObj []))
           (js "text") Hreach eq_refl).
  - lia.
  - reflexivity.
  - right. by exists (JObj []).
Defined.

(** ** Identifiers *)

Lemma or_else_truthy_default v d :
  ToBoolean (Some d) = true -> ToBoolean (Some (or_else v d)) = true.
Proof.
  intros Hd. unfold or_else. destruct v as [x|]; [|done].
  by destruct (ToBoolean (Some x)) eqn:E.
Qed.

Lemma mapM_Forall_out {A B} (f : A -> M B) (R : B -> Prop) :
  (forall x n y n', f x n = Normal (y, n') -> R y) ->
  forall xs n ys n', mapM f xs n = Normal (ys, n') -> Forall R ys.
Proof.
  intros Hf xs n ys n' H.
  eapply Forall2_transfer with (P := fun x y => R y) (Q := fun _ => True);
    [by auto| |by apply Forall_true].
  eapply mapM_Forall2; [|exact H]. exact Hf.
Qed.

Lemma fix_constraint_id eng text c n c' n' :
  (forall k, uuidv4 eng k <> []) ->
  fix_constraint eng text c n = Normal (c', n') -> truthy_field c' (js "id").
Proof.
  intros Huuid (_ & id & -> & ->)%fix_constraint_Normal.
  eexists. rewrite field_obj, !lookup_set_ne, lookup_set_eq by done.
  split; [done|]. apply or_else_truthy_default.
  specialize (Huuid n). simpl. by destruct (uuidv4 eng n).
Qed.

Lemma fix_scored_id eng score x n x' n' :
  score <> js "id" -> (forall k, uuidv4 eng k <> []) ->
  fix_scored eng score x n = Normal (x', n') -> truthy_field x' (js "id").
Proof.
  intros Hscore Huuid (_ & id & -> & ->)%fix_scored_Normal.
  eexists. rewrite field_obj, lookup_set_ne, lookup_set_eq by done.
  split; [done|]. apply or_else_truthy_default.
  specialize (Huuid n). simpl. by destruct (uuidv4 eng n).
Qed.

Lemma or_uuid_step eng v n x n' :
  or_uuid eng v n = Normal (x, n') ->
  (ToBoolean v = false /\ n' = S n /\ x = JStr (uuidv4 eng n)) \/
  (ToBoolean v = true /\ n' = n).
Proof.
  unfold or_uuid, bind, fresh, ret.
  destruct v as [y|]; [destruct (ToBoolean (Some y)) eqn:E|];
    intros [= <- <-]; auto.
Qed.

Lemma fix_constraint_id_step eng text : id_step eng (fix_constraint eng text).
Proof.
  intros c n c' n' H.
  assert (c <> JNull) as Hc by (by intros ->).
  unfold fix_constraint in H. rewrite !(Get_field c) in H by done.
  apply bind_Normal in H as (? & ? & [[= <-] ->]%lift_Normal & H).
  apply bind_Normal in H as (id & n1 & Hid%or_uuid_step & H).
  apply bind_Normal in H as (? & ? & [[= <-] ->]%lift_Normal & H).
  apply bind_Normal in H as (? & ? & [[= <-] ->]%lift_Normal & H).
  apply ret_Normal in H as [-> ->]. unfold needs_id.
  destruct Hid as [(Hf & -> & ->)|(Ht & ->)]; [left|right]; rewrite ?Hf, ?Ht; [|done].
  repeat split. rewrite field_obj, !lookup_set_ne, lookup_set_eq by done. done.
Qed.

Lemma fix_scored_id_step eng score :
  score <> js "id" -> id_step eng (fix_scored eng score).
Proof.
  intros Hscore x n x' n' H.
  assert (x <> JNull) as Hx by (by intros ->).
  unfold fix_scored in H. rewrite !(Get_field x) in H by done.
  apply bind_Normal in H as (? & ? & [[= <-] ->]%lift_Normal & H).
  apply bind_Normal in H as (id & n1 & Hid%or_uuid_step & H).
  apply bind_Normal in H as (? & ? & [[= <-] ->]%lift_Normal & H).
  apply ret_Normal in H as [-> ->]. unfold needs_id.
  destruct Hid as [(Hf & -> & ->)|(Ht & ->)]; [left|right]; rewrite ?Hf, ?Ht; [|done].
  repeat split. rewrite field_obj, lookup_set_ne, lookup_set_eq by done. done.
Qed.

Lemma mapM_generated eng f xs n ys n' :
  id_step eng f ->
  mapM f xs n = Normal (ys, n') ->
  (n <= n')%nat /\ length ys = length xs /\
  generated xs ys = (fun k => Some (JStr (uuidv4 eng k))) <$> seq n (n' - n).
Proof.
  intros Hf. revert n ys. induction xs as [|x xs IH]; intros n ys H.
  - apply ret_Normal in H as [-> ->]. rewrite Nat.sub_diag. done.
  - simpl in H. apply bind_Normal in H as (y & n1 & Hy & H).
    apply bind_Normal in H as (ys' & n2 & Hys & H).
    apply ret_Normal in H as [-> ->].
    destruct (IH _ _ Hys) as (Hle & Hlen & Hgen).
    cbn [generated length]. rewrite Hgen, Hlen.
    destruct (Hf _ _ _ _ Hy) as [(-> & -> & ->)|(-> & ->)].
    + split; [lia|]. split; [done|].
      replace (n2 - n)%nat with (S (n2 - S n)) by lia. done.
    + done.
Qed.

Lemma generated_app xs xs' ys ys' :
  length ys = length xs ->
  generated (xs ++ xs') (ys ++ ys') = generated xs ys ++ generated xs' ys'.
Proof.
  revert ys. induction xs as [|x xs IH]; intros [|y ys] Hlen; try done.
  cbn [generated app]. rewrite IH by (simpl in Hlen; lia). by rewrite app_assoc.
Qed.

(** X9. Post-processing gives the elements that lack a truthy [id] the
    results of consecutive calls of [uuidv4], in the order constraints,
    redundant groups, contradictions, and makes no call for an element that
    has one; so when [uuidv4] never returns the same value twice, the
    generated identifiers are pairwise distinct. *)
Theorem generated_ids_consecutive (eng : Engine) (text : jsstring)
    (a a' : AnalysisResult) (n n' : nat) :
  post_process eng text a n = Normal (a', n') ->
  exists cs gs ks cs' gs' ks',
    constraints a = JArr cs /\ redundantGroups a = JArr gs /\
    contradictions a = JArr ks /\
    constraints a' = JArr cs' /\ redundantGroups a' = JArr gs' /\
    contradictions a' = JArr ks' /\
    generated (cs ++ gs ++ ks) (cs' ++ gs' ++ ks') =
      (fun k => Some (JStr (uuidv4 eng k))) <$> seq n (n' - n) /\
    ((forall i j, uuidv4 eng i = uuidv4 eng j -> i = j) ->
     NoDup (generated (cs ++ gs ++ ks) (cs' ++ gs' ++ ks'))).
Proof.
  intros (cs & gs & ks & cs' & gs' & ks' & m1 & m2 & Hc & Hg & Hk & -> & H1 & H2 & H3)
    %post_process_Normal.
  apply (mapM_generated eng) in H1 as (L1 & Len1 & G1); [|apply fix_constraint_id_step].
  apply (mapM_generated eng) in H2 as (L2 & Len2 & G2); [|by apply fix_scored_id_step].
  apply (mapM_generated eng) in H3 as (L3 & Len3 & G3); [|by apply fix_scored_id_step].
  exists cs, gs, ks, cs', gs', ks'.
  assert (generated (cs ++ gs ++ ks) (cs' ++ gs' ++ ks') =
          (fun k => Some (JStr (uuidv4 eng k))) <$> seq n (n' - n)) as Hgen.
  { rewrite !generated_app, G1, G2, G3 by done.
    rewrite <- !fmap_app. f_equal.
    replace (n' - n)%nat with ((m1 - n) + ((m2 - m1) + (n' - m2)))%nat by lia.
    rewrite !seq_app. repeat f_equal; lia. }
  repeat split; try done.
  intros Hinj. rewrite Hgen. apply NoDup_fmap_2; [|apply NoDup_seq].
  intros i j [= H]. by apply Hinj.
Qed.

Lemma generated_ids_consecutive_witness :
  exists cs gs ks cs' gs' ks',
    JArr [JObj [(js "text", JStr (js "t"))]; JObj [(js "id", JStr (js "c2"))]] = JArr cs /\
    JArr [JObj []] = JArr gs /\ JArr [] = JArr ks /\
    JArr [JObj [(js "text", JStr (js "t")); (js "id", JStr (js "uuid-0"));
                (js "sourceStart", JNum 0); (js "sourceEnd", JNum 3)];
          JObj [(js "id", JStr (js "c2"));
                (js "sourceStart", JNum 0); (js "sourceEnd", JNum 3)]] = JArr cs' /\
    JArr [JObj [(js "id", JStr (js "uuid-1")); (js "similarity", JNum (4 # 5))]] = JArr gs' /\
    JArr [] = JArr ks' /\
    generated (cs ++ gs ++ ks) (cs' ++ gs' ++ ks') =
      (fun k => Some (JStr (uuidv4 sample_engine k))) <$> seq 0 (2 - 0) /\
    ((forall i j, uuidv4 sample_engine i = uuidv4 sample_engine j -> i = j) ->
     NoDup (generated (cs ++ gs ++ ks) (cs' ++ gs' ++ ks'))).
Proof.
  apply (generated_ids_consecutive sample_engine (js "abc")
           {| constraints :=
                JArr [JObj [(js "text", JStr (js "t"))]; JObj [(js "id", JStr (js "c2"))]];
              redundantGroups := JArr [JObj []];
              contradictions := JArr [];
              originalText := JStr (js "abc") |}
           {| constraints :=
                JArr [JObj [(js "text", JStr (js "t")); (js "id", JStr (js "uuid-0"));
                            (js "sourceStart", JNum 0); (js "sourceEnd", JNum 3)];
                      JObj [(js "id", JStr (js "c2"));
                            (js "sourceStart", JNum 0); (js "sourceEnd", JNum 3)]];
              redundantGroups :=
                JArr [JObj [(js "id", JStr (js "uuid-1")); (js "similarity", JNum (4 # 5))]];
              contradictions := JArr [];
              originalText := JStr (js "abc") |} 0 2).
  vm_compute. reflexivity.
Defined.

Lemma id_rule_widen eng a b a' b' x y :
  (a' <= a)%nat -> (b <= b')%nat -> id_rule eng a b x y -> id_rule eng a' b' x y.
Proof.
  intros Ha Hb [Hown Hgen]. split; [done|].
  intros Hf. destruct (Hgen Hf) as (k & Hk & Hid). exists k. split; [lia|done].
Qed.

Lemma or_uuid_id_rule eng v n i n' :
  or_uuid eng v n = Normal (i, n') ->
  (n <= n')%nat /\
  (forall x, v = Some x -> ToBoolean (Some x) = true -> i = x) /\
  (ToBoolean v = false -> exists k, (n <= k < n')%nat /\ i = JStr (uuidv4 eng k)).
Proof.
  unfold or_uuid, bind, fresh, ret.
  destruct v as [y|]; [destruct (ToBoolean (Some y)) eqn:E|]; intros [= <- <-].
  - split; [lia|]. split; [by intros x [= ->]|done].
  - split; [lia|]. split; [intros x [= ->]; congruence|].
    intros _. exists n. split; [lia|done].
  - split; [lia|]. split; [done|]. intros _. exists n. split; [lia|done].
Qed.

Lemma fix_constraint_id_rule eng text x n y n' :
  fix_constraint eng text x n = Normal (y, n') ->
  (n <= n')%nat /\ id_rule eng n n' x y.
Proof.
  intros H. assert (x <> JNull) as Hx by (by intros ->).
  unfold fix_constraint in H. rewrite !(Get_field x) in H by done.
  apply bind_Normal in H as (? & ? & [[= <-] ->]%lift_Normal & H).
  apply bind_Normal in H as (i & n1 & (Hle & Hown & Hgen)%or_uuid_id_rule & H).
  apply bind_Normal in H as (? & ? & [[= <-] ->]%lift_Normal & H).
  apply bind_Normal in H as (? & ? & [[= <-] ->]%lift_Normal & H).
  apply ret_Normal in H as [-> ->]. split; [done|].
  unfold id_rule. rewrite field_obj, !lookup_set_ne, lookup_set_eq by done.
  split.
  - intros i0 Hi Ht. f_equal. by apply Hown.
  - intros Hf. destruct (Hgen Hf) as (k & Hk & ->). eauto.
Qed.

Lemma fix_scored_id_rule eng score x n y n' :
  score <> js "id" ->
  fix_scored eng score x n = Normal (y, n') ->
  (n <= n')%nat /\ id_rule eng n n' x y.
Proof.
  intros Hscore H. assert (x <> JNull) as Hx by (by intros ->).
  unfold fix_scored in H. rewrite !(Get_field x) in H by done.
  apply bind_Normal in H as (? & ? & [[= <-] ->]%lift_Normal & H).
  apply bind_Normal in H as (i & n1 & (Hle & Hown & Hgen)%or_uuid_id_rule & H).
  apply bind_Normal in H as (? & ? & [[= <-] ->]%lift_Normal & H).
  apply ret_Normal in H as [-> ->]. split; [done|].
  unfold id_rule. rewrite field_obj, lookup_set_ne, lookup_set_eq by done.
  split.
  - intros i0 Hi Ht. f_equal. by apply Hown.
  - intros Hf. destruct (Hgen Hf) as (k & Hk & ->). eauto.
Qed.

Lemma mapM_id_rule eng (f : JValue -> M JValue) :
  (forall x n y n', f x n = Normal (y, n') -> (n <= n')%nat /\ id_rule eng n n' x y) ->
  forall xs n ys n',
    mapM f xs n = Normal (ys, n') ->
    (n <= n')%nat /\ Forall2 (id_rule eng n n') xs ys.
Proof.
  intros Hf. induction xs as [|x xs IH]; intros n ys n' H.
  - apply ret_Normal in H as [-> ->]. split; [lia|constructor].
  - simpl in H. apply bind_Normal in H as (y & n1 & Hy & H).
    apply bind_Normal in H as (ys' & n2 & Hys & H).
    apply ret_Normal in H as [-> ->].
    destruct (Hf _ _ _ _ Hy) as [L1 R1]. destruct (IH _ _ _ Hys) as [L2 R2].
    split; [lia|]. constructor.
    + eapply id_rule_widen; [| |exact R1]; lia.
    + eapply Forall2_weaken; [|exact R2].
      intros a b. apply id_rule_widen; lia.
Qed.

(** X8. When [uuidv4] returns non-empty strings, every element of the three
    collections of a reconciled result (its constraints, its redundant
    groups, its contradictions) has a truthy [id]: the very [id] of the
    answer's element when that is truthy, and otherwise the result of one of
    the calls of [uuidv4] made by post-processing.  The constraints nested
    in a group or in a contradiction are copied as the answer has them, so
    one that lacks an [id] still lacks it. *)
Theorem reconciled_ids_present (eng : Engine) (text answer aiOutput : jsstring)
    (candidate : JValue) (n n1 n' : nat) (result : AnalysisResult) :
  (forall k, uuidv4 eng k <> []) ->
  stripCodeFence answer = Normal aiOutput ->
  parse_or_fallback eng text aiOutput n = Normal (candidate, n1) ->
  reconcile eng text answer n = Normal (result, n') ->
  exists cs gs ks,
    constraints result = JArr cs /\ redundantGroups result = JArr gs /\
    contradictions result = JArr ks /\
    Forall (fun y => truthy_field y (js "id")) (cs ++ gs ++ ks) /\
    (forall coll xs ys,
       In (coll, ys) [(js "constraints", cs); (js "redundantGroups", gs);
                      (js "contradictions", ks)] ->
       field candidate coll = Some (JArr xs) ->
       Forall2 (id_rule eng n1 n') xs ys) /\
    (forall xs, field candidate (js "redundantGroups") = Some (JArr xs) ->
       Forall2 (member_copied (js "constraints")) xs gs) /\
    (forall xs, field candidate (js "contradictions") = Some (JArr xs) ->
       Forall2 (fun x y => member_copied (js "constraint1") x y /\
                           member_copied (js "constraint2") x y) xs ks).
Proof.
  intros Huuid Hs Hcand Hrec.
  destruct (reconciled_candidate _ _ _ _ _ _ _ _ _ Hs Hcand Hrec)
    as (cs & gs & ks & cs' & gs' & ks' & m1 & m2 & Hc & Hg & Hk & -> & H1 & H2 & H3).
  exists cs', gs', ks'. split; [done|]. split; [done|]. split; [done|].
  destruct (mapM_id_rule eng _ (fix_constraint_id_rule eng text) _ _ _ _ H1) as [L1 R1].
  destruct (mapM_id_rule eng _
              (fun x k y k' => fix_scored_id_rule eng (js "similarity") x k y k'
                                 ltac:(done)) _ _ _ _ H2) as [L2 R2].
  destruct (mapM_id_rule eng _
              (fun x k y k' => fix_scored_id_rule eng (js "confidence") x k y k'
                                 ltac:(done)) _ _ _ _ H3) as [L3 R3].
  split; [|split; [|split]].
  - rewrite !Forall_app. repeat split.
    + eapply mapM_Forall_out; [|exact H1]. intros *. by apply fix_constraint_id.
    + eapply mapM_Forall_out; [|exact H2]. intros *. by apply fix_scored_id.
    + eapply mapM_Forall_out; [|exact H3]. intros *. by apply fix_scored_id.
  - intros coll xs ys [[= <- <-]|[[= <- <-]|[[= <- <-]|[]]]] Hxs; rewrite Hxs in *.
    + injection Hc as <-. eapply Forall2_weaken; [|exact R1].
      intros a b. apply id_rule_widen; lia.
    + injection Hg as <-. eapply Forall2_weaken; [|exact R2].
      intros a b. apply id_rule_widen; lia.
    + injection Hk as <-. eapply Forall2_weaken; [|exact R3].
      intros a b. apply id_rule_widen; lia.
  - intros xs Hxs. rewrite Hxs in Hg. injection Hg as <-.
    eapply mapM_Forall2; [|exact H2]. intros *. by apply fix_scored_copied.
  - intros xs Hxs. rewrite Hxs in Hk. injection Hk as <-.
    eapply mapM_Forall2; [|exact H3]. intros * H.
    split; (eapply fix_scored_copied; [| |exact H]; done).
Qed.

Lemma reconciled_ids_present_witness :
  exists cs gs ks,
    constraints sample_result = JArr cs /\ redundantGroups sample_result = JArr gs /\
    contradictions sample_result = JArr ks /\
    Forall (fun y => truthy_field y (js "id")) (cs ++ gs ++ ks) /\
    (forall coll xs ys,
       In (coll, ys) [(js "constraints", cs); (js "redundantGroups", gs);
                      (js "contradictions", ks)] ->
       field sample_candidate coll = Some (JArr xs) ->
       Forall2 (id_rule sample_engine 0 2) xs ys) /\
    (forall xs, field sample_candidate (js "redundantGroups") = Some (JArr xs) ->
       Forall2 (member_copied (js "constraints")) xs gs) /\
    (forall xs, field sample_candidate (js "contradictions") = Some (JArr xs) ->
       Forall2 (fun x y => member_copied (js "constraint1") x y /\
                           member_copied (js "constraint2") x y) xs ks).
Proof.
  apply (reconciled_ids_present sample_engine sample_text sample_answer sample_answer
           sample_candidate 0 0 2 sample_result).
  - intros k. discriminate.
  - reflexivity.
  - vm_compute. reflexivity.
  - vm_compute. reflexivity.
Defined.

Lemma mapM_basic eng text lines n :
  mapM (basic_constraint eng text) lines n =
    Normal (imap (fun i => generated_constraint eng text (n + i)) lines,
            (n + length lines)%nat).
Proof.
  revert n. induction lines as [|line lines IH]; intros n.
  - simpl. unfold ret. do 2 f_equal. lia.
  - cbn [mapM]. unfold bind at 1. unfold basic_constraint at 1.
    unfold bind at 1. unfold fresh at 1. unfold ret at 1.
    unfold bind at 1. rewrite IH. unfold ret.
    rewrite imap_cons. unfold generated_constraint at 2. rewrite Nat.add_0_r.
    f_equal. f_equal; [|simpl; lia]. f_equal.
    apply imap_ext. intros i x _. simpl. f_equal. lia.
Qed.

Lemma generated_settled eng text i line :
  uuidv4 eng i <> [] -> settled_constraint text (generated_constraint eng text i line).
Proof.
  intros Hu. split; [by eexists|]. split; [|split].
  - eexists. split; [reflexivity|]. simpl. by destruct (uuidv4 eng i).
  - by right.
  - by right.
Qed.

Lemma post_process_settled eng text cs gs ks o n :
  Forall (settled_constraint text) cs ->
  Forall (settled_scored (js "similarity")) gs ->
  Forall (settled_scored (js "confidence")) ks ->
  post_process eng text
    {| constraints := JArr cs; redundantGroups := JArr gs;
       contradictions := JArr ks; originalText := o |} n =
  Normal ({| constraints := JArr cs; redundantGroups := JArr gs;
             contradictions := JArr ks; originalText := o |}, n).
Proof.
  intros Hcs Hgs Hks.
  unfold post_process, array_map. cbn [constraints redundantGroups contradictions originalText].
  unfold bind.
  rewrite (mapM_fixed (fix_constraint eng text) cs n).
  2: { eapply Forall_impl; [|exact Hcs]. intros c Hc k. by apply fix_constraint_settled. }
  unfold ret at 1.
  rewrite (mapM_fixed (fix_group eng) gs n).
  2: { eapply Forall_impl; [|exact Hgs]. intros g Hg k. by apply fix_scored_settled. }
  unfold ret at 1.
  rewrite (mapM_fixed (fix_contradiction eng) ks n).
  2: { eapply Forall_impl; [|exact Hks]. intros g Hg k. by apply fix_scored_settled. }
  done.
Qed.

(** X10. The fallback, to the letter.  When [uuidv4] returns non-empty
    strings and the stripped answer fails to parse, the handler answers 200
    with one constraint for each line whose trimmed text begins with a
    marker, in order; the [id] of the constraint of the [i]-th such line is
    the result of the [i]-th call of [uuidv4] (counting from 0), its text
    is the line trimmed after the removal of a leading marker followed by
    whitespace, and its span goes from 0 to the length of the input text;
    the two other collections are empty and [originalText] is the input. *)
Theorem handler_fallback_generated (eng : Engine) (w : World) (ev : Event)
    (text answer aiOutput : jsstring) :
  (forall k, uuidv4 eng k <> []) ->
  httpMethod ev = js "POST" ->
  prepare eng w ev = Normal (inr (text, answer)) ->
  stripCodeFence answer = Normal aiOutput ->
  JSON_parse eng aiOutput = None ->
  handler eng w ev =
    {| statusCode := 200; headers := success_headers;
       payload :=
         JObj [(js "constraints",
                JArr (imap (generated_constraint eng text) (bullet_lines aiOutput)));
               (js "redundantGroups", JArr []);
               (js "contradictions", JArr []);
               (js "originalText", JStr text)] |}.
Proof.
  intros Huuid Hpost Hprep Hs Hparse.
  rewrite (handler_after_prepare _ _ _ _ _ Hpost Hprep).
  assert (reconcile eng text answer 0%nat =
          Normal ({| constraints :=
                       JArr (imap (generated_constraint eng text) (bullet_lines aiOutput));
                     redundantGroups := JArr []; contradictions := JArr [];
                     originalText := JStr text |},
                  length (bullet_lines aiOutput))) as ->; [|done].
  unfold reconcile.
  unfold bind at 1. rewrite Hs. unfold lift at 1.
  unfold bind at 1. unfold parse_or_fallback. rewrite Hparse.
  unfold fallback. unfold bind at 1.
  fold (bullet_lines aiOutput). rewrite mapM_basic. unfold ret at 1.
  unfold bind at 1. unfold lift at 1.
  change (ensure_properties text _)
    with (Normal {| constraints :=
                      JArr (imap (fun i => generated_constraint eng text (0 + i))
                                 (bullet_lines aiOutput));
                    redundantGroups := JArr []; contradictions := JArr [];
                    originalText := or_else (Some (JStr text)) (JStr text) |}).
  rewrite or_else_same. cbn [Nat.add].
  apply post_process_settled; [|constructor..].
  generalize (bullet_lines aiOutput). intros lines.
  assert (forall n, Forall (settled_constraint text)
                      (imap (fun i => generated_constraint eng text (n + i)) lines)) as H.
  { induction lines as [|line lines IH]; intros n; [constructor|].
    rewrite imap_cons. constructor; [by apply generated_settled|].
    replace (imap ((fun i => generated_constraint eng text (n + i)) ∘ S) lines)
      with (imap (fun i => generated_constraint eng text (S n + i)) lines).
    - apply IH.
    - apply imap_ext. intros i x _. simpl. f_equal. lia. }
  exact (H 0%nat).
Qed.

Lemma handler_fallback_generated_witness :
  handler sample_engine (answering bullets_answer) (post_cohere "abc") =
    {| statusCode := 200; headers := success_headers;
       payload :=
         JObj [(js "constraints",
                JArr [JObj [(js "id", JStr (js "uuid-0")); (js "text", JStr (js "first"));
                            (js "sourceStart", JNum 0); (js "sourceEnd", JNum 3)];
                      JObj [(js "id", JStr (js "uuid-1")); (js "text", JStr (js "-second"));
                            (js "sourceStart", JNum 0); (js "sourceEnd", JNum 3)]]);
               (js "redundantGroups", JArr []);
               (js "contradictions", JArr []);
               (js "originalText", JStr (js "abc"))] |}.
Proof.
  apply (handler_fallback_generated sample_engine (answering bullets_answer)
           (post_cohere "abc") (js "abc") bullets_answer bullets_answer);
    try reflexivity.
  intros k. discriminate.
Defined.

(** X11. The round trip.  When the answer parses to a value that has the
    three collections as sequences and a truthy [originalText], and every
    element of the collections has its identifier, offsets and score given
    and truthy (an offset may also be the very default), the body of the
    response has exactly these four members with the values of the answer,
    in the order of the schema, and no identifier is generated.  So the
    response is the parsed answer itself when that lists exactly the four
    fields in that order; other top-level members of the answer are
    dropped, and another order of the fields is not kept. *)
Theorem handler_roundtrip (eng : Engine) (w : World) (ev : Event)
    (text answer aiOutput : jsstring) (v : JValue) (cs gs ks : list JValue) (o : JValue) :
  httpMethod ev = js "POST" ->
  prepare eng w ev = Normal (inr (text, answer)) ->
  stripCodeFence answer = Normal aiOutput ->
  JSON_parse eng aiOutput = Some v ->
  field v (js "constraints") = Some (JArr cs) ->
  field v (js "redundantGroups") = Some (JArr gs) ->
  field v (js "contradictions") = Some (JArr ks) ->
  field v (js "originalText") = Some o ->
  ToBoolean (Some o) = true ->
  Forall (settled_constraint text) cs ->
  Forall (settled_scored (js "similarity")) gs ->
  Forall (settled_scored (js "confidence")) ks ->
  handler eng w ev =
    {| statusCode := 200; headers := success_headers;
       payload := JObj [(js "constraints", JArr cs); (js "redundantGroups", JArr gs);
                        (js "contradictions", JArr ks); (js "originalText", o)] |} /\
  (exists result, reconcile eng text answer 0%nat = Normal (result, 0%nat)) /\
  (v = JObj [(js "constraints", JArr cs); (js "redundantGroups", JArr gs);
             (js "contradictions", JArr ks); (js "originalText", o)] ->
   payload (handler eng w ev) = v).
Proof.
  intros Hpost Hprep Hs Hparse Hc Hg Hk Ho Ht Hcs Hgs Hks.
  assert (v <> JNull) as Hv by (intros ->; discriminate Hc).
  assert (reconcile eng text answer 0%nat =
          Normal ({| constraints := JArr cs; redundantGroups := JArr gs;
                     contradictions := JArr ks; originalText := o |}, 0%nat)) as Hrec.
  { rewrite (reconcile_parsed eng text answer aiOutput v 0%nat Hs Hparse Hv).
    rewrite Hc, Hg, Hk, Ho.
    rewrite !or_else_truthy by done. by apply post_process_settled. }
  rewrite (handler_after_prepare _ _ _ _ _ Hpost Hprep), Hrec.
  split; [done|]. split; [by eexists|]. by intros ->.
Qed.

Lemma handler_roundtrip_witness :
  let answer :=
    jq "{'originalText': 'ab', 'note': 1, 'contradictions': [], 'constraints': [{'id': 'c1', 'text': 'a', 'sourceStart': 0, 'sourceEnd': 1}], 'redundantGroups': [{'id': 'g1', 'constraints': [], 'similarity': 0.5}]}" in
  payload (handler sample_engine (answering answer) (post_cohere "ab")) =
    JObj [(js "constraints",
           JArr [JObj [(js "id", JStr (js "c1")); (js "text", JStr (js "a"));
                       (js "sourceStart", JNum 0); (js "sourceEnd", JNum 1)]]);
          (js "redundantGroups",
           JArr [JObj [(js "id", JStr (js "g1")); (js "constraints", JArr []);
                       (js "similarity", JNum (1 # 2))]]);
          (js "contradictions", JArr []);
          (js "originalText", JStr (js "ab"))].
Proof.
  intros answer.
  destruct (handler_roundtrip sample_engine (answering answer) (post_cohere "ab")
              (js "ab") answer answer
              (JObj [(js "originalText", JStr (js "ab")); (js "note", JNum 1);
                     (js "contradictions", JArr []);
                     (js "constraints",
                      JArr [JObj [(js "id", JStr (js "c1")); (js "text", JStr (js "a"));
                                  (js "sourceStart", JNum 0); (js "sourceEnd", JNum 1)]]);
                     (js "redundantGroups",
                      JArr [JObj [(js "id", JStr (js "g1")); (js "constraints", JArr []);
                                  (js "similarity", JNum (1 # 2))]])])
              [JObj [(js "id", JStr (js "c1")); (js "text", JStr (js "a"));
                     (js "sourceStart", JNum 0); (js "sourceEnd", JNum 1)]]
              [JObj [(js "id", JStr (js "g1")); (js "constraints", JArr []);
                     (js "similarity", JNum (1 # 2))]]
              [] (JStr (js "ab"))) as [H _].
  1-9: reflexivity.
  - constructor; [|constructor]. repeat split.
    + by eexists.
    + by eexists.
    + by right.
    + left. by eexists.
  - constructor; [|constructor]. repeat split; by eexists.
  - constructor.
  - by rewrite H.
Defined.

(** ** The simple mode *)

Example simple_scenario :
  payload (simple_handler sample_engine
             (answering (js "- Books must have a title" ++ nl ++
                         js "- Books must have a title and author"))
             (post_cohere "Books must have a title. Books must have a title and author.")) =
  JObj [(js "constraints",
         JArr [JObj [(js "text", JStr (js "Books must have a title"))];
               JObj [(js "text", JStr (js "Books must have a title and author"))]])].
Proof. reflexivity. Qed.

Lemma trimEnd_nil s : trimEnd s = [] <-> all_ws s = true.
Proof.
  induction s as [|c s IH]; [done|]. simpl.
  destruct (trimEnd s) as [|d r].
  - destruct (isWhiteSpace c); simpl; [|done]. tauto.
  - destruct (isWhiteSpace c); simpl; [|done]. split; [done|].
    intros H. by apply IH in H.
Qed.

Lemma trimStart_all_ws s : all_ws (trimStart s) = all_ws s.
Proof.
  induction s as [|c s IH]; [done|]. simpl.
  destruct (isWhiteSpace c) eqn:E; [done|]. simpl. by rewrite E.
Qed.

Lemma trim_nil s : trim s = [] <-> all_ws s = true.
Proof. unfold trim. by rewrite trimEnd_nil, trimStart_all_ws. Qed.

Lemma is_bullet_not_ws c : is_bullet c = true -> isWhiteSpace c = false.
Proof.
  unfold is_bullet. intros H.
  repeat (apply orb_prop in H as [H|H]); apply N.eqb_eq in H as ->; reflexivity.
Qed.

Lemma trimStart_id c s : isWhiteSpace c = false -> trimStart (c :: s) = c :: s.
Proof. intros H. simpl. by rewrite H. Qed.

(** On an accepted line whose first unit is the marker, trimming at the end
    leaves the marker and the whitespace after it in place. *)
Lemma accepted_unindented c s :
  isWhiteSpace c = false ->
  starts_with_bullet_space (trim (c :: s)) = true ->
  exists w r, s = w :: r /\ is_bullet c = true /\ isWhiteSpace w = true /\
              all_ws r = false.
Proof.
  intros Hc. unfold trim. rewrite (trimStart_id c s Hc).
  destruct s as [|w r].
  - simpl. by rewrite Hc.
  - change (trimEnd (c :: w :: r))
      with (match trimEnd (w :: r) with
            | [] => if isWhiteSpace c then [] else [c]
            | x :: t => c :: x :: t
            end).
    destruct (trimEnd (w :: r)) as [|x t] eqn:E.
    + by destruct (isWhiteSpace c).
    + simpl in E. destruct (trimEnd r) as [|y t'] eqn:Er.
      * destruct (isWhiteSpace w) eqn:Ew; [done|]. injection E as <- <-.
        simpl. rewrite Ew, andb_false_r. done.
      * injection E as <- <-. simpl. intros [Hb Hw]%andb_prop.
        exists w, r. repeat split; try done.
        destruct (all_ws r) eqn:Ea; [|done].
        apply trimEnd_nil in Ea. congruence.
Qed.

Lemma simple_text_nonempty line :
  starts_with_bullet_space (trim line) = true -> trim (strip_bullet line) <> [].
Proof.
  intros Hacc.
  assert (trim line <> []) as Hne by (by destruct (trim line)).
  destruct line as [|c s]; [done|].
  destruct (isWhiteSpace c) eqn:Hc.
  - assert (strip_bullet (c :: s) = c :: s) as ->; [|done].
    simpl. destruct s; [done|].
    destruct (is_bullet c) eqn:Hb; [|done].
    apply is_bullet_not_ws in Hb. congruence.
  - destruct (accepted_unindented c s Hc Hacc) as (w & r & -> & Hb & Hw & Hr).
    simpl. rewrite Hb, Hw. simpl. rewrite trim_nil. congruence.
Qed.

Lemma simple_constraints_shape output :
  Forall (fun c => exists t, c = JObj [(js "text", JStr t)] /\ t <> [] /\ trim t = t)
         (simple_constraints output).
Proof.
  unfold simple_constraints, simple_lines.
  apply Forall_map. apply Forall_forall. intros line [_ Hacc]%filter_In.
  eexists. split; [done|]. split; [by apply simple_text_nonempty|apply trim_idempotent].
Qed.

Lemma simple_handler_cases eng w ev :
  (exists code message, simple_handler eng w ev = plain_response code message /\
                        (code = 405 \/ code = 400 \/ code = 500)%Z) \/
  (exists e, simple_handler eng w ev =
             {| statusCode := 500; headers := basic_headers;
                payload := JObj [(js "error", JStr (message_of eng e))] |}) \/
  (exists output, simple_handler eng w ev =
                  {| statusCode := 200; headers := success_headers;
                     payload := JObj [(js "constraints", JArr (simple_constraints output))] |}).
Proof.
  unfold simple_handler. destruct (decide (httpMethod ev = js "POST")) as [Hpost|_].
  - destruct (simple_try eng w ev) as [r|e] eqn:Htry; [|by right; left; eauto].
    unfold simple_try in Htry.
    repeat case_match; simplify_eq;
      try (left; do 2 eexists; split; [reflexivity|]; by auto);
      right; right; eauto.
  - left. exists 405%Z, (js "Method not allowed"). auto.
Qed.

(** X12. Whenever the simple handler answers 200, its body is
    [{constraints: [...]}] and every constraint is an object with the single
    member [text], a string that is not empty and has no leading or trailing
    whitespace. *)
Theorem simple_handler_constraints (eng : Engine) (w : World) (ev : Event) :
  statusCode (simple_handler eng w ev) = 200%Z ->
  exists cs,
    payload (simple_handler eng w ev) = JObj [(js "constraints", JArr cs)] /\
    Forall (fun c => exists t, c = JObj [(js "text", JStr t)] /\ t <> [] /\ trim t = t) cs.
Proof.
  destruct (simple_handler_cases eng w ev)
    as [(code & msg & Hr & Hcode)|[(e & Hr)|(output & Hr)]]; rewrite Hr; simpl.
  - destruct Hcode as [-> | [-> | ->]]; done.
  - done.
  - intros _. eexists. split; [done|]. apply simple_constraints_shape.
Qed.

Lemma simple_handler_constraints_witness :
  exists cs,
    payload (simple_handler sample_engine (answering (js "- a" ++ nl ++ js "  * b  "))
               (post_cohere "abc")) = JObj [(js "constraints", JArr cs)] /\
    Forall (fun c => exists t, c = JObj [(js "text", JStr t)] /\ t <> [] /\ trim t = t) cs.
Proof.
  apply (simple_handler_constraints sample_engine
           (answering (js "- a" ++ nl ++ js "  * b  ")) (post_cohere "abc")).
  reflexivity.
Defined.

(** X13. In the simple handler the rejections written before the provider
    is called carry no header at all: 405 for a method other than POST, 400
    for an unknown provider, and the 500 of a missing credential, which the
    [try] block returns.  The 500 that the [catch] builds for a thrown
    error (an unparsable body, a failed call of the provider) carries
    [Content-Type] and [Access-Control-Allow-Origin], and the 200 response
    the four headers of the full handler's success. *)
Theorem simple_handler_headers (eng : Engine) (w : World) (ev : Event) :
  (httpMethod ev <> js "POST" ->
   statusCode (simple_handler eng w ev) = 405%Z /\ headers (simple_handler eng w ev) = []) /\
  (httpMethod ev = js "POST" ->
   match simple_try eng w ev with
   | Throw e =>
       statusCode (simple_handler eng w ev) = 500%Z /\
       headers (simple_handler eng w ev) = basic_headers /\
       payload (simple_handler eng w ev) = JObj [(js "error", JStr (message_of eng e))]
   | Normal r =>
       simple_handler eng w ev = r /\
       ((statusCode r = 400%Z /\ headers r = [] /\
         payload r = JObj [(js "error", JStr (js "Invalid provider"))]) \/
        (statusCode r = 500%Z /\ headers r = [] /\
         exists name,
           payload r = JObj [(js "error", JStr (name ++ js " API key not configured"))]) \/
        (statusCode r = 200%Z /\ headers r = success_headers))
   end) /\
  (forall b request name p,
     httpMethod ev = js "POST" ->
     body ev = Some b -> JSON_parse eng b = Some request -> request <> JNull ->
     text_of eng (field request (js "providerName")) = Normal name ->
     AI_PROVIDERS name = Own p ->
     env w (envKey p) = None \/ env w (envKey p) = Some [] ->
     statusCode (simple_handler eng w ev) = 500%Z /\
     headers (simple_handler eng w ev) = []) /\
  (forall b,
     httpMethod ev = js "POST" -> body ev = Some b -> JSON_parse eng b = None ->
     statusCode (simple_handler eng w ev) = 500%Z /\
     headers (simple_handler eng w ev) = basic_headers).
Proof.
  split; [|split; [|split]].
  - intros Hpost. unfold simple_handler. by rewrite decide_False.
  - intros Hpost. unfold simple_handler. rewrite decide_True by done.
    destruct (simple_try eng w ev) as [r|e] eqn:Htry; [|done].
    split; [done|]. unfold simple_try in Htry.
    repeat case_match; simplify_eq; simpl; eauto 10.
  - intros b request name p Hpost Hb Hparse Hreq Hname Hp Hkey.
    unfold simple_handler, simple_try.
    rewrite decide_True, Hb, Hparse, !(Get_field request), Hname, Hp by done.
    by destruct Hkey as [-> | ->].
  - intros b Hpost Hb Hparse. unfold simple_handler, simple_try.
    by rewrite decide_True, Hb, Hparse by done.
Qed.

Lemma simple_handler_headers_witness :
  let no_key := {| env := fun _ => None; fetched := NetworkFailure [] |} in
  let garbled := {| httpMethod := js "POST"; body := Some (js "{") |} in
  (statusCode (simple_handler sample_engine no_key (post_cohere "abc")) = 500%Z /\
   headers (simple_handler sample_engine no_key (post_cohere "abc")) = []) /\
  (statusCode (simple_handler sample_engine no_key garbled) = 500%Z /\
   headers (simple_handler sample_engine no_key garbled) = basic_headers).
Proof.
  intros no_key garbled. split.
  - apply (proj1 (proj2 (proj2 (simple_handler_headers sample_engine no_key
                                  (post_cohere "abc"))))
             (jq "{'providerName': 'Cohere', 'inputText': 'abc'}")
             (JObj [(js "providerName", JStr (js "Cohere"));
                    (js "inputText", JStr (js "abc"))])
             (js "Cohere") Cohere); try reflexivity; [done|by left].
  - apply (proj2 (proj2 (proj2 (simple_handler_headers sample_engine no_key garbled)))
             (js "{")); reflexivity.
Defined.

(** X14. In the simple mode the filter and the removal use the same
    pattern: an accepted line that begins with its marker always loses the
    marker and the whitespace unit after it, while an accepted line that is
    indented keeps its marker in the text. *)
Theorem simple_marker_removal (line : jsstring) :
  starts_with_bullet_space (trim line) = true ->
  (trimStart line = line ->
   exists c w rest, line = c :: w :: rest /\ is_bullet c = true /\
                    trim (strip_bullet line) = trim rest) /\
  (trimStart line <> line -> trim (strip_bullet line) = trim line).
Proof.
  intros Hacc. destruct line as [|c s]; [done|].
  destruct (isWhiteSpace c) eqn:Hc.
  - split.
    + intros H. exfalso. pose proof (trimStart_head (c :: s)) as Hh.
      rewrite H in Hh. congruence.
    + intros _. assert (strip_bullet (c :: s) = c :: s) as ->; [|done].
      simpl. destruct s; [done|].
      destruct (is_bullet c) eqn:Hb; [|done].
      apply is_bullet_not_ws in Hb. congruence.
  - split.
    + intros _. destruct (accepted_unindented c s Hc Hacc) as (w & r & -> & Hb & Hw & _).
      exists c, w, r. repeat split; try done. simpl. by rewrite Hb, Hw.
    + intros H. by rewrite trimStart_id in H.
Qed.

Lemma simple_marker_removal_witness :
  exists c w rest, js "- a title " = c :: w :: rest /\ is_bullet c = true /\
                   trim (strip_bullet (js "- a title ")) = trim rest.
Proof.
  apply (simple_marker_removal (js "- a title ")); reflexivity.
Defined.

Lemma filter_sublist {A} (P Q : A -> bool) (l : list A) :
  (forall x, P x = true -> Q x = true) ->
  sublist (List.filter P l) (List.filter Q l).
Proof.
  intros HPQ. induction l as [|x l IH]; [constructor|]. simpl.
  destruct (P x) eqn:HP.
  - rewrite (HPQ x HP). by constructor.
  - destruct (Q x); [by constructor|done].
Qed.

Lemma sublist_map {A B} (f : A -> B) l1 l2 :
  sublist l1 l2 -> sublist (map f l1) (map f l2).
Proof. induction 1; simpl; by constructor. Qed.

Lemma simple_filter_implies line :
  starts_with_bullet_space (trim line) = true -> starts_with_bullet (trim line) = true.
Proof.
  destruct (trim line) as [|c [|w r]]; simpl; try done. by intros [? _]%andb_prop.
Qed.

(** X15. Every line the simple mode accepts is accepted by the fallback of
    the full analysis, which gives it the same text: the constraints of the
    simple mode are, in order, among the constraints of the fallback reduced
    to their [text]. *)
Theorem simple_within_fallback (eng : Engine) (text output : jsstring)
    (n n1 : nat) (candidate : JValue) :
  fallback eng text output n = Normal (candidate, n1) ->
  exists basics,
    field candidate (js "constraints") = Some (JArr basics) /\
    sublist (simple_constraints output) (text_only <$> basics).
Proof.
  intros (basics & -> & Hb)%fallback_Normal.
  exists basics. split; [done|].
  assert (text_only <$> basics =
          map (fun line => JObj [(js "text", JStr (trim (strip_bullet line)))])
              (List.filter (fun line => starts_with_bullet (trim line)) (split nl output)))
    as ->.
  { induction Hb as [|line b lines bs [u ->] _ IH]; [done|].
    cbn [fmap list_fmap map]. f_equal. exact IH. }
  unfold simple_constraints, simple_lines.
  apply sublist_map. apply filter_sublist. apply simple_filter_implies.
Qed.

Lemma simple_within_fallback_witness :
  exists basics,
    field (JObj [(js "constraints",
                  JArr [JObj [(js "id", JStr (js "uuid-0")); (js "text", JStr (js "first"));
                              (js "sourceStart", JNum 0); (js "sourceEnd", JNum 3)];
                        JObj [(js "id", JStr (js "uuid-1")); (js "text", JStr (js "-second"));
                              (js "sourceStart", JNum 0); (js "sourceEnd", JNum 3)]]);
                 (js "redundantGroups", JArr []); (js "contradictions", JArr []);
                 (js "originalText", JStr (js "abc"))])
          (js "constraints") = Some (JArr basics) /\
    sublist (simple_constraints bullets_answer) (text_only <$> basics).
Proof.
  apply (simple_within_fallback sample_engine (js "abc") bullets_answer 0 2).
  vm_compute. reflexivity.
Defined.

(** ** The request sent to the provider *)

Lemma starts_with_spec sep s :
  starts_with sep s = true <-> exists q, s = sep ++ q.
Proof.
  revert s. induction sep as [|a sep IH]; intros s.
  - simpl. split; [by exists s | done].
  - destruct s as [|b s]; simpl.
    + split; [done | by intros [q Hq]].
    + rewrite andb_true_iff, IH, N.eqb_eq. split.
      * intros [-> [q ->]]. by exists q.
      * intros [q [= -> ->]]. eauto.
Qed.

Lemma includes_spec sep s :
  includes sep s = true <-> exists p q, s = p ++ sep ++ q.
Proof.
  induction s as [|c s IH].
  - simpl. rewrite orb_false_r, starts_with_spec. split.
    + intros [q Hq]. by exists [], q.
    + intros (p & q & Hpq). symmetry in Hpq.
      apply app_eq_nil in Hpq as [-> [-> ->]%app_eq_nil]. by exists [].
  - change (includes sep (c :: s)) with (starts_with sep (c :: s) || includes sep s).
    rewrite orb_true_iff, starts_with_spec, IH. split.
    + intros [[q Hq]|(p & q & ->)]; [by exists [], q | by exists (c :: p), q].
    + intros ([|c' p] & q & Hpq).
      * left. by exists q.
      * right. injection Hpq as -> ->. by exists p, q.
Qed.

Lemma includes_infix p sep q : includes sep (p ++ sep ++ q) = true.
Proof. apply includes_spec. by exists p, q. Qed.

Lemma includes_refl s : includes s s = true.
Proof. apply includes_spec. exists [], []. by rewrite app_nil_r. Qed.

Lemma includes_trans a b c :
  includes a b = true -> includes b c = true -> includes a c = true.
Proof.
  rewrite !includes_spec. intros (p & q & ->) (p' & q' & ->).
  exists (p' ++ p), (q ++ q'). by rewrite <- !app_assoc.
Qed.

Lemma mentions_str t s : includes t s = true -> mentions t (JStr s) = true.
Proof. intros H. unfold mentions. simpl. by rewrite H. Qed.

Lemma strings_of_obj k x ms :
  strings_of (JObj ((k, x) :: ms)) = strings_of x ++ strings_of (JObj ms).
Proof. done. Qed.

Lemma mentions_member t k x ms :
  mentions t x = true -> mentions t (JObj ((k, x) :: ms)) = true.
Proof.
  unfold mentions. rewrite strings_of_obj, existsb_app. intros ->. done.
Qed.

Lemma mentions_later t k x ms :
  mentions t (JObj ms) = true -> mentions t (JObj ((k, x) :: ms)) = true.
Proof.
  unfold mentions. rewrite strings_of_obj, existsb_app. intros ->. apply orb_true_r.
Qed.

Lemma mentions_item t x xs :
  mentions t x = true -> mentions t (JArr (x :: xs)) = true.
Proof.
  unfold mentions. cbn [strings_of flat_map]. rewrite existsb_app. intros ->. done.
Qed.

Lemma mentions_rest t x xs :
  mentions t (JArr xs) = true -> mentions t (JArr (x :: xs)) = true.
Proof.
  unfold mentions. cbn [strings_of flat_map]. rewrite existsb_app. intros ->.
  apply orb_true_r.
Qed.

Lemma own_names name p :
  AI_PROVIDERS name = Own p ->
  name = js "xAI (Grok)" \/ name = js "OpenAI" \/ name = js "Anthropic (Claude)" \/
  name = js "Google (Gemini)" \/ name = js "Cohere".
Proof.
  unfold AI_PROVIDERS. intros H.
  repeat match type of H with
         | context [decide ?P] => destruct (decide P) as [->|?]; [auto 10|]
         end.
  by destruct (bool_decide _).
Qed.

(** The body of every descriptor holds whatever the system instruction or
    the prompt holds. *)
Lemma body_mentions name provider text t :
  Outbound.AI_PROVIDERS name = Some provider ->
  includes t system_instruction = true \/ includes t (enhancedPrompt text) = true ->
  exists b,
    Outbound.body provider (Outbound.model provider) (messages text) = Normal b /\
    mentions t b = true.
Proof.
  unfold Outbound.AI_PROVIDERS. intros Hd Ht.
  repeat case_decide; simplify_eq; (eexists; split; [reflexivity|]).
  - apply mentions_later, mentions_member.
    destruct Ht as [Ht|Ht].
    + apply mentions_item, mentions_later, mentions_member, mentions_str, Ht.
    + apply mentions_rest, mentions_item, mentions_later, mentions_member, mentions_str, Ht.
  - apply mentions_later, mentions_member.
    destruct Ht as [Ht|Ht].
    + apply mentions_item, mentions_later, mentions_member, mentions_str, Ht.
    + apply mentions_rest, mentions_item, mentions_later, mentions_member, mentions_str, Ht.
  - destruct Ht as [Ht|Ht].
    + do 3 apply mentions_later. apply mentions_member, mentions_str, Ht.
    + do 2 apply mentions_later.
      apply mentions_member, mentions_item, mentions_later, mentions_member, mentions_str, Ht.
  - do 2 (apply mentions_member, mentions_item). apply mentions_member, mentions_str.
    cbn [messages map join role content].
    destruct Ht as [Ht|Ht]; (eapply includes_trans; [exact Ht|]).
    + apply includes_spec.
      exists (js "system" ++ js ": "),
             ((nl ++ nl) ++ js "user" ++ js ": " ++ enhancedPrompt text).
      by rewrite <- !app_assoc.
    + apply includes_spec.
      exists ((js "system" ++ js ": " ++ system_instruction) ++ (nl ++ nl)
              ++ js "user" ++ js ": "), [].
      by rewrite app_nil_r, <- !app_assoc.
  - destruct Ht as [Ht|Ht].
    + do 2 apply mentions_later. apply mentions_member, mentions_str, Ht.
    + apply mentions_later, mentions_member, mentions_str, Ht.
Qed.

Lemma outgoing_reaches eng w ev name p text :
  reaches_provider eng w ev name p text ->
  exists b request provider key,
    body ev = Some b /\ JSON_parse eng b = Some request /\
    text_of eng (field request (js "providerName")) = Normal name /\
    Outbound.AI_PROVIDERS name = Some provider /\
    env w (envKey p) = Some key /\ key <> [] /\
    outgoing eng w ev =
      match build_request (field request (js "providerName")) provider key text with
      | Normal r => Some r
      | Throw _ => None
      end.
Proof.
  intros (Hpost & b & request & key & Hb & Hparse & Hreq & Hname & Hp & Hkey & Hne & Htext).
  assert (exists provider, Outbound.AI_PROVIDERS name = Some provider) as [provider Hd].
  { destruct (own_names _ _ Hp) as [-> | [-> | [-> | [-> | ->]]]]; by eexists. }
  exists b, request, provider, key. repeat split; try done.
  unfold outgoing. rewrite decide_True, Hb, Hparse, !(Get_field request) by done.
  rewrite Htext, Hname, Hp, Hd, Hkey. by destruct key.
Qed.

(** X16. Whatever the provider, the body of the request sent to it holds the
    system instruction, the prompt, and in the prompt the input text as it
    was given: no descriptor drops a message on the way. *)
Theorem request_carries_prompt (eng : Engine) (w : World) (ev : Event)
    (name : jsstring) (p : Provider) (text : jsstring) :
  reaches_provider eng w ev name p text ->
  exists req,
    outgoing eng w ev = Some req /\
    mentions system_instruction (request_body req) = true /\
    mentions (enhancedPrompt text) (request_body req) = true /\
    mentions text (request_body req) = true.
Proof.
  intros (b & request & provider & key & _ & _ & _ & Hd & _ & _ & ->)%outgoing_reaches.
  unfold build_request.
  destruct (body_mentions name provider text system_instruction Hd) as (body1 & Hb1 & Hm1).
  { left. apply includes_refl. }
  destruct (body_mentions name provider text (enhancedPrompt text) Hd) as (body2 & Hb2 & Hm2).
  { right. apply includes_refl. }
  destruct (body_mentions name provider text text Hd) as (body3 & Hb3 & Hm3).
  { right. apply includes_infix. }
  rewrite Hb1 in *. simplify_eq. eexists. split; [reflexivity|]. done.
Qed.

Lemma request_carries_prompt_witness :
  exists req,
    outgoing sample_engine (answering []) (post_cohere "abc") = Some req /\
    mentions system_instruction (request_body req) = true /\
    mentions (enhancedPrompt (js "abc")) (request_body req) = true /\
    mentions (js "abc") (request_body req) = true.
Proof.
  apply (request_carries_prompt sample_engine (answering []) (post_cohere "abc")
           (js "Cohere") Cohere (js "abc")).
  split; [reflexivity|].
  exists (jq "{'providerName': 'Cohere', 'inputText': 'abc'}"),
         (JObj [(js "providerName", JStr (js "Cohere")); (js "inputText", JStr (js "abc"))]),
         (js "secret").
  repeat split; try reflexivity; done.
Defined.

Lemma endpoint_no_query name provider key :
  Outbound.AI_PROVIDERS name = Some provider ->
  ~ exists e, Outbound.endpoint provider = e ++ js "?key=" ++ key.
Proof.
  intros Hd [e He].
  assert (existsb (N.eqb 63) (Outbound.endpoint provider) = true) as Hq.
  { rewrite He. apply existsb_exists. exists 63. split; [|done].
    apply in_or_app. right. by left. }
  unfold Outbound.AI_PROVIDERS in Hd.
  repeat case_decide; simplify_eq; vm_compute in Hq; discriminate Hq.
Qed.

Lemma outgoing_named eng w ev v req :
  named eng ev v ->
  outgoing eng w ev = Some req ->
  exists name p provider key text,
    text_of eng (Some v) = Normal name /\
    AI_PROVIDERS name = Own p /\
    Outbound.AI_PROVIDERS name = Some provider /\
    env w (envKey p) = Some key /\
    build_request (Some v) provider key text = Normal req.
Proof.
  intros (b & request & Hb & Hparse & Hv) H. unfold outgoing in H.
  destruct (decide (httpMethod ev = js "POST")); [|done].
  rewrite Hb, Hparse in H.
  assert (request <> JNull) as Hreq by (intros ->; discriminate Hv).
  rewrite !(Get_field request), Hv in H by done.
  destruct (field request (js "inputText")) as [[| | |text| |]|]; try done.
  destruct (text_of eng (Some v)) as [name|] eqn:Hname; [|done].
  destruct (AI_PROVIDERS name) as [p| |] eqn:Hp; try done.
  destruct (Outbound.AI_PROVIDERS name) as [provider|] eqn:Hd; try done.
  destruct (env w (envKey p)) as [[|c key]|] eqn:Hkey; try done.
  destruct (build_request _ _ _ _) as [r|] eqn:Hr; [|done].
  injection H as ->. by exists name, p, provider, (c :: key), text.
Qed.

Lemma build_request_inv v provider key text req :
  build_request v provider key text = Normal req ->
  url req = (if strict_equal v (js "Google (Gemini)")
             then Outbound.endpoint provider ++ js "?key=" ++ key
             else Outbound.endpoint provider) /\
  request_headers req = Outbound.headers provider key.
Proof.
  unfold build_request. destruct (Outbound.body _ _ _); [|done].
  by intros [= <-].
Qed.

(** X17. A request whose [providerName] is a string carries the configured
    key of that provider in exactly one place: for Google (Gemini) as the
    query of the URL and in no header, for every other provider in the
    [Authorization] or [x-api-key] header and not in the URL. *)
Theorem credential_placement (eng : Engine) (w : World) (ev : Event)
    (name : jsstring) (p : Provider) (key : jsstring) (req : Request) :
  named eng ev (JStr name) ->
  AI_PROVIDERS name = Own p ->
  env w (envKey p) = Some key ->
  outgoing eng w ev = Some req ->
  if decide (name = js "Google (Gemini)")
  then key_in_url key req /\ ~ key_in_header key req
  else key_in_header key req /\ ~ key_in_url key req.
Proof.
  intros Hnamed Hp Hkey Hout.
  destruct (outgoing_named _ _ _ _ _ Hnamed Hout)
    as (name' & p' & provider & key' & text & Hname & Hp' & Hd & Hkey' & Hreq).
  injection Hname as <-.
  rewrite Hp in Hp'. injection Hp' as <-. rewrite Hkey in Hkey'. injection Hkey' as <-.
  apply build_request_inv in Hreq as [Hurl Hheaders].
  unfold key_in_url, key_in_header. rewrite Hurl, Hheaders.
  cbn [strict_equal].
  destruct (decide (name = js "Google (Gemini)")) as [->|Hne].
  - rewrite bool_decide_eq_true_2 by done.
    injection Hd as <-. split; [by eexists|].
    cbn [Outbound.headers Outbound.Gemini].
    intros [[H|[]]|[H|[]]]; discriminate H.
  - rewrite bool_decide_eq_false_2 by done.
    split; [|by eapply endpoint_no_query].
    unfold Outbound.AI_PROVIDERS in Hd.
    repeat case_decide; simplify_eq; cbn [Outbound.headers Outbound.xAI Outbound.OpenAI
      Outbound.Anthropic Outbound.Cohere Outbound.bearer]; simpl; auto.
Qed.

Lemma credential_placement_witness :
  exists req,
    outgoing sample_engine (answering []) (post_cohere "abc") = Some req /\
    key_in_header (js "secret") req /\ ~ key_in_url (js "secret") req.
Proof.
  eexists. split; [reflexivity|].
  apply (credential_placement sample_engine (answering []) (post_cohere "abc")
           (js "Cohere") Cohere (js "secret")); try reflexivity.
  exists (jq "{'providerName': 'Cohere', 'inputText': 'abc'}"),
         (JObj [(js "providerName", JStr (js "Cohere")); (js "inputText", JStr (js "abc"))]).
  repeat split; reflexivity.
Defined.

(** X18. The key is added to the URL only when [providerName] is the string
    [Google (Gemini)] itself.  A [providerName] of another type that reads
    [Google (Gemini)] as a property key (the array holding that string, for
    one) selects the same descriptor and passes the credential check, but
    the request leaves with the bare endpoint and the [Content-Type] header:
    the key is nowhere in it. *)
Theorem credential_dropped (eng : Engine) (w : World) (ev : Event)
    (v : JValue) (key : jsstring) (req : Request) :
  named eng ev v ->
  v <> JStr (js "Google (Gemini)") ->
  text_of eng (Some v) = Normal (js "Google (Gemini)") ->
  env w (js "GOOGLE_API_KEY") = Some key ->
  outgoing eng w ev = Some req ->
  url req = Outbound.endpoint Outbound.Gemini /\
  request_headers req = [Outbound.content_type] /\
  ~ key_in_url key req /\ ~ key_in_header key req.
Proof.
  intros Hnamed Hv Htext Hkey Hout.
  destruct (outgoing_named _ _ _ _ _ Hnamed Hout)
    as (name & p & provider & key' & text & Hname & Hp & Hd & Hkey' & Hreq).
  rewrite Htext in Hname. injection Hname as <-. injection Hp as <-. injection Hd as <-.
  change (envKey Gemini) with (js "GOOGLE_API_KEY") in Hkey'.
  rewrite Hkey in Hkey'. injection Hkey' as <-.
  apply build_request_inv in Hreq as [Hurl Hheaders].
  assert (strict_equal (Some v) (js "Google (Gemini)") = false) as Hstrict.
  { destruct v; try done. cbn [strict_equal]. apply bool_decide_eq_false_2.
    by intros ->. }
  rewrite Hstrict in Hurl. unfold key_in_url, key_in_header.
  rewrite Hurl, Hheaders. repeat split.
  - by apply (endpoint_no_query (js "Google (Gemini)")).
  - cbn [Outbound.headers Outbound.Gemini]. intros [[H|[]]|[H|[]]]; discriminate H.
Qed.

Lemma credential_dropped_witness :
  let ev := {| httpMethod := js "POST";
               body := Some (jq "{'providerName': ['Google (Gemini)'], 'inputText': 'abc'}") |} in
  exists req,
    outgoing sample_engine (answering []) ev = Some req /\
    url req = Outbound.endpoint Outbound.Gemini /\
    request_headers req = [Outbound.content_type] /\
    ~ key_in_url (js "secret") req /\ ~ key_in_header (js "secret") req.
Proof.
  intros ev. eexists. split; [reflexivity|].
  apply (credential_dropped sample_engine (answering []) ev
           (JArr [JStr (js "Google (Gemini)")]) (js "secret")); try reflexivity; [|done].
  exists (jq "{'providerName': ['Google (Gemini)'], 'inputText': 'abc'}"),
         (JObj [(js "providerName", JArr [JStr (js "Google (Gemini)")]);
                (js "inputText", JStr (js "abc"))]).
  repeat split; reflexivity.
Defined.

Lemma escape_quotes_cons c s :
  escape_quotes (c :: s) = (if c =? 34 then [92; 34] else [c]) ++ escape_quotes s.
Proof. done. Qed.

(** X19. In the copy of the input text that the prompt puts in its JSON
    template, every double quote comes right after a backslash, and a text
    without double quotes is copied unchanged. *)
Theorem escape_quotes_escaped (s : jsstring) :
  (forall i, escape_quotes s !! i = Some 34 ->
             exists j, i = S j /\ escape_quotes s !! j = Some 92) /\
  (34 ∉ s -> escape_quotes s = s).
Proof.
  split.
  - induction s as [|c s IH]; intros i Hi; [by destruct i|].
    rewrite escape_quotes_cons in *.
    destruct (c =? 34) eqn:Hc.
    + destruct i as [|[|i]]; [done | by exists 0%nat |].
      destruct (IH i Hi) as (j & -> & Hj). by exists (S (S j)).
    + destruct i as [|i].
      * injection Hi as ->. done.
      * destruct (IH i Hi) as (j & -> & Hj). by exists (S j).
  - induction s as [|c s IH]; intros Hs; [done|].
    rewrite escape_quotes_cons.
    apply not_elem_of_cons in Hs as [Hc Hs].
    apply N.eqb_neq in Hc. rewrite N.eqb_sym in Hc. rewrite Hc, IH by done. done.
Qed.

Lemma escape_quotes_escaped_witness :
  escape_quotes (js "abc") = js "abc".
Proof.
  apply (escape_quotes_escaped (js "abc")). vm_compute.
  intros H. repeat (apply elem_of_cons in H as [H|H]; [discriminate H|]).
  by apply elem_of_nil in H.
Defined.

(** ** The highlighted text of the page *)

Lemma clamp_le s q : (Page.clamp s q <= length s)%nat.
Proof. unfold Page.clamp. lia. Qed.

Lemma clamp_zero s : Page.clamp s 0 = 0%nat.
Proof. done. Qed.

(** The three pieces that a round of the loop cuts. *)
Lemma apply_highlight_pieces s h :
  let i := Page.clamp s (Page.Highlight.start h) in
  let j := Page.clamp s (Page.Highlight.end' h) in
  Page.apply_highlight s h =
    take i s ++ Page.span_open (Page.Highlight.type h)
    ++ take (Nat.max i j - Nat.min i j) (drop (Nat.min i j) s)
    ++ Page.span_close ++ drop j s.
Proof.
  intros i j. unfold Page.apply_highlight, Page.substring, Page.substring_from.
  rewrite clamp_zero. fold i j.
  by rewrite Nat.max_0_l, Nat.min_0_l, Nat.sub_0_r, drop_0.
Qed.

Lemma apply_highlight_sublist s h : s `sublist_of` Page.apply_highlight s h.
Proof.
  rewrite apply_highlight_pieces.
  set (i := Page.clamp s (Page.Highlight.start h)).
  set (j := Page.clamp s (Page.Highlight.end' h)).
  rewrite <- (take_drop j s) at 1.
  rewrite !app_assoc. apply sublist_app; [|done].
  rewrite <- !app_assoc.
  destruct (decide (i <= j)%nat) as [Hij|Hij].
  - rewrite Nat.max_r, Nat.min_l by done.
    replace (take j s) with (take i s ++ take (j - i) (drop i s)).
    + apply sublist_app; [done|]. apply sublist_inserts_l, sublist_inserts_r. done.
    + rewrite <- (take_drop i s) at 3. rewrite take_app_ge; rewrite length_take; [|lia].
      f_equal. f_equal. pose proof (clamp_le s (Page.Highlight.start h)) as Hi. fold i in Hi. lia.
  - apply sublist_inserts_r.
    replace (take j s) with (take j (take i s)); [apply sublist_take|].
    rewrite take_take. f_equal. lia.
Qed.

Lemma fold_highlights_sublist hs s :
  s `sublist_of` fold_left Page.apply_highlight hs s.
Proof.
  revert s. induction hs as [|h hs IH]; intros s; [done|].
  simpl. etrans; [apply apply_highlight_sublist | apply IH].
Qed.

(** X20. Highlighting never loses or reorders a character of the analysed
    text: whatever spans the result holds (negative, reversed, overlapping,
    beyond the end), the original text is what remains of the highlighted
    text after deleting some of its characters. *)
Theorem highlighted_text_keeps_original (inputText : jsstring) (r : Page.AnalysisResult.t) :
  Page.AnalysisResult.originalText r `sublist_of` Page.getHighlightedText inputText (Some r).
Proof. apply fold_highlights_sublist. Qed.

(** The rendering of the sample result. *)
Example highlighted_sample :
  Page.getHighlightedText [] (Some Page.sample) =
  jq "<span class='bg-yellow-400/30 border-b-2 border-yellow-400' title='Redundant constraint'>Books</span> <span class='bg-green-400/30 border-b-2 border-green-400' title='Extracted constraint'>must have a title</span>".
Proof. vm_compute. reflexivity. Qed.

(** Truncation keeps the order of two numbers. *)
Lemma truncate_le (a b : Q) :
  (a <= b)%Q -> (Page.ToIntegerOrInfinity a <= Page.ToIntegerOrInfinity b)%Z.
Proof.
  unfold Qle, Page.ToIntegerOrInfinity. intros H.
  rewrite <- (Z.quot_mul_cancel_r (Qnum a) (Zpos (Qden a)) (Zpos (Qden b))) by lia.
  rewrite <- (Z.quot_mul_cancel_r (Qnum b) (Zpos (Qden b)) (Zpos (Qden a))) by lia.
  rewrite (Z.mul_comm (Zpos (Qden b)) (Zpos (Qden a))).
  apply Z.quot_le_mono; lia.
Qed.

Lemma clamp_mono s a b : (a <= b)%Q -> (Page.clamp s a <= Page.clamp s b)%nat.
Proof. intros H%truncate_le. unfold Page.clamp. lia. Qed.

Lemma apply_highlight_length s h :
  (Page.Highlight.start h <= Page.Highlight.end' h)%Q ->
  length (Page.apply_highlight s h) =
    (length s + (length (Page.span_open (Page.Highlight.type h)) + length Page.span_close))%nat.
Proof.
  intros Hh. rewrite apply_highlight_pieces.
  pose proof (clamp_mono s _ _ Hh) as Hij.
  pose proof (clamp_le s (Page.Highlight.end' h)) as Hj.
  rewrite !length_app, !length_take, !length_drop. lia.
Qed.

Lemma markup_cons h hs :
  Page.markup (h :: hs) =
    (length (Page.span_open (Page.Highlight.type h)) + length Page.span_close
     + Page.markup hs)%nat.
Proof. done. Qed.

Lemma markup_insert h hs :
  Page.markup (Page.insert h hs) = Page.markup (h :: hs).
Proof.
  induction hs as [|x hs IH]; [done|].
  simpl. destruct (_ ?= _)%Q; try done.
  rewrite !markup_cons in *. rewrite IH. lia.
Qed.

Lemma markup_sort hs : Page.markup (Page.sort hs) = Page.markup hs.
Proof.
  induction hs as [|h hs IH]; [done|].
  simpl. by rewrite markup_insert, !markup_cons, IH.
Qed.

Lemma Forall_insert (P : Page.Highlight.t -> Prop) h hs :
  Forall P (Page.insert h hs) <-> P h /\ Forall P hs.
Proof.
  induction hs as [|x hs IH]; simpl.
  - rewrite Forall_cons_iff. done.
  - destruct (_ ?= _)%Q; rewrite ?Forall_cons_iff, ?IH; tauto.
Qed.

Lemma Forall_sort (P : Page.Highlight.t -> Prop) hs :
  Forall P (Page.sort hs) <-> Forall P hs.
Proof.
  induction hs as [|h hs IH]; [done|].
  simpl. by rewrite Forall_insert, Forall_cons_iff, IH.
Qed.

(** Marking changes the [type] of a highlight and nothing else. *)
Lemma mark_redundant_spans i hs :
  map Page.span (Page.mark_redundant i hs) = map Page.span hs.
Proof.
  induction hs as [|h hs IH]; [done|].
  simpl. destruct (decide _); simpl; [done | by rewrite IH].
Qed.

Lemma mark_group_spans g hs :
  map Page.span (Page.mark_group hs g) = map Page.span hs.
Proof.
  unfold Page.mark_group. revert hs.
  induction (Page.RedundantGroup.constraints g) as [|c cs IH]; intros hs; [done|].
  simpl. by rewrite IH, mark_redundant_spans.
Qed.

Lemma highlights_spans r :
  map Page.span (Page.highlights r) = Page.spans r.
Proof.
  unfold Page.highlights.
  assert (forall gs hs, map Page.span (fold_left Page.mark_group gs hs) = map Page.span hs)
    as Hfold.
  { induction gs as [|g gs IH]; intros hs; [done|].
    simpl. by rewrite IH, mark_group_spans. }
  rewrite Hfold. unfold Page.constraint_highlights, Page.spans. rewrite map_map. done.
Qed.

(** A property of the spans of the constraints holds of the highlights. *)
Lemma highlights_Forall (P : Q * Q -> Prop) r :
  Forall P (Page.spans r) -> Forall (fun h => P (Page.span h)) (Page.highlights r).
Proof. intros H. apply Forall_map. by rewrite highlights_spans. Qed.

Lemma fold_highlights_length hs s :
  Forall (fun h => (Page.Highlight.start h <= Page.Highlight.end' h)%Q) hs ->
  length (fold_left Page.apply_highlight hs s) = (length s + Page.markup hs)%nat.
Proof.
  revert s. induction hs as [|h hs IH]; intros s Hhs.
  - simpl. change (Page.markup []) with 0%nat. lia.
  - apply Forall_cons_iff in Hhs as [Hh Hhs]. simpl.
    rewrite IH, apply_highlight_length, markup_cons by done. lia.
Qed.

(** X21. When no constraint of the result ends before it starts, the
    highlighted text is the original text plus the markup of one [span]
    element for each constraint, to the character: no round of the loop cuts
    a piece twice or drops one. *)
Theorem highlighted_text_length (inputText : jsstring) (r : Page.AnalysisResult.t) :
  Forall (fun a => (a.1 <= a.2)%Q) (Page.spans r) ->
  length (Page.getHighlightedText inputText (Some r)) =
    (length (Page.AnalysisResult.originalText r) + Page.markup (Page.highlights r))%nat /\
  length (Page.highlights r) = length (Page.AnalysisResult.constraints r).
Proof.
  intros H. split.
  - simpl. rewrite fold_highlights_length, markup_sort; [done|].
    apply Forall_sort. apply (highlights_Forall (fun a => (a.1 <= a.2)%Q)), H.
  - rewrite <- (length_map Page.span), highlights_spans. apply length_map.
Qed.

Lemma highlighted_text_length_witness :
  length (Page.getHighlightedText [] (Some Page.sample)) =
    (length (Page.AnalysisResult.originalText Page.sample)
     + Page.markup (Page.highlights Page.sample))%nat /\
  length (Page.highlights Page.sample) =
    length (Page.AnalysisResult.constraints Page.sample).
Proof.
  apply (highlighted_text_length [] Page.sample).
  repeat constructor; vm_compute; discriminate.
Defined.

(** ** Spans that share no position *)










(** ** Which highlights are marked redundant *)

Lemma mark_redundant_ids i hs :
  map Page.Highlight.id (Page.mark_redundant i hs) = map Page.Highlight.id hs.
Proof.
  induction hs as [|h hs IH]; [done|].
  simpl. destruct (decide _); simpl; [done | by rewrite IH].
Qed.

Lemma mark_redundant_lookup i hs n h :
  hs !! n = Some h ->
  exists h',
    Page.mark_redundant i hs !! n = Some h' /\
    Page.span h' = Page.span h /\ Page.Highlight.id h' = Page.Highlight.id h /\
    (Page.Highlight.type h' = Page.redundant <->
     Page.Highlight.type h = Page.redundant \/
     (Page.Highlight.id h = i /\
      forall m, (m < n)%nat -> map Page.Highlight.id hs !! m <> Some i)).
Proof.
  revert n. induction hs as [|x hs IH]; intros n Hn; [done|].
  simpl. destruct (decide (Page.Highlight.id x = i)) as [Hx|Hx].
  - destruct n as [|n]; simpl in *.
    + injection Hn as ->. eexists. split; [done|]. repeat split; simpl; auto.
      intros _. right. split; [done|]. intros m Hm. lia.
    + exists h. split; [done|]. repeat split; auto.
      intros [H|[_ H]]; [done|]. destruct (H 0%nat); [lia|]. simpl. by rewrite Hx.
  - destruct n as [|n]; simpl in *.
    + injection Hn as ->. exists h. split; [done|]. repeat split; auto.
      intros [H|[H _]]; done.
    + destruct (IH n Hn) as (h' & Hh' & Hspan & Hid & Htype).
      exists h'. split; [done|]. split; [done|]. split; [done|].
      rewrite Htype. split; (intros [H|[Hi H]]; [by left|right; split; [done|]]).
      * intros [|m] Hm; simpl; [congruence|]. apply H. lia.
      * intros m Hm. apply (H (S m)). lia.
Qed.

Lemma fold_mark_lookup ids hs n h :
  hs !! n = Some h ->
  exists h',
    fold_left (fun hs i => Page.mark_redundant i hs) ids hs !! n = Some h' /\
    Page.span h' = Page.span h /\ Page.Highlight.id h' = Page.Highlight.id h /\
    (Page.Highlight.type h' = Page.redundant <->
     Page.Highlight.type h = Page.redundant \/
     (In (Page.Highlight.id h) ids /\
      forall m, (m < n)%nat -> map Page.Highlight.id hs !! m <> Some (Page.Highlight.id h))).
Proof.
  revert hs h. induction ids as [|i ids IH]; intros hs h Hn.
  - exists h. repeat split; auto. by intros [H|[[] _]].
  - destruct (mark_redundant_lookup i hs n h Hn) as (h1 & Hh1 & Hspan1 & Hid1 & Htype1).
    destruct (IH _ _ Hh1) as (h' & Hh' & Hspan & Hid & Htype).
    exists h'. split; [done|]. split; [congruence|]. split; [congruence|].
    rewrite Htype, Htype1, mark_redundant_ids, Hid1. simpl. split.
    + intros [[H|[Hi H]]|[Hin H]]; auto.
      right. split; [by left | by rewrite Hi].
    + intros [H|[[Hi|Hin] H]]; auto.
      left. right. split; [done | by rewrite Hi].
Qed.

Lemma highlights_fold r :
  Page.highlights r =
  fold_left (fun hs i => Page.mark_redundant i hs) (Page.redundant_ids r)
            (Page.constraint_highlights (Page.AnalysisResult.constraints r)).
Proof.
  unfold Page.highlights, Page.redundant_ids.
  generalize (Page.constraint_highlights (Page.AnalysisResult.constraints r)).
  induction (Page.AnalysisResult.redundantGroups r) as [|g gs IH]; intros hs; [done|].
  simpl. rewrite fold_left_app, IH. f_equal.
  unfold Page.mark_group. revert hs.
  induction (Page.RedundantGroup.constraints g) as [|c cs IHc]; intros hs; [done|].
  simpl. apply IHc.
Qed.

(** The highlight at a place of the array, and the constraint it was built
    from. *)
Lemma redundant_marking_at (r : Page.AnalysisResult.t) (n : nat) (h : Page.Highlight.t) :
  Page.highlights r !! n = Some h ->
  exists c,
    Page.AnalysisResult.constraints r !! n = Some c /\
    Page.span h = (Page.Constraint.sourceStart c, Page.Constraint.sourceEnd c) /\
    Page.Highlight.id h = Page.Constraint.id c /\
    (Page.Highlight.type h = Page.redundant <->
     In (Page.Constraint.id c) (Page.redundant_ids r) /\
     forall m c', (m < n)%nat -> Page.AnalysisResult.constraints r !! m = Some c' ->
                  Page.Constraint.id c' <> Page.Constraint.id c).
Proof.
  intros Hn.
  assert (is_Some (Page.AnalysisResult.constraints r !! n)) as [c Hc].
  { apply lookup_lt_is_Some.
    rewrite <- (length_map (fun c => (Page.Constraint.sourceStart c, Page.Constraint.sourceEnd c))).
    fold (Page.spans r). rewrite <- highlights_spans, length_map.
    by apply lookup_lt_is_Some. }
  exists c. split; [done|].
  set (h0 := {| Page.Highlight.start := Page.Constraint.sourceStart c;
                Page.Highlight.end' := Page.Constraint.sourceEnd c;
                Page.Highlight.type := Page.constraint;
                Page.Highlight.id := Page.Constraint.id c |}).
  assert (Page.constraint_highlights (Page.AnalysisResult.constraints r) !! n = Some h0) as H0.
  { unfold Page.constraint_highlights.
    change (map ?f ?l) with (f <$> l). by rewrite list_lookup_fmap, Hc. }
  destruct (fold_mark_lookup (Page.redundant_ids r) _ n h0 H0)
    as (h' & Hh' & Hspan & Hid & Htype).
  rewrite <- highlights_fold, Hn in Hh'. injection Hh' as <-.
  split; [done|]. split; [done|].
  rewrite Htype. simpl. split.
  - intros [H|[Hin H]]; [done|]. split; [done|].
    intros m c' Hm Hc' Heq. apply (H m Hm).
    unfold Page.constraint_highlights. rewrite map_map.
    change (map ?f ?l) with (f <$> l). by rewrite list_lookup_fmap, Hc', <- Heq.
  - intros [Hin H]. right. split; [done|].
    intros m Hm. unfold Page.constraint_highlights. rewrite map_map.
    change (map ?f ?l) with (f <$> l). rewrite list_lookup_fmap.
    destruct (Page.AnalysisResult.constraints r !! m) as [c'|] eqn:Hc'; [|done].
    simpl. intros [= Heq]. by apply (H m c').
Qed.

(** X23. There is one highlight for each constraint of the result, at the
    same place in the array, with the offsets and the [id] of the
    constraint.  It is rendered as redundant exactly when its [id] is that
    of a member of some redundant group and no earlier constraint has the
    same [id]: of constraints that share an [id], only the first is ever
    marked. *)
Theorem redundant_marking (r : Page.AnalysisResult.t) :
  length (Page.highlights r) = length (Page.AnalysisResult.constraints r) /\
  forall n c,
    Page.AnalysisResult.constraints r !! n = Some c ->
    exists h,
      Page.highlights r !! n = Some h /\
      Page.Highlight.start h = Page.Constraint.sourceStart c /\
      Page.Highlight.end' h = Page.Constraint.sourceEnd c /\
      Page.Highlight.id h = Page.Constraint.id c /\
      (Page.Highlight.type h = Page.redundant <->
       In (Page.Constraint.id c) (Page.redundant_ids r) /\
       forall m c', (m < n)%nat -> Page.AnalysisResult.constraints r !! m = Some c' ->
                    Page.Constraint.id c' <> Page.Constraint.id c).
Proof.
  assert (length (Page.highlights r) = length (Page.AnalysisResult.constraints r)) as Hlen.
  { rewrite <- (length_map Page.span), highlights_spans. apply length_map. }
  split; [done|]. intros n c Hc.
  assert (is_Some (Page.highlights r !! n)) as [h Hh].
  { apply lookup_lt_is_Some. rewrite Hlen. by apply lookup_lt_is_Some. }
  destruct (redundant_marking_at r n h Hh) as (c' & Hc' & Hspan & Hid & Htype).
  rewrite Hc in Hc'. injection Hc' as <-.
  exists h. split; [done|]. injection Hspan as Hstart Hend.
  split; [done|]. split; [done|]. split; [done|]. exact Htype.
Qed.

Lemma redundant_marking_witness :
  exists h,
    Page.highlights Page.sample !! 1%nat = Some h /\
    Page.Highlight.id h = js "c2" /\
    Page.Highlight.type h = Page.redundant.
Proof.
  destruct (proj2 (redundant_marking Page.sample) 1%nat
              {| Page.Constraint.id := js "c2"; Page.Constraint.text := js "Books";
                 Page.Constraint.sourceStart := 0; Page.Constraint.sourceEnd := 5 |}
              eq_refl)
    as (h & Hh & _ & _ & Hid & Htype).
  exists h. split; [done|]. split; [done|].
  apply Htype. split.
  - vm_compute. auto.
  - intros [|m] c' Hm Hc'; [|lia]. injection Hc' as <-. vm_compute. discriminate.
Defined.

(** ** The page and the handler *)

Lemma prepare_early_message eng w ev r :
  prepare eng w ev = Normal (inl r) ->
  exists code message,
    r = error_response code message /\ message <> [] /\ (code = 400 \/ code = 500)%Z.
Proof.
  unfold prepare. intros H.
  repeat case_match; simplify_eq;
    (eexists _, _; split; [reflexivity|]; split; [|auto]);
    try done; intros [_ Hnil]%app_eq_nil; discriminate Hnil.
Qed.

(** What [handleSubmit] makes of a response that carries an [error]
    string. *)
Lemma handleSubmit_error eng inputText st code hs ms m :
  trim inputText <> [] ->
  (code = 405 \/ code = 400 \/ code = 500)%Z ->
  lookup_member (js "error") ms = Some (JStr m) -> m <> [] ->
  Page.handleSubmit eng inputText
    (Page.served {| statusCode := code; headers := hs; payload := JObj ms |}) st =
  {| Page.analysisResult := JNull; Page.error := Some m |}.
Proof.
  intros Hin Hcode Hm Hne. unfold Page.handleSubmit, Page.served.
  destruct (trim inputText); [done|]. cbn [statusCode payload Get].
  rewrite Hm.
  assert (or_else (Some (JStr m)) (JStr (js "Request failed with status "
                                         ++ decimal (Z.to_nat code))) = JStr m) as ->.
  { by destruct m. }
  by destruct Hcode as [-> | [-> | ->]].
Qed.

(** X24. The page shows what the handler answered: the body of a 200
    response becomes the displayed result, and for every other response the
    displayed error is the handler's own [error] text, which is never empty,
    so the page's generic message for a failed request never replaces it. *)
Theorem page_reports_handler (eng : Engine) (w : World) (ev : Event)
    (inputText : jsstring) (st : Page.State) :
  trim inputText <> [] ->
  (statusCode (handler eng w ev) = 200%Z ->
   Page.handleSubmit eng inputText (Page.served (handler eng w ev)) st =
   {| Page.analysisResult := payload (handler eng w ev); Page.error := None |}) /\
  (statusCode (handler eng w ev) <> 200%Z ->
   exists m,
     field (payload (handler eng w ev)) (js "error") = Some (JStr m) /\ m <> [] /\
     Page.handleSubmit eng inputText (Page.served (handler eng w ev)) st =
     {| Page.analysisResult := JNull; Page.error := Some m |}).
Proof.
  intros Hin.
  assert ((exists code m,
             handler eng w ev = error_response code m /\ m <> [] /\
             (code = 405 \/ code = 400 \/ code = 500)%Z) \/
          (exists e, handler eng w ev = failure_response eng e) \/
          (exists a, handler eng w ev =
                     {| statusCode := 200; headers := success_headers;
                        payload := to_json a |})) as Hcases.
  { unfold handler. destruct (decide (httpMethod ev = js "POST")) as [Hpost|_].
    - unfold handle_post, bind, lift.
      destruct (prepare eng w ev) as [[r|[text answer]]|e] eqn:Hprep.
      + left. apply prepare_early_message in Hprep as (code & msg & -> & Hne & Hcode).
        exists code, msg. unfold ret. repeat split; [done|]. destruct Hcode; auto.
      + destruct (reconcile eng text answer 0%nat) as [[a k]|e]; [|by right; left; eauto].
        right; right. by exists a.
      + right; left. eauto.
    - left. exists 405%Z, (js "Method not allowed"). auto. }
  destruct Hcases as [(code & m & -> & Hne & Hcode) | [[e ->] | [a ->]]].
  - split; [intros Hs; cbn in Hs; lia|]. intros _. exists m. repeat split; [done|].
    by apply handleSubmit_error.
  - split; [done|]. intros _.
    destruct (failure_response_error eng e) as (m & Hm & Hne).
    exists m. repeat split; [done..|].
    by apply handleSubmit_error; auto.
  - split; [|done]. intros _. unfold Page.handleSubmit, Page.served.
    by destruct (trim inputText).
Qed.

Lemma page_reports_handler_witness :
  Page.handleSubmit sample_engine (js "abc")
    (Page.served (handler sample_engine (answering bullets_answer) (post_cohere "abc")))
    {| Page.analysisResult := JNull; Page.error := None |} =
  {| Page.analysisResult :=
       payload (handler sample_engine (answering bullets_answer) (post_cohere "abc"));
     Page.error := None |}.
Proof.
  apply (page_reports_handler sample_engine (answering bullets_answer) (post_cohere "abc")
           (js "abc")); [vm_compute; discriminate | reflexivity].
Defined.

(** X25. Every provider name that the page offers is an own key of the
    handler's table.  So a request of the page is never answered 405 or 400:
    it gets the message of the missing credential when the key of the
    chosen provider is not configured, and goes on to the provider
    otherwise. *)
Theorem page_request_accepted (eng : Engine) (w : World)
    (selectedProvider inputText b : jsstring) :
  In selectedProvider Page.AI_PROVIDERS ->
  JSON_parse eng b = Some (Page.request selectedProvider inputText) ->
  let ev := {| httpMethod := js "POST"; body := Some b |} in
  exists p,
    AI_PROVIDERS selectedProvider = Own p /\
    match env w (envKey p) with
    | None | Some [] =>
        handler eng w ev =
        error_response 500 (selectedProvider ++ js " API key not configured")
    | Some _ => reaches_provider eng w ev selectedProvider p inputText
    end.
Proof.
  intros Hsel Hparse ev.
  assert (exists p, AI_PROVIDERS selectedProvider = Own p) as [p Hp].
  { simpl in Hsel. destruct Hsel as [<- | [<- | [<- | [<- | [<- | []]]]]]; by eexists. }
  exists p. split; [done|].
  assert (forall key, env w (envKey p) = Some key -> key <> [] ->
                      reaches_provider eng w ev selectedProvider p inputText) as Hreach.
  { intros key Hkey Hne. split; [done|].
    exists b, (Page.request selectedProvider inputText), key.
    repeat split; done. }
  assert (env w (envKey p) = None \/ env w (envKey p) = Some [] ->
          handler eng w ev =
          error_response 500 (selectedProvider ++ js " API key not configured")) as Hmiss.
  { intros Hkey. unfold handler, handle_post, bind, lift, prepare. cbn [httpMethod body ev].
    rewrite decide_True, Hparse by done. cbn [Page.request Get lookup_member].
    rewrite !decide_True by done.
    rewrite decide_False by done. rewrite decide_True by done.
    cbn [text_of to_string]. rewrite Hp. by destruct Hkey as [-> | ->]. }
  destruct (env w (envKey p)) as [[|c key]|] eqn:Hkey; auto.
  by apply (Hreach (c :: key)).
Qed.

Lemma page_request_accepted_witness :
  reaches_provider sample_engine (answering [])
    {| httpMethod := js "POST";
       body := Some (jq "{'providerName': 'Cohere', 'inputText': 'abc'}") |}
    (js "Cohere") Cohere (js "abc").
Proof.
  destruct (page_request_accepted sample_engine (answering []) (js "Cohere") (js "abc")
              (jq "{'providerName': 'Cohere', 'inputText': 'abc'}")) as (p & Hp & H).
  - vm_compute. auto 10.
  - reflexivity.
  - injection Hp as <-. exact H.
Defined.
